(** * Mantella: conversation context, character resolution and speech input

    A shallow embedding of [src/conversation/context.py] (class [context]),
    [src/games/gameable.py] (class [gameable]) and the parts of
    [src/stt.py] (class [Transcriber]) that do not talk to a device or a
    service, together with the properties of their natural-language
    specification.

    Python text is modelled by Rocq's [string] (ASCII text), Python [int] by
    [Z], a Python exception by the [Raises] outcome, Python list objects that
    are shared between caller and callee by references into a heap, a pandas
    [DataFrame] by its column labels with their dtypes and its rows. *)

From Stdlib Require Import ZArith QArith Ascii String.
From stdpp Require Import base option list strings gmap pretty.

Open Scope string_scope.
Open Scope Z_scope.

(** ** Python primitives *)

Module Py.

(** The exceptions the modelled code can raise. *)
Inductive exn : Type :=
| UnboundLocalError
| KeyError
| IndexError
| ValueError
| AttributeError
| OSError.

(** Outcome of a Python expression: a value, a raised exception, or
    [Unmodelled] when the expression leaves the fragment of the language
    that this development gives a meaning to (no statement below draws a
    conclusion from an [Unmodelled] outcome). *)
Inductive outcome (A : Type) : Type :=
| Returns (a : A)
| Raises (e : exn)
| Unmodelled.
Arguments Returns {A} a.
Arguments Raises {A} e.
Arguments Unmodelled {A}.

Definition bind {A B : Type} (m : outcome A) (k : A -> outcome B) : outcome B :=
  match m with
  | Returns a => k a
  | Raises e => Raises e
  | Unmodelled => Unmodelled
  end.

Definition rmap {A B : Type} (f : A -> B) (m : outcome A) : outcome B :=
  bind m (fun a => Returns (f a)).

Definition returns {A : Type} (m : outcome A) : bool :=
  match m with Returns _ => true | _ => false end.

(** [c.lower()] on one ASCII character. *)
Definition ascii_lower (c : ascii) : ascii :=
  let n := nat_of_ascii c in
  if ((65 <=? n)%nat && (n <=? 90)%nat)%bool then ascii_of_nat (n + 32) else c.

(** [s.lower()] *)
Fixpoint str_lower (s : string) : string :=
  match s with
  | EmptyString => EmptyString
  | String c s' => String (ascii_lower c) (str_lower s')
  end.

(** [s.lstrip(c)] for a one-character strip set. *)
Fixpoint str_lstrip (c : ascii) (s : string) : string :=
  match s with
  | EmptyString => EmptyString
  | String d s' => if Ascii.eqb d c then str_lstrip c s' else s
  end.

Fixpoint str_drop (n : nat) (s : string) : string :=
  match n, s with
  | O, _ => s
  | S _, EmptyString => EmptyString
  | S n', String _ s' => str_drop n' s'
  end.

(** [s[-n:]] for [n > 0]: the last [n] characters, the whole string when it
    is shorter. *)
Definition str_suffix (n : nat) (s : string) : string :=
  str_drop (String.length s - n) s.

(** [str_rev_append acc s] is the reversed accumulator followed by [s]. *)
Fixpoint str_rev_append (acc : list ascii) (s : string) : string :=
  match acc with
  | [] => s
  | c :: acc' => str_rev_append acc' (String c s)
  end.

(** [s.split(sep)] for a non-empty separator: scan left to right, cutting
    at each non-overlapping occurrence of [sep].  [skip] counts the
    characters of a separator that are still to be passed over, [acc] holds
    the current piece in reverse. *)
Fixpoint split_go (sep : string) (skip : nat) (acc : list ascii) (s : string)
  : list string :=
  match s with
  | EmptyString => [str_rev_append acc EmptyString]
  | String c s' =>
      match skip with
      | S k => split_go sep k acc s'
      | O =>
          if String.prefix sep s
          then str_rev_append acc EmptyString
                 :: split_go sep (String.length sep - 1) [] s'
          else split_go sep O (c :: acc) s'
      end
  end.

Definition str_split (sep s : string) : list string := split_go sep O [] s.

(** [sep.join(l)] *)
Fixpoint str_join (sep : string) (l : list string) : string :=
  match l with
  | [] => ""
  | [x] => x
  | x :: rest => x ++ sep ++ str_join sep rest
  end.

(** [needle in hay] *)
Fixpoint str_contains (needle hay : string) : bool :=
  if String.prefix needle hay then true
  else match hay with
       | EmptyString => false
       | String _ hay' => str_contains needle hay'
       end.

(** [str(n)] for an [int]. *)
Definition str_of_int (n : Z) : string := pretty n.

(** [l[i]] on a list, raising [IndexError] out of range. *)
Definition list_index {A : Type} (l : list A) (i : nat) : outcome A :=
  match l !! i with
  | Some a => Returns a
  | None => Raises IndexError
  end.

(** *** [str.format] called with keyword arguments only

    The template is read left to right.  [{{] and [}}] stand for one
    brace; [{key}] is replaced by the text of the keyword argument [key];
    a lone [}] or an unclosed [{] raises [ValueError]; a key that is not
    among the keyword arguments raises [KeyError]; the empty field [{}]
    asks for positional argument 0 and raises [IndexError], no positional
    argument being passed.  Fields that use a numeric index, a conversion
    ([!r]), a format specification ([:>10]), attribute or item access, or
    a nested brace are [Unmodelled].  The first problem met from the left
    decides the outcome, as in CPython's incremental formatter. *)

Definition all_digits (cs : list ascii) : bool :=
  forallb (fun c => let n := nat_of_ascii c in (48 <=? n)%nat && (n <=? 57)%nat)%bool cs.

Definition field_char_unmodelled (c : ascii) : bool :=
  existsb (Ascii.eqb c) ["{"; "!"; ":"; "."; "["; "]"]%char.

Fixpoint kw_lookup (key : string) (kw : list (string * string)) : option string :=
  match kw with
  | [] => None
  | (k, v) :: kw' => if String.eqb k key then Some v else kw_lookup key kw'
  end.

Definition format_field (kw : list (string * string)) (rev_name : list ascii)
  : outcome string :=
  match rev_name with
  | [] => Raises IndexError
  | _ =>
      if all_digits rev_name then Unmodelled
      else match kw_lookup (str_rev_append rev_name EmptyString) kw with
           | Some v => Returns v
           | None => Raises KeyError
           end
  end.

Fixpoint format_go (kw : list (string * string)) (field : option (list ascii))
    (s : string) : outcome string :=
  match field, s with
  | None, EmptyString => Returns EmptyString
  | None, String c rest =>
      if Ascii.eqb c "{" then
        match rest with
        | String "{" rest' => rmap (String "{") (format_go kw None rest')
        | _ => format_go kw (Some []) rest
        end
      else if Ascii.eqb c "}" then
        match rest with
        | String "}" rest' => rmap (String "}") (format_go kw None rest')
        | _ => Raises ValueError
        end
      else rmap (String c) (format_go kw None rest)
  | Some name, EmptyString => Raises ValueError
  | Some name, String c rest =>
      if Ascii.eqb c "}" then
        bind (format_field kw name) (fun v =>
        rmap (String.append v) (format_go kw None rest))
      else if field_char_unmodelled c then Unmodelled
      else format_go kw (Some (c :: name)) rest
  end.

Definition str_format (template : string) (kw : list (string * string))
  : outcome string :=
  format_go kw None template.

End Py.

Import Py.

(** ** The character roster *)

Module Character.

(** Modelled from the spec: the class [Character] of
    [src/character_manager.py] is not part of the sources; the record keeps
    the fields the spec's data model lists and that [context.py] reads.  A
    [Character] object counts as true in a condition. *)
Record t : Type := {
  name : string;
  bio : string;
  is_player_character : bool;
  is_in_combat : bool;
  is_enemy : bool;
  relationship_rank : Z
}.

End Character.

Module Characters.

(** Modelled from the spec: the class [Characters] of
    [src/characters_manager.py] is not part of the sources.  The spec
    describes it as an ordered, name-keyed collection with at most one entry
    per name that tracks the most recently added character. *)
Record t : Type := {
  active_characters : list (string * Character.t);
  last_added_character : option Character.t
}.

(** [Characters()] *)
Definition empty : t :=
  {| active_characters := []; last_added_character := None |}.

Fixpoint has_key (key : string) (l : list (string * Character.t)) : bool :=
  match l with
  | [] => false
  | (k, _) :: l' => if String.eqb k key then true else has_key key l'
  end.

(** Assignment to a key: an existing entry keeps its position. *)
Fixpoint set_key (key : string) (c : Character.t) (l : list (string * Character.t))
  : list (string * Character.t) :=
  match l with
  | [] => [(key, c)]
  | (k, d) :: l' => if String.eqb k key then (k, c) :: l' else (k, d) :: set_key key c l'
  end.

(** Modelled from the spec: membership is by name. *)
Definition contains_character (cs : t) (c : Character.t) : bool :=
  has_key (Character.name c) (active_characters cs).

(** Modelled from the spec: adding keeps one entry per name and records
    the character as the most recently added one. *)
Definition add_character (cs : t) (c : Character.t) : t :=
  {| active_characters := set_key (Character.name c) c (active_characters cs);
     last_added_character := Some c |}.

Definition get_all_characters (cs : t) : list Character.t :=
  map snd (active_characters cs).

Definition get_all_names (cs : t) : list string :=
  map fst (active_characters cs).

(** Modelled from the spec: the player character of the roster, [None]
    when there is none. *)
Definition get_player_character (cs : t) : option Character.t :=
  List.find Character.is_player_character (get_all_characters cs).

(** [len(cs)] *)
Definition len (cs : t) : nat := length (active_characters cs).

End Characters.

(** ** [src/conversation/context.py] *)

Module Context.

(** A reference to a Python list object. *)
Abbreviation ref := positive.

(** A value of a [dict[str, Any]] bag. *)
Inductive pyval : Type :=
| PyNone
| PyBool (b : bool)
| PyInt (n : Z)
| PyStr (s : string).

(** [context.TOKEN_LIMIT_PERCENT]; the float is only ever handed on to the
    injected predicate. *)
Definition TOKEN_LIMIT_PERCENT : Q := 45 # 100.

(** The fields of a [context] object.  [rememberer] stands for
    [remembering.get_prompt_text], [client] for
    [openai_client.calculate_tokens_from_text]; the list of in-game events
    is held by reference. *)
Record context : Type := {
  prev_game_time : string * string;
  npcs_in_conversation : Characters.t;
  client : string -> nat;
  rememberer : Characters.t -> string;
  language : gmap string string;
  is_prompt_too_long : string -> Q -> bool;
  custom_context_values : gmap string pyval;
  ingame_time : Z;
  ingame_events : ref;
  have_actors_changed : bool;
  location : string
}.

(** [context.__init__]; [events] is the list object freshly created for
    [self.__ingame_events]. *)
Definition init (game : string) (cl : string -> nat) (rem : Characters.t -> string)
    (lang : gmap string string) (too_long : string -> Q -> bool) (events : ref)
  : context :=
  {| prev_game_time := ("", "");
     npcs_in_conversation := Characters.empty;
     client := cl;
     rememberer := rem;
     language := lang;
     is_prompt_too_long := too_long;
     custom_context_values := ∅;
     ingame_time := 12;
     ingame_events := events;
     have_actors_changed := false;
     location := if (String.eqb game "Fallout4" || String.eqb game "Fallout4VR")%bool
                 then "the Commonwealth" else "Skyrim" |}.

Definition set_location (value : string) (c : context) : context :=
  {| prev_game_time := prev_game_time c;
     npcs_in_conversation := npcs_in_conversation c;
     client := client c;
     rememberer := rememberer c;
     language := language c;
     is_prompt_too_long := is_prompt_too_long c;
     custom_context_values := custom_context_values c;
     ingame_time := ingame_time c;
     ingame_events := ingame_events c;
     have_actors_changed := have_actors_changed c;
     location := value |}.

Definition set_ingame_time (value : Z) (c : context) : context :=
  {| prev_game_time := prev_game_time c;
     npcs_in_conversation := npcs_in_conversation c;
     client := client c;
     rememberer := rememberer c;
     language := language c;
     is_prompt_too_long := is_prompt_too_long c;
     custom_context_values := custom_context_values c;
     ingame_time := value;
     ingame_events := ingame_events c;
     have_actors_changed := have_actors_changed c;
     location := location c |}.

Definition set_prev_game_time (value : string * string) (c : context) : context :=
  {| prev_game_time := value;
     npcs_in_conversation := npcs_in_conversation c;
     client := client c;
     rememberer := rememberer c;
     language := language c;
     is_prompt_too_long := is_prompt_too_long c;
     custom_context_values := custom_context_values c;
     ingame_time := ingame_time c;
     ingame_events := ingame_events c;
     have_actors_changed := have_actors_changed c;
     location := location c |}.

Definition set_custom_context_values (value : gmap string pyval) (c : context)
  : context :=
  {| prev_game_time := prev_game_time c;
     npcs_in_conversation := npcs_in_conversation c;
     client := client c;
     rememberer := rememberer c;
     language := language c;
     is_prompt_too_long := is_prompt_too_long c;
     custom_context_values := value;
     ingame_time := ingame_time c;
     ingame_events := ingame_events c;
     have_actors_changed := have_actors_changed c;
     location := location c |}.

(** *** The store: a context object and the heap of list objects *)

Record world : Type := {
  ctx : context;
  heap : gmap ref (list string)
}.

(** The contents of the list object behind a reference; a reference the
    heap does not hold reads as the empty list. *)
Definition deref (h : gmap ref (list string)) (r : ref) : list string :=
  default [] (h !! r).

Definition on_ctx (f : context -> context) (w : world) : world :=
  {| ctx := f (ctx w); heap := heap w |}.

(** [a.extend(b)]: the elements [b] holds when the call starts are added
    to [a], also when [a] and [b] are the same object. *)
Definition list_extend (a b : ref) (w : world) : world :=
  {| ctx := ctx w; heap := <[a := (deref (heap w) a ++ deref (heap w) b)%list]> (heap w) |}.

(** [a.append(x)] *)
Definition list_append (a : ref) (x : string) (w : world) : world :=
  {| ctx := ctx w; heap := <[a := (deref (heap w) a ++ [x])%list]> (heap w) |}.

(** [a.clear()] *)
Definition list_clear (a : ref) (w : world) : world :=
  {| ctx := ctx w; heap := <[a := []]> (heap w) |}.

(** Statements run in a state monad that also records the store after
    every write, in program order. *)
Definition M (A : Type) : Type := world -> A * world * list world.

#[export] Instance M_ret : MRet M := fun A a w => (a, w, []).
#[export] Instance M_bind : MBind M := fun A B k m w =>
  let '(a, w1, t1) := m w in
  let '(b, w2, t2) := k a w1 in
  (b, w2, (t1 ++ t2)%list).

Definition read {A : Type} (f : world -> A) : M A := fun w => (f w, w, []).
Definition write (f : world -> world) : M unit := fun w => (tt, f w, [f w]).

Definition final {A : Type} (r : A * world * list world) : world := snd (fst r).
Definition trace {A : Type} (r : A * world * list world) : list world := snd r.

(** [get_context_ingame_events]: the internal list object itself, not a
    copy. *)
Definition get_context_ingame_events (c : context) : ref := ingame_events c.

Definition clear_context_ingame_events : M unit :=
  q ← read (fun w => ingame_events (ctx w));
  write (list_clear q).

(** [format_listing] *)
Definition format_listing (listing : list string) : string :=
  match length listing with
  | O => ""
  | 1%nat => List.nth 0 listing ""
  | _ => str_join ", " (removelast listing) ++ " and " ++ List.last listing ""
  end.

(** What [generate_system_message] does that is visible from outside, in
    program order: a call of [prompt.format] with the keyword arguments it
    is handed, a call of the injected predicate, a call
    [logging.log(level, f'Prompt sent to LLM ({tokens} tokens):
    {text.strip()}')]. *)
Inductive gsm_event : Type :=
| EvFormat (kwargs : list (string * string))
| EvTooLong (text : string) (fraction : Q) (answer : bool)
| EvLog (level : Z) (tokens : nat) (text : string).

Section Externals.

(** [src.utils.get_time_group] and
    [conversation_log.load_conversation_log] are imported from modules
    outside the sources at hand. *)
Variable get_time_group : Z -> string.
Variable load_conversation_log : Character.t -> list string.

(** [update_context]; [custom_ingame_events] is the caller's list
    object. *)
Definition update_context (new_location : string) (in_game_time : Z)
    (custom_ingame_events : ref) (new_custom_context_values : gmap string pyval)
  : M unit :=
  q ← read (fun w => ingame_events (ctx w));
  write (list_extend q custom_ingame_events);;
  write (on_ctx (set_custom_context_values new_custom_context_values));;
  stored ← read (fun w => location (ctx w));
  (if bool_decide (new_location ≠ stored) then
     write (on_ctx (set_location new_location));;
     write (list_append custom_ingame_events
              ("The location is now " ++ new_location ++ "."))
   else mret tt);;
  write (on_ctx (set_ingame_time in_game_time));;
  let current_time := (str_of_int in_game_time, get_time_group in_game_time) in
  prev ← read (fun w => prev_game_time (ctx w));
  if bool_decide (current_time ≠ prev) then
    write (on_ctx (set_prev_game_time current_time));;
    write (list_append custom_ingame_events
             ("The time is " ++ current_time.1 ++ " " ++ current_time.2 ++ "."))
  else mret tt.

(** [__get_trust] *)
Definition get_trust (npc : Character.t) : string :=
  let trust_level := Z.of_nat (length (load_conversation_log npc)) in
  let rank := Character.relationship_rank npc in
  if rank =? 0 then
    if trust_level <? 1 then "a stranger"
    else if trust_level <? 10 then "an acquaintance"
    else if trust_level <? 50 then "a friend"
    else if trust_level >=? 50 then "a close friend"
    else "a stranger"
  else if rank =? 4 then "a lover"
  else if rank >? 0 then "a friend"
  else if rank <? 0 then "an enemy"
  else "a stranger".

(** [get_characters_excluding_player] *)
Definition get_characters_excluding_player (c : context) : Characters.t :=
  fold_left
    (fun new_characters actor =>
       if negb (Character.is_player_character actor)
       then Characters.add_character new_characters actor
       else new_characters)
    (Characters.get_all_characters (npcs_in_conversation c))
    Characters.empty.

(** [__get_trusts] *)
Definition get_trusts (c : context) : string :=
  format_listing
    (map (fun npc => get_trust npc ++ " to " ++ Character.name npc)
       (Characters.get_all_characters (get_characters_excluding_player c))).

(** [__get_character_names_as_text] *)
Definition get_character_names_as_text (c : context) (should_include_player : bool)
  : string :=
  let keys :=
    if should_include_player
    then Characters.get_all_names (npcs_in_conversation c)
    else Characters.get_all_names (get_characters_excluding_player c) in
  format_listing keys.

(** [__get_bios_text] *)
Definition get_bios_text (c : context) : string :=
  str_join (String "010"%char "")
    (map (fun character =>
            if (Characters.len (npcs_in_conversation c) =? 1)%nat
            then Character.bio character
            else Character.name character ++ ": " ++ Character.bio character)
       (Characters.get_all_characters (get_characters_excluding_player c))).

(** The local variables [generate_system_message] computes before its
    loop.  [lv_name] is [None] when the assignment to [name] was
    skipped. *)
Record locals : Type := {
  lv_player_name : string;
  lv_name : option string;
  lv_names : string;
  lv_names_w_player : string;
  lv_bios : string;
  lv_trusts : string;
  lv_location : string;
  lv_time : Z;
  lv_time_group : string;
  lv_conversation_summaries : string
}.

Definition compute_locals (c : context) : locals :=
  let player := Characters.get_player_character (npcs_in_conversation c) in
  {| lv_player_name := match player with Some p => Character.name p | None => "" end;
     lv_name :=
       match Characters.last_added_character (npcs_in_conversation c) with
       | Some ch => Some (Character.name ch)
       | None => None
       end;
     lv_names := get_character_names_as_text c false;
     lv_names_w_player := get_character_names_as_text c true;
     lv_bios := get_bios_text c;
     lv_trusts := get_trusts c;
     lv_location := location c;
     lv_time := ingame_time c;
     lv_time_group := get_time_group (ingame_time c);
     lv_conversation_summaries := rememberer c (get_characters_excluding_player c) |}.

(** [removal_content] *)
Definition removal_content (lv : locals) : list (string * string) :=
  [(lv_bios lv, lv_conversation_summaries lv); (lv_bios lv, ""); ("", "")].

(** The keyword arguments of [prompt.format], evaluated in the order
    they are written: reading the local [name] raises when it was never
    bound, reading [self.__language['language']] raises when the key is
    absent. *)
Definition format_kwargs (c : context) (lv : locals) (content : string * string)
  : outcome (list (string * string)) :=
  bind (match lv_name lv with
        | Some n => Returns n
        | None => Raises UnboundLocalError
        end) (fun name =>
  bind (match language c !! "language" with
        | Some l => Returns l
        | None => Raises KeyError
        end) (fun lang =>
  Returns
    [("player_name", lv_player_name lv);
     ("name", name);
     ("names", lv_names lv);
     ("names_w_player", lv_names_w_player lv);
     ("bio", content.1);
     ("bios", content.1);
     ("trust", lv_trusts lv);
     ("location", lv_location lv);
     ("time", str_of_int (lv_time lv));
     ("time_group", lv_time_group lv);
     ("language", lang);
     ("conversation_summary", content.2);
     ("conversation_summaries", content.2)])).

(** One rendering of the template with the given optional content. *)
Definition render (c : context) (prompt : string) (content : string * string)
  : outcome string :=
  bind (format_kwargs c (compute_locals c) content) (str_format prompt).

(** The [for content in removal_content] loop.  The result is [inl r]
    when the loop body returned [r], [inr last] when the loop ran out,
    [last] being the value the variable [result] then holds. *)
Fixpoint render_loop (c : context) (prompt : string) (lv : locals)
    (contents : list (string * string)) (last : option string)
  : list gsm_event * outcome (string + option string) :=
  match contents with
  | [] => ([], Returns (inr last))
  | content :: rest =>
      match format_kwargs c lv content with
      | Returns kw =>
          match str_format prompt kw with
          | Returns result =>
              let too_long := is_prompt_too_long c result TOKEN_LIMIT_PERCENT in
              if negb too_long then
                ([EvFormat kw;
                  EvTooLong result TOKEN_LIMIT_PERCENT too_long;
                  EvLog 23 (client c result) result],
                 Returns (inl result))
              else
                let '(events, out) := render_loop c prompt lv rest (Some result) in
                (EvFormat kw
                   :: EvTooLong result TOKEN_LIMIT_PERCENT too_long
                   :: events, out)
          | Raises e => ([EvFormat kw], Raises e)
          | Unmodelled => ([EvFormat kw], Unmodelled)
          end
      | Raises e => ([], Raises e)
      | Unmodelled => ([], Unmodelled)
      end
  end.

(** [generate_system_message]: the events in program order and the
    outcome. *)
Definition generate_system_message_run (c : context) (prompt : string)
  : list gsm_event * outcome string :=
  let lv := compute_locals c in
  match render_loop c prompt lv (removal_content lv) None with
  | (events, Returns (inl result)) => (events, Returns result)
  | (events, Returns (inr (Some result))) =>
      ((events ++ [EvLog 23 (client c result) prompt])%list, Returns prompt)
  | (events, Returns (inr None)) => (events, Raises UnboundLocalError)
  | (events, Raises e) => (events, Raises e)
  | (events, Unmodelled) => (events, Unmodelled)
  end.

Definition generate_system_message (c : context) (prompt : string) : outcome string :=
  (generate_system_message_run c prompt).2.

End Externals.

End Context.

(** ** [src/games/gameable.py] *)

Module Gameable.

(** A cell of the character table: pandas' missing value, or a value
    given by the text [str] prints for it. *)
Inductive cell : Type :=
| NaN
| Text (s : string).

(** The dtype of a column: [object] when the column holds text, a numeric
    dtype ([int64], [float64], [bool]) when [pd.read_csv] read nothing but
    numbers in it. *)
Inductive dtype : Type :=
| ObjectDtype
| NumericDtype.

(** A row of the character table: the cell under each column label. *)
Definition row : Type := gmap string cell.

(** A [DataFrame]: its column labels, each with its dtype, and its rows
    in order.  The spec names the columns [base_id], [name], [race] and
    [voice_model]; a table may lack any of them and may have more. *)
Record frame : Type := {
  columns : gmap string dtype;
  rows : list row
}.

(** A [Series]: its dtype and its values in order. *)
Record series : Type := {
  series_dtype : dtype;
  values : list cell
}.

(** The cell of a row under a column label. *)
Definition cell_at (label : string) (r : row) : cell := default NaN (r !! label).

Definition base_id (r : row) : cell := cell_at "base_id" r.
Definition name (r : row) : cell := cell_at "name" r.
Definition race (r : row) : cell := cell_at "race" r.
Definition voice_model (r : row) : cell := cell_at "voice_model" r.

(** [pd.isna] / [pd.notna] *)
Definition isna (x : cell) : bool := match x with NaN => true | Text _ => false end.
Definition notna (x : cell) : bool := negb (isna x).

(** [str(x)], also what [astype(str)] yields. *)
Definition cell_str (x : cell) : string :=
  match x with NaN => "nan" | Text s => s end.

(** [df[label]]: the column under a label, [KeyError] when the table has
    no column of that label. *)
Definition getitem (df : frame) (label : string) : outcome series :=
  match columns df !! label with
  | Some d => Returns {| series_dtype := d; values := map (cell_at label) (rows df) |}
  | None => Raises KeyError
  end.

(** [series.apply(f).str] for a function [f] that returns text.  On a
    series without values [apply] calls nothing and returns an empty series
    of the same dtype, and the accessor [.str] raises [AttributeError]
    unless that dtype is [object]; on a series with values [apply] yields
    a series of text, which has the accessor. *)
Definition apply_str (f : cell -> string) (s : series) : outcome (list string) :=
  match values s, series_dtype s with
  | [], NumericDtype => Raises AttributeError
  | vs, _ => Returns (map f vs)
  end.

(** [series.astype(str).str]: [astype(str)] yields a series of dtype
    [object] whatever the dtype was. *)
Definition astype_str (s : series) : list string := map cell_str (values s).

(** [strings.lower() == text.lower()], element by element. *)
Definition lower_eq (strings : list string) (text : string) : list bool :=
  map (fun x => String.eqb (str_lower x) (str_lower text)) strings.

(** One entry of [DataFrame.to_dict('records')]: the cell of the row
    under each column of the table. *)
Definition to_dict (labels : gmap string dtype) (r : row) : gmap string cell :=
  map_imap (fun label _ => Some (cell_at label r)) labels.

(** [df.to_dict('records')] *)
Definition to_dict_records (df : frame) : list (gmap string cell) :=
  map (to_dict (columns df)) (rows df).

(** The fields of a [gameable] object; [character_df] is [None] when the
    attribute was never assigned. *)
Record gameable : Type := {
  character_df : option frame;
  conversation_folder_path : string
}.

(** What [__init__] does that is visible from outside. *)
Inductive init_event : Type :=
| LoggingError (message : string)
| Input (prompt : string)
| SetGamePath (path : string).

(** The rows a boolean mask selects. *)
Fixpoint loc_mask (df : list row) (mask : list bool) : list row :=
  match df, mask with
  | r :: df', b :: mask' => if b then r :: loc_mask df' mask' else loc_mask df' mask'
  | _, _ => []
  end.

(** [df.loc[mask]]: the selected rows under the same columns. *)
Definition loc (df : frame) (mask : list bool) : frame :=
  {| columns := columns df; rows := loc_mask (rows df) mask |}.

(** [a & b] on boolean series. *)
Fixpoint mask_and (a b : list bool) : list bool :=
  match a, b with
  | x :: a', y :: b' => (x && y) :: mask_and a' b'
  | _, _ => []
  end.

(** [mask.any()] *)
Definition mask_any (mask : list bool) : bool := existsb id mask.

(** [try: m except IndexError: handler] *)
Definition except_IndexError {A : Type} (m handler : outcome A) : outcome A :=
  match m with
  | Raises IndexError => handler
  | _ => m
  end.

(** The inner function [remove_leading_zeros]; its argument is a cell or
    a string. *)
Definition remove_leading_zeros (hex_str : cell) : string :=
  if isna hex_str then "" else str_lstrip "0" (cell_str hex_str).

(** The key the partial-id comparison computes for a cell of [base_id]. *)
Definition partial_id_key (length : nat) (x : cell) : string :=
  if (notna x && (length <=? String.length (cell_str x))%nat)%bool
  then remove_leading_zeros (Text (str_suffix length (cell_str x)))
  else remove_leading_zeros (Text (cell_str x)).

(** The body of the loop over the lengths: the mask of one length. *)
Definition partial_id_mask (df : frame) (character_id : string) (length : nat)
  : outcome (list bool) :=
  let partial_id_search := str_lstrip "0" (str_suffix length character_id) in
  bind (getitem df "base_id") (fun base_ids =>
  bind (apply_str (partial_id_key length) base_ids) (fun keys =>
  Returns (lower_eq keys partial_id_search))).

(** The loop [for length in [5, 4, 3]] with its [break]. *)
Fixpoint partial_id_loop (df : frame) (character_id : string)
    (lengths : list nat) (partial_id_match : list bool) : outcome (list bool) :=
  match lengths with
  | [] => Returns partial_id_match
  | length :: rest =>
      if mask_any partial_id_match then Returns partial_id_match
      else bind (partial_id_mask df character_id length)
             (partial_id_loop df character_id rest)
  end.

(** [df.loc[mask].to_dict('records')[0]] *)
Definition first_record (df : frame) (mask : list bool) : outcome (gmap string cell) :=
  list_index (to_dict_records (loc df mask)) 0.

(** [race.split('<')[1].split('Race ')[0]] *)
Definition extract_race (race_descriptor : string) : outcome string :=
  bind (list_index (str_split "<" race_descriptor) 1) (fun after_bracket =>
  list_index (str_split "Race " after_bracket) 0).

Section Game.

(** The reader behind [__get_character_df] ([utils.get_file_encoding]
    and [pd.read_csv]), [sys.argv], the folder
    [Path(utils.resolve_path()).parent.parent.parent.parent] and the
    abstract method [load_unnamed_npc] of the subclass. *)
Variable read_csv : string -> outcome frame.
Variable argv : list string.
Variable integrated_root : string.
Variable load_unnamed_npc : string -> string -> Z -> string -> gmap string cell.

(** [__get_character_df] *)
Definition get_character_df (file_name : string) : outcome frame :=
  bind (read_csv file_name) (fun character_df =>
  bind (getitem character_df "voice_model") (fun voice_models =>
  Returns (loc character_df (map notna (values voice_models))))).

(** [__init__]: the events in program order and the outcome.  The bare
    [except:] catches every exception of the loader; after its two
    statements control falls through to the rest of the constructor. *)
Definition init (path_to_character_df mantella_game_folder_path : string)
  : list init_event * outcome gameable :=
  let folder :=
    if existsb (String.eqb "--integrated") argv
    then integrated_root ++ "/MantellaData/conversations"
    else "data/" ++ mantella_game_folder_path ++ "/conversations" in
  match get_character_df path_to_character_df with
  | Returns df =>
      ([SetGamePath folder],
       Returns {| character_df := Some df; conversation_folder_path := folder |})
  | Raises _ =>
      ([LoggingError ("Unable to read / open " ++ path_to_character_df
          ++ ". If you have recently edited this file, please try reverting to a previous version. This error is normally due to using special characters, or saving the CSV in an incompatible format.");
        Input "Press Enter to exit.";
        SetGamePath folder],
       Returns {| character_df := None; conversation_folder_path := folder |})
  | Unmodelled => ([], Unmodelled)
  end.

(** The property [character_df]. *)
Definition get_df (self : gameable) : outcome frame :=
  match character_df self with
  | Some df => Returns df
  | None => Raises AttributeError
  end.

(** [find_character_info].  The property [character_df] is read anew at
    every use; the object does not change in between, so it is read once
    here. *)
Definition find_character_info (self : gameable) (character_id character_name : string)
    (race_descriptor : string) (gender : Z) (ingame_voice_model : string)
  : outcome (gmap string cell * bool) :=
  let full_id_len := 6%nat in
  let full_id_search := str_lstrip "0" (str_suffix full_id_len character_id) in
  bind (get_df self) (fun df =>
  bind (getitem df "base_id") (fun base_ids =>
  bind (apply_str remove_leading_zeros base_ids) (fun ids =>
  let id_match := lower_eq ids full_id_search in
  bind (getitem df "name") (fun names =>
  let name_match := lower_eq (astype_str names) character_name in
  bind (extract_race race_descriptor) (fun character_race =>
  bind (getitem df "race") (fun races =>
  let race_match := lower_eq (astype_str races) character_race in
  bind (partial_id_loop df character_id [5; 4; 3]%nat (map (fun _ => false) (rows df)))
    (fun partial_id_match =>
  except_IndexError
    (rmap (fun info => (info, false))
       (first_record df (mask_and (mask_and name_match id_match) race_match)))
  (except_IndexError
    (rmap (fun info => (info, false))
       (first_record df (mask_and name_match id_match)))
  (except_IndexError
    (rmap (fun info => (info, false))
       (first_record df (mask_and (mask_and name_match partial_id_match) race_match)))
  (except_IndexError
    (rmap (fun info => (info, false))
       (first_record df (mask_and name_match partial_id_match)))
  (except_IndexError
    (rmap (fun info => (info, false))
       (first_record df (mask_and name_match race_match)))
  (except_IndexError
    (rmap (fun info => (info, false))
       (first_record df name_match))
  (except_IndexError
    (rmap (fun info => (info, false))
       (first_record df id_match))
    (Returns
       (load_unnamed_npc character_name character_race gender ingame_voice_model,
        true))))))))))))))).

End Game.

End Gameable.

(** ** Tables the resolver can work on *)

Module Table.
Import Gameable.

Definition has_column (df : frame) (label : string) : bool :=
  match columns df !! label with Some _ => true | None => false end.

(** The three columns [find_character_info] reads. *)
Definition has_columns (df : frame) : bool :=
  has_column df "base_id" && has_column df "name" && has_column df "race".

(** The [base_id] column has the accessor [.str] after [apply]: the table
    has a row, or the column is not of a numeric dtype. *)
Definition id_column_is_text (df : frame) : bool :=
  match rows df, columns df !! "base_id" with
  | [], Some NumericDtype => false
  | _, _ => true
  end.

Definition resolvable (df : frame) : bool := has_columns df && id_column_is_text df.

End Table.

(** ** Reading the event traces *)

Module Trace.
Import Context.

(** The keyword arguments [prompt.format] was called with, call by
    call. *)
Definition format_calls (events : list gsm_event) : list (list (string * string)) :=
  omap (fun ev => match ev with EvFormat kw => Some kw | _ => None end) events.

(** The keywords that carry the optional content, and what a call hands
    over under them. *)
Definition optional_keys : list string :=
  ["bio"; "bios"; "conversation_summary"; "conversation_summaries"].

Definition optional_content (kw : list (string * string)) : list (option string) :=
  map (fun key => kw_lookup key kw) optional_keys.

(** The order of reduction in the words of the specification: bios and
    summaries, then the bios alone, then neither. *)
Definition reduction_order (bios summaries : string) : list (list (option string)) :=
  [[Some bios; Some bios; Some summaries; Some summaries];
   [Some bios; Some bios; Some ""; Some ""];
   [Some ""; Some ""; Some ""; Some ""]].

Definition is_log (ev : gsm_event) : bool :=
  match ev with EvLog _ _ _ => true | _ => false end.

Definition strip_logs (events : list gsm_event) : list gsm_event :=
  List.filter (fun ev => negb (is_log ev)) events.

(** One rendering attempt as the specification describes it: the template
    is filled with the keyword arguments and, when that yields a text, the
    text is tested with the injected predicate at the fixed fraction. *)
Definition attempt_events (c : context) (prompt : string) (kw : list (string * string))
  : list gsm_event :=
  EvFormat kw ::
  match str_format prompt kw with
  | Returns r => [EvTooLong r TOKEN_LIMIT_PERCENT (is_prompt_too_long c r TOKEN_LIMIT_PERCENT)]
  | _ => []
  end.

(** The three optional contents of a state, in the order of
    [removal_content]: full, summaries dropped, bios and summaries
    dropped. *)
Definition full_content (get_time_group : Z -> string)
    (load_conversation_log : Character.t -> list string) (c : context)
  : string * string :=
  let lv := compute_locals get_time_group load_conversation_log c in
  (lv_bios lv, lv_conversation_summaries lv).

Definition bios_only_content (get_time_group : Z -> string)
    (load_conversation_log : Character.t -> list string) (c : context)
  : string * string :=
  (lv_bios (compute_locals get_time_group load_conversation_log c), "").

Definition bare_content : string * string := ("", "").

(** The two event texts of [update_context]. *)
Definition location_event (new_location : string) : string :=
  "The location is now " ++ new_location ++ ".".

Definition time_event (current_time : string * string) : string :=
  "The time is " ++ current_time.1 ++ " " ++ current_time.2 ++ ".".

(** The events a call of [update_context] owes on a context: a location
    event when the location differs from the stored one, a time event
    when the pair of hour and time group differs from the recorded one. *)
Definition due_events (get_time_group : Z -> string) (c : context)
    (new_location : string) (in_game_time : Z) : list string :=
  ((if bool_decide (new_location ≠ location c)
    then [location_event new_location] else [])
   ++ (if bool_decide ((str_of_int in_game_time, get_time_group in_game_time)
                         ≠ prev_game_time c)
       then [time_event (str_of_int in_game_time, get_time_group in_game_time)]
       else []))%list.

(** Appending several elements to a list object, one after the other. *)
Definition list_appends (a : ref) (xs : list string) (w : world) : world :=
  foldl (fun w' x => list_append a x w') w xs.

(** The names [generate_system_message] passes to [prompt.format]. *)
Definition placeholders : list string :=
  ["player_name"; "name"; "names"; "names_w_player"; "bio"; "bios"; "trust";
   "location"; "time"; "time_group"; "language"; "conversation_summary";
   "conversation_summaries"].

(** The templates of the fragment of [str.format] that this development
    gives a meaning to and that name no other keyword than those of
    [placeholders]: literal text without braces, the doubled braces [{{]
    and [}}], and fields of the plain form [{keyword}], with no
    conversion, format specification, attribute or index inside a
    field. *)
Inductive plain_template : string -> Prop :=
| plain_end : plain_template ""
| plain_char c s :
    c <> "{"%char -> c <> "}"%char -> plain_template s -> plain_template (String c s)
| plain_open s : plain_template s -> plain_template (String "{" (String "{" s))
| plain_close s : plain_template s -> plain_template (String "}" (String "}" s))
| plain_field key s :
    key ∈ placeholders -> plain_template s ->
    plain_template (String "{" (key ++ String "}" s)).

(** The same, as a test: filling the template with the empty text under
    each keyword of [placeholders] yields a text.  The test fails for a
    template that [str.format] rejects and for one that leaves the
    fragment, such as [{time:>4}] or [{name!r}]. *)
Definition template_ok (prompt : string) : bool :=
  returns (str_format prompt (map (fun k => (k, "")) placeholders)).

End Trace.

(** ** The cascade of the resolver, in the words of the specification *)

Module Cascade.
Import Gameable.

(** All comparisons ignore case; ids are compared with leading zeros
    stripped. *)
Definition name_ok (character_name : string) (r : row) : bool :=
  String.eqb (str_lower (cell_str (name r))) (str_lower character_name).

Definition race_ok (character_race : string) (r : row) : bool :=
  String.eqb (str_lower (cell_str (race r))) (str_lower character_race).

(** The full id: the trailing six characters. *)
Definition id_ok (character_id : string) (r : row) : bool :=
  String.eqb (str_lower (remove_leading_zeros (base_id r)))
    (str_lower (str_lstrip "0" (str_suffix 6 character_id))).

(** A partial id: the trailing [length] characters on both sides. *)
Definition partial_ok (length : nat) (character_id : string) (r : row) : bool :=
  String.eqb (str_lower (partial_id_key length (base_id r)))
    (str_lower (str_lstrip "0" (str_suffix length character_id))).

(** Trailing 5, then 4, then 3 characters: the first length at which some
    row of the table matches, 3 when none does. *)
Definition partial_length (df : list row) (character_id : string) : nat :=
  if existsb (partial_ok 5 character_id) df then 5%nat
  else if existsb (partial_ok 4 character_id) df then 4%nat
  else 3%nat.

Definition both (p q : row -> bool) (r : row) : bool := p r && q r.

(** The seven tiers as the code has them: the last one compares the full
    id only. *)
Definition tiers (df : list row) (character_id character_name character_race : string)
  : list (row -> bool) :=
  let by_name := name_ok character_name in
  let by_race := race_ok character_race in
  let by_id := id_ok character_id in
  let by_partial_id := partial_ok (partial_length df character_id) character_id in
  [both (both by_name by_id) by_race;
   both by_name by_id;
   both (both by_name by_partial_id) by_race;
   both by_name by_partial_id;
   both by_name by_race;
   by_name;
   by_id].

(** The seven tiers as the claim words them: the last one accepts the
    full id or the partial id of the first successful length. *)
Definition claimed_tiers (df : list row)
    (character_id character_name character_race : string) : list (row -> bool) :=
  let by_name := name_ok character_name in
  let by_race := race_ok character_race in
  let by_id := id_ok character_id in
  let by_partial_id := partial_ok (partial_length df character_id) character_id in
  [both (both by_name by_id) by_race;
   both by_name by_id;
   both (both by_name by_partial_id) by_race;
   both by_name by_partial_id;
   both by_name by_race;
   by_name;
   fun r => by_id r || by_partial_id r].

(** First non-empty match wins: the first row of the first tier that
    matches any row, the generic record when no tier does. *)
Fixpoint cascade (labels : gmap string dtype) (tiers : list (row -> bool))
    (df : list row) (generic : gmap string cell) : gmap string cell * bool :=
  match tiers with
  | [] => (generic, true)
  | tier :: rest =>
      match List.find tier df with
      | Some r => (to_dict labels r, false)
      | None => cascade labels rest df generic
      end
  end.

End Cascade.

(** ** Sample data *)

Module Sample.
Import Context.

Definition get_time_group (t : Z) : string :=
  if t <? 12 then "in the morning" else "in the afternoon".

Definition no_log (_ : Character.t) : list string := [].

Definition talks (n : nat) (_ : Character.t) : list string := repeat "entry" n.

Definition with_rank (rank : Z) : Character.t :=
  {| Character.name := "Lydia"; Character.bio := "Housecarl.";
     Character.is_player_character := false; Character.is_in_combat := false;
     Character.is_enemy := false; Character.relationship_rank := rank |}.

Definition lydia : Character.t := with_rank 0.

(** A context whose prompt budget is [limit] characters. *)
Definition context_of (roster : Characters.t) (limit : nat) : context :=
  {| prev_game_time := ("", "");
     npcs_in_conversation := roster;
     client := String.length;
     rememberer := fun _ => "SUMMARY";
     language := {["language" := "English"]};
     is_prompt_too_long := fun text _ => (limit <? String.length text)%nat;
     custom_context_values := ∅;
     ingame_time := 12;
     ingame_events := 1%positive;
     have_actors_changed := false;
     location := "Skyrim" |}.

(** A context as its constructor leaves it: nobody in the roster yet. *)
Definition empty_context : context :=
  init "Skyrim" String.length (fun _ => "SUMMARY") {["language" := "English"]}
    (fun text _ => (20 <? String.length text)%nat) 1%positive.

Definition lydia_context (limit : nat) : context :=
  context_of (Characters.add_character Characters.empty lydia) limit.

Definition template : string := "{name}: {bios}|{conversation_summaries}".

(** A store where the context's queue is list 1 and the caller holds
    list 2. *)
Definition world0 : world :=
  {| ctx := lydia_context 20;
     heap := {[1%positive := ["Lydia is now in combat!"]; 2%positive := ["A dragon roars."]]} |}.

End Sample.

Module SampleGame.
Import Gameable.

(** The columns of the sample tables, all read as text. *)
Definition labels : gmap string dtype :=
  {["base_id" := ObjectDtype; "name" := ObjectDtype; "race" := ObjectDtype;
    "voice_model" := ObjectDtype; "bio" := ObjectDtype]}.

Definition lydia_row : row :=
  {["base_id" := Text "00012AB"; "name" := Text "Lydia"; "race" := Text "Nord";
    "voice_model" := Text "FemaleEvenToned"; "bio" := Text "Housecarl of Whiterun."]}.

Definition mute_row : row :=
  {["base_id" := Text "0001A66"; "name" := Text "Mute"; "race" := Text "Nord";
    "voice_model" := NaN; "bio" := Text "Says nothing."]}.

(** A namesake of another race, and a guard. *)
Definition imperial_lydia_row : row :=
  {["base_id" := Text "00A2C8E"; "name" := Text "Lydia"; "race" := Text "Imperial";
    "voice_model" := Text "FemaleCommoner"; "bio" := Text "A merchant of Solitude."]}.

Definition guard_row : row :=
  {["base_id" := Text "0009F31"; "name" := Text "Whiterun Guard"; "race" := Text "Nord";
    "voice_model" := Text "MaleGuard"; "bio" := Text "Guards the gate."]}.

Definition table (records : list row) : frame :=
  {| columns := labels; rows := records |}.

(** A table in which nobody has a voice model and every id is a number:
    pandas reads its [base_id] column with a numeric dtype. *)
Definition numbered_row : row :=
  {["base_id" := Text "12345"; "name" := Text "Draugr"; "race" := Text "Draugr";
    "voice_model" := NaN; "bio" := NaN]}.

Definition numbered_table : frame :=
  {| columns := <["base_id" := NumericDtype]> labels; rows := [numbered_row] |}.

(** A file system with two readable tables. *)
Definition read_csv (file_name : string) : outcome frame :=
  if String.eqb file_name "data/skyrim_characters.csv"
  then Returns (table [lydia_row; mute_row])
  else if String.eqb file_name "data/numbered.csv" then Returns numbered_table
  else Raises OSError.

Definition load_unnamed_npc (character_name character_race : string) (gender : Z)
    (ingame_voice_model : string) : gmap string cell :=
  {["name" := Text character_name; "bio" := Text ("You are a " ++ character_race ++ ".");
    "voice_model" := Text ingame_voice_model]}.

Definition game : gameable :=
  {| character_df := Some (table [lydia_row]);
     conversation_folder_path := "data/Skyrim/conversations" |}.

(** A game whose table has the two namesakes and the guard. *)
Definition town : gameable :=
  {| character_df := Some (table [guard_row; lydia_row; imperial_lydia_row]);
     conversation_folder_path := "data/Skyrim/conversations" |}.

End SampleGame.

(** ** More Python text primitives *)

Module PyText.

(** [c.isspace()] on an ASCII character: tab, line feed, vertical tab,
    form feed, carriage return, the four separators 28 to 31, space. *)
Definition is_space (c : ascii) : bool :=
  let n := nat_of_ascii c in
  (((9 <=? n)%nat && (n <=? 13)%nat) || ((28 <=? n)%nat && (n <=? 32)%nat))%bool.

(** [s.lstrip()] *)
Fixpoint str_lstrip_ws (s : string) : string :=
  match s with
  | EmptyString => EmptyString
  | String c s' => if is_space c then str_lstrip_ws s' else s
  end.

(** [s.rstrip()] *)
Fixpoint str_rstrip_ws (s : string) : string :=
  match s with
  | EmptyString => EmptyString
  | String c s' =>
      match str_rstrip_ws s' with
      | EmptyString => if is_space c then EmptyString else String c EmptyString
      | t => String c t
      end
  end.

(** [s.strip()] *)
Definition str_strip (s : string) : string := str_rstrip_ws (str_lstrip_ws s).

(** [s.split()] without a separator: the maximal runs of characters that
    are not whitespace; [acc] holds the current run in reverse. *)
Fixpoint split_ws_go (acc : list ascii) (s : string) : list string :=
  match s with
  | EmptyString =>
      match acc with
      | [] => []
      | _ => [str_rev_append acc EmptyString]
      end
  | String c s' =>
      if is_space c then
        match acc with
        | [] => split_ws_go [] s'
        | _ => str_rev_append acc EmptyString :: split_ws_go [] s'
        end
      else split_ws_go (c :: acc) s'
  end.

Definition str_split_ws (s : string) : list string := split_ws_go [] s.

(** [s.replace(old, new)] for a non-empty [old]: left to right, occurrences
    that do not overlap; [skip] counts the characters of a match still to
    be passed over. *)
Fixpoint replace_go (old new : string) (skip : nat) (s : string) : string :=
  match s with
  | EmptyString => EmptyString
  | String c s' =>
      match skip with
      | S k => replace_go old new k s'
      | O =>
          if String.prefix old s
          then new ++ replace_go old new (String.length old - 1) s'
          else String c (replace_go old new O s')
      end
  end.

(** [s.replace('', new)]: [new] before every character and at the end. *)
Fixpoint intersperse (new s : string) : string :=
  match s with
  | EmptyString => new
  | String c s' => new ++ String c (intersperse new s')
  end.

(** [s.replace(old, new)] *)
Definition str_replace (old new s : string) : string :=
  if String.eqb old "" then intersperse new s else replace_go old new O s.

(** A line feed or a carriage return. *)
Definition is_line_break (c : ascii) : bool :=
  (Ascii.eqb c "010" || Ascii.eqb c "013")%bool.

(** [f.readline()] on a file opened in text mode with the default
    [newline=None], given the characters of the file: through the first
    line ending.  A line feed, a carriage return, and a carriage return
    followed by a line feed each end a line, and each is handed over as
    one line feed. *)
Fixpoint readline (text : string) : string :=
  match text with
  | EmptyString => EmptyString
  | String c rest =>
      if is_line_break c then String "010" EmptyString else String c (readline rest)
  end.

(** Whether a text holds a line break; whether it holds none before its
    last character. *)
Fixpoint has_line_break (s : string) : bool :=
  match s with
  | EmptyString => false
  | String c s' => is_line_break c || has_line_break s'
  end.

Fixpoint breaks_only_at_the_end (s : string) : bool :=
  match s with
  | EmptyString => true
  | String c EmptyString => true
  | String c s' => negb (is_line_break c) && breaks_only_at_the_end s'
  end.

(** Whether a text holds a whitespace character, begins with one, ends
    with one. *)
Fixpoint has_space (s : string) : bool :=
  match s with
  | EmptyString => false
  | String c s' => is_space c || has_space s'
  end.

Definition starts_with_space (s : string) : bool :=
  match s with
  | EmptyString => false
  | String c _ => is_space c
  end.

Fixpoint ends_with_space (s : string) : bool :=
  match s with
  | EmptyString => false
  | String c EmptyString => is_space c
  | String _ s' => ends_with_space s'
  end.

(** A string counts as true in a condition when it is not empty. *)
Definition truthy (s : string) : bool := negb (String.eqb s "").

End PyText.

(** ** [src/conversation/context.py], the remaining operations on the roster
    and the events *)

Module ContextOps.
Import Context.

(** [get_custom_context_value]; an absent key reads as [None]. *)
Definition get_custom_context_value (c : context) (key : string) : pyval :=
  match custom_context_values c !! key with
  | Some v => v
  | None => PyNone
  end.

Definition set_npcs_in_conversation (value : Characters.t) (c : context) : context :=
  {| prev_game_time := prev_game_time c;
     npcs_in_conversation := value;
     client := client c;
     rememberer := rememberer c;
     language := language c;
     is_prompt_too_long := is_prompt_too_long c;
     custom_context_values := custom_context_values c;
     ingame_time := ingame_time c;
     ingame_events := ingame_events c;
     have_actors_changed := have_actors_changed c;
     location := location c |}.

Definition set_have_actors_changed (value : bool) (c : context) : context :=
  {| prev_game_time := prev_game_time c;
     npcs_in_conversation := npcs_in_conversation c;
     client := client c;
     rememberer := rememberer c;
     language := language c;
     is_prompt_too_long := is_prompt_too_long c;
     custom_context_values := custom_context_values c;
     ingame_time := ingame_time c;
     ingame_events := ingame_events c;
     have_actors_changed := value;
     location := location c |}.

(** Modelled from the spec: [Characters.get_character_by_name], the lookup
    in the name-keyed collection; [None] when the name is absent. *)
Definition get_character_by_name (cs : Characters.t) (name : string)
  : option Character.t :=
  snd <$> List.find (fun entry => String.eqb entry.1 name) (Characters.active_characters cs).

Section Roster.

(** [Characters.remove_character], [conversation_log.load_conversation_log]
    and the pronouns of a character belong to classes outside the sources
    at hand. *)
Variable roster_remove : Characters.t -> Character.t -> Characters.t.
Variable load_conversation_log : Character.t -> list string.
Variable personal_pronoun_subject : Character.t -> string.
Variable personal_pronoun_object : Character.t -> string.

(** [__remove_character] *)
Definition private_remove_character (npc : Character.t) : M unit :=
  write (on_ctx (fun c =>
    set_npcs_in_conversation (roster_remove (npcs_in_conversation c) npc) c));;
  q ← read (fun w => ingame_events (ctx w));
  write (list_append q (Character.name npc ++ " has left the conversation"));;
  write (on_ctx (set_have_actors_changed true)).

(** [remove_character] *)
Definition remove_character (npc : Character.t) : M unit :=
  read (fun w => Characters.contains_character (npcs_in_conversation (ctx w)) npc)
  ≫= fun present : bool =>
  if present then private_remove_character npc else mret tt.

(** [__update_ingame_events_on_npc_change].  What the roster does when the
    name is absent is not in the sources: that case is [Unmodelled]. *)
Definition update_ingame_events_on_npc_change (npc : Character.t) : M (outcome unit) :=
  roster ← read (fun w => npcs_in_conversation (ctx w));
  q ← read (fun w => ingame_events (ctx w));
  match get_character_by_name roster (Character.name npc) with
  | None => mret Unmodelled
  | Some current_stats =>
      (if negb (Bool.eqb (Character.is_in_combat current_stats) (Character.is_in_combat npc))
       then
         if Character.is_in_combat npc
         then write (list_append q (Character.name npc ++ " is now in combat!"))
         else write (list_append q (Character.name npc ++ " is no longer in combat!"))
       else mret tt);;
      (if negb (Character.is_player_character npc) then
         let player_name :=
           match Characters.get_player_character roster with
           | Some player => Character.name player
           | None => "the player"
           end in
         (if negb (Bool.eqb (Character.is_enemy current_stats) (Character.is_enemy npc))
          then
            if Character.is_enemy npc
            then write (list_append q
                   (Character.name npc ++ " is attacking " ++ player_name
                    ++ ". This is either because " ++ personal_pronoun_subject npc
                    ++ " is an enemy or " ++ player_name ++ " has attacked "
                    ++ personal_pronoun_object npc ++ " first."))
            else write (list_append q
                   (Character.name npc ++ " is no longer attacking " ++ player_name ++ "."))
          else mret tt);;
         (if negb (Character.relationship_rank current_stats
                     =? Character.relationship_rank npc)
          then write (list_append q
                 (player_name ++ " is now " ++ get_trust load_conversation_log npc
                  ++ " to " ++ Character.name npc ++ "."))
          else mret tt)
       else mret tt);;
      mret (Returns tt)
  end.

End Roster.

End ContextOps.

(** ** [src/stt.py] *)

Module Stt.
Import PyText.

(** The fields of a [Transcriber] that [__get_api_key] uses. *)
Record transcriber : Type := {
  secret_key_file : string;
  api_key : option string
}.

(** How a call ends: with a value, with an exception, or with
    [sys.exit(code)]. *)
Inductive ending (A : Type) : Type :=
| Returned (a : A)
| Raised (e : exn)
| Exited (code : Z).
Arguments Returned {A} a.
Arguments Raised {A} e.
Arguments Exited {A} code.

Inductive io_event : Type :=
| LoggingError (message : string)
| Input (prompt : string).

(** The diagnostic of [__get_api_key]. *)
Definition no_key_message : string :=
  "No secret key found in MantellaSoftware/GPT_SECRET_KEY.txt. Please create a secret key and paste it in GPT_SECRET_KEY.txt
If you are using OpenRouter (default), you can create a secret key in Account -> Keys once you have created an account: https://openrouter.ai/
If using OpenAI, see here on how to create a secret key: https://help.openai.com/en/articles/4936850-where-do-i-find-my-openai-api-key
If you are running a model locally, please ensure the service (Kobold / Text generation web UI) is running".

(** [not self.__api_key] *)
Definition no_key (self : transcriber) : bool :=
  match api_key self with
  | None => true
  | Some k => negb (truthy k)
  end.

Section Files.

(** [open(name, 'r')] followed by reading: the characters of the file
    on the left, as they are before line endings are translated, or the
    exception that is raised on the right. *)
Variable read_text : string -> string + exn.

(** [__get_api_key]: the events, the object afterwards, and how the call
    ends. *)
Definition get_api_key (self : transcriber)
  : list io_event * transcriber * ending string :=
  if no_key self then
    match read_text (secret_key_file self) with
    | inl text =>
        let key := str_strip (readline text) in
        let self' := {| secret_key_file := secret_key_file self; api_key := Some key |} in
        if negb (truthy key)
        then ([LoggingError no_key_message; Input "Press Enter to exit."], self', Exited 0)
        else ([], self', Returned key)
    | inr e => ([], self, Raised e)
    end
  else ([], self, Returned (default "" (api_key self))).

End Files.

(** [activation_name_exists] *)
Definition activation_name_exists (transcript_cleaned activation_name : string) : bool :=
  if truthy transcript_cleaned then
    let transcript_words := str_split_ws transcript_cleaned in
    if negb (bool_decide
               ((list_to_set transcript_words : gset string) ∩ list_to_set [activation_name]
                = ∅))
    then true
    else if String.eqb transcript_cleaned activation_name then true
    else false
  else false.

(** [_remove_activation_word] *)
Definition remove_activation_word (transcript activation_name : string) : string :=
  str_replace activation_name "" transcript.

End Stt.

(** ** More sample data *)

Module Sample2.

Definition player : Character.t :=
  {| Character.name := "Dovahkiin"; Character.bio := "";
     Character.is_player_character := true; Character.is_in_combat := false;
     Character.is_enemy := false; Character.relationship_rank := 0 |}.

(** A stand-in for [Characters.remove_character]: the entry of that name
    is taken out. *)
Definition roster_remove (cs : Characters.t) (c : Character.t) : Characters.t :=
  {| Characters.active_characters :=
       List.filter (fun entry => negb (String.eqb entry.1 (Character.name c)))
         (Characters.active_characters cs);
     Characters.last_added_character := Characters.last_added_character cs |}.

(** A row whose name and id cells are empty in the file. *)
Definition blank_row : Gameable.row :=
  {["base_id" := Gameable.NaN; "name" := Gameable.NaN; "race" := Gameable.Text "Nord";
    "voice_model" := Gameable.Text "MaleNord"; "bio" := Gameable.NaN]}.

Definition blank_game : Gameable.gameable :=
  {| Gameable.character_df := Some (SampleGame.table [blank_row]);
     Gameable.conversation_folder_path := "data/Skyrim/conversations" |}.

(** A file system with a key file and a blank file. *)
Definition read_text (file_name : string) : string + exn :=
  if String.eqb file_name "GPT_SECRET_KEY.txt"
  then inl ("  sk-123 " ++ String "013" "second line")
  else if String.eqb file_name "blank.txt" then inl ("   " ++ String "010" "sk-123")
  else inr OSError.

Definition fresh_transcriber : Stt.transcriber :=
  {| Stt.secret_key_file := "GPT_SECRET_KEY.txt"; Stt.api_key := None |}.

(** A second character who is not the player. *)
Definition farkas : Character.t :=
  {| Character.name := "Farkas"; Character.bio := "Companion.";
     Character.is_player_character := false; Character.is_in_combat := false;
     Character.is_enemy := false; Character.relationship_rank := 0 |}.

Definition she (_ : Character.t) : string := "she".
Definition her (_ : Character.t) : string := "her".

End Sample2.

(** ** Reading a result of the resolver *)

Module Resolved.

(** The table row a result names, [None] for the generic record. *)
Definition row_of (found : gmap string Gameable.cell * bool)
  : option (gmap string Gameable.cell) :=
  if found.2 then None else Some found.1.

End Resolved.

(** * Properties *)

(** ** Python primitives on sample inputs *)

Example str_suffix_ex : str_suffix 6 "0x00012AB" = "0012AB" /\ str_suffix 6 "12AB" = "12AB".
Proof. split; reflexivity. Qed.

Example str_split_ex :
  str_split "<" "<NordRace (00013746)>" = [""; "NordRace (00013746)>"]
  /\ str_split "Race " "NordRace (00013746)>" = ["Nord"; "(00013746)>"]
  /\ str_split "<" "Nord" = ["Nord"]
  /\ str_split "ab" "xabyab" = ["x"; "y"; ""].
Proof. repeat split; reflexivity. Qed.

Example str_format_ex :
  str_format "Hi {name}, {{ok}} at {time}." [("name", "Lydia"); ("time", "12")]
    = Returns "Hi Lydia, {ok} at 12."
  /\ str_format "{" [] = Raises ValueError
  /\ str_format "a } b" [] = Raises ValueError
  /\ str_format "{foo}" [("name", "x")] = Raises KeyError
  /\ str_format "{}" [("name", "x")] = Raises IndexError.
Proof. repeat split; reflexivity. Qed.

(** ** Trust tiers *)

Section TrustTiers.
Variable load_conversation_log : Character.t -> list string.

Abbreviation get_trust := (Context.get_trust load_conversation_log).
Abbreviation rank npc := (Character.relationship_rank npc).
Abbreviation count npc := (Z.of_nat (length (load_conversation_log npc))).

(** Decide the comparisons of the tier ladder, one after the other. *)
Ltac cutoffs :=
  repeat match goal with
    | |- context [Z.eqb ?a ?b] => destruct (Z.eqb_spec a b); try lia
    | |- context [Z.ltb ?a ?b] => destruct (Z.ltb_spec a b); try lia
    | |- context [Z.gtb ?a ?b] => destruct (Z.gtb_spec a b); try lia
    | |- context [Z.geb ?a ?b] => destruct (Z.geb_spec a b); try lia
    end;
  try reflexivity.

(** C8: the trust tier depends only on the relationship rank and the
    number of logged exchanges, with the cut-offs 1, 10 and 50 at rank 0:
    stranger below 1, acquaintance from 1 to 9, friend from 10 to 49,
    close friend from 50; ranks 1 to 3 give friend, rank 4 lover, every
    negative rank enemy, whatever the count. *)
Theorem C8_trust_tiers :
  (forall npc npc', rank npc = rank npc' -> count npc = count npc' ->
     get_trust npc = get_trust npc')
  /\ (forall npc, rank npc = 0 -> count npc < 1 -> get_trust npc = "a stranger")
  /\ (forall npc, rank npc = 0 -> 1 <= count npc <= 9 -> get_trust npc = "an acquaintance")
  /\ (forall npc, rank npc = 0 -> 10 <= count npc <= 49 -> get_trust npc = "a friend")
  /\ (forall npc, rank npc = 0 -> 50 <= count npc -> get_trust npc = "a close friend")
  /\ (forall npc, 1 <= rank npc <= 3 -> get_trust npc = "a friend")
  /\ (forall npc, rank npc = 4 -> get_trust npc = "a lover")
  /\ (forall npc, rank npc < 0 -> get_trust npc = "an enemy").
Proof.
  unfold Context.get_trust. split_and!.
  - intros npc npc' Hrank Hcount. rewrite Hrank, Hcount. reflexivity.
  - intros npc -> Hcount. cutoffs.
  - intros npc -> Hcount. cutoffs.
  - intros npc -> Hcount. cutoffs.
  - intros npc -> Hcount. cutoffs.
  - intros npc Hrank. cutoffs.
  - intros npc ->. reflexivity.
  - intros npc Hrank. cutoffs.
Qed.

End TrustTiers.

Lemma C8_trust_tiers_witness :
  Context.get_trust Sample.no_log (Sample.with_rank 0) = "a stranger"
  /\ Context.get_trust (Sample.talks 5) (Sample.with_rank 0) = "an acquaintance"
  /\ Context.get_trust (Sample.talks 10) (Sample.with_rank 0) = "a friend"
  /\ Context.get_trust (Sample.talks 50) (Sample.with_rank 0) = "a close friend"
  /\ Context.get_trust Sample.no_log (Sample.with_rank 2) = "a friend"
  /\ Context.get_trust Sample.no_log (Sample.with_rank 4) = "a lover"
  /\ Context.get_trust (Sample.talks 50) (Sample.with_rank (-1)) = "an enemy".
Proof.
  pose proof (C8_trust_tiers Sample.no_log) as (_ & S0 & _ & _ & _ & F0 & L0 & _).
  pose proof (C8_trust_tiers (Sample.talks 5)) as (_ & _ & A5 & _).
  pose proof (C8_trust_tiers (Sample.talks 10)) as (_ & _ & _ & F10 & _).
  pose proof (C8_trust_tiers (Sample.talks 50)) as (_ & _ & _ & _ & C50 & _ & _ & E50).
  split; [apply S0; vm_compute; easy |].
  split; [apply A5; vm_compute; easy |].
  split; [apply F10; vm_compute; easy |].
  split; [apply C50; vm_compute; easy |].
  split; [apply F0; vm_compute; easy |].
  split; [apply L0; vm_compute; easy |].
  apply E50; vm_compute; easy.
Defined.

(** ** [str.format]: whether a template can be filled depends on the
    keywords only, not on their values *)

Section FormatKeys.

Lemma returns_rmap {A B : Type} (f : A -> B) (m : outcome A) :
  returns (rmap f m) = returns m.
Proof. destruct m; reflexivity. Qed.

Lemma kw_lookup_keys key kw : forall kw',
  map fst kw = map fst kw' ->
  is_Some (kw_lookup key kw) -> is_Some (kw_lookup key kw').
Proof.
  induction kw as [|[k v] kw IH]; intros [|[k' v'] kw'] Hkeys; cbn in *;
    try discriminate; try done.
  injection Hkeys as -> Hkeys.
  destruct (String.eqb k' key); [eauto | by apply IH].
Qed.

Lemma format_field_keys kw kw' name :
  map fst kw = map fst kw' ->
  returns (format_field kw name) = true -> returns (format_field kw' name) = true.
Proof.
  intros Hkeys. unfold format_field.
  destruct name as [|ch name]; [done |].
  destruct (all_digits (ch :: name)); [done |].
  destruct (kw_lookup _ kw) as [v|] eqn:L; [| done].
  intros _.
  destruct (kw_lookup_keys _ _ _ Hkeys (mk_is_Some _ _ L)) as [v' ->]. done.
Qed.

Lemma format_go_keys_bounded kw kw' :
  map fst kw = map fst kw' ->
  forall (n : nat) s field,
    (String.length s <= n)%nat ->
    returns (format_go kw field s) = true -> returns (format_go kw' field s) = true.
Proof.
  intros Hkeys. induction n as [|n IH]; intros [|ch rest] [name|] Hlen;
    cbn -[field_char_unmodelled] in *; try done; try lia.
  - destruct (Ascii.eqb ch "}").
    + destruct (format_field kw name) as [v| |] eqn:Fv; cbn; try done.
      pose proof (format_field_keys _ _ name Hkeys) as Hf.
      rewrite Fv in Hf. specialize (Hf eq_refl).
      destruct (format_field kw' name) as [v'| |]; try done. cbn.
      rewrite !returns_rmap. apply IH. lia.
    + destruct (field_char_unmodelled ch); [done | apply IH; lia].
  - destruct (Ascii.eqb ch "{").
    + destruct rest as [|ch' rest']; [apply IH; cbn; lia |].
      destruct (Ascii.eqb_spec ch' "{") as [-> | Hne].
      * rewrite !returns_rmap. apply IH. cbn in Hlen. lia.
      * assert (Hstep : forall k, match ch' with
                          | "{"%char => rmap (String "{") (format_go k None rest')
                          | _ => format_go k (Some []) (String ch' rest')
                          end = format_go k (Some []) (String ch' rest')).
        { intros k. destruct ch' as [[] [] [] [] [] [] [] []]; try reflexivity.
          contradiction Hne. reflexivity. }
        rewrite !Hstep. apply IH. lia.
    + destruct (Ascii.eqb ch "}").
      * destruct rest as [|ch' rest']; [done |].
        destruct (Ascii.eqb_spec ch' "}") as [-> | Hne].
        -- rewrite !returns_rmap. apply IH. cbn in Hlen. lia.
        -- assert (Hstep : forall k, match ch' with
                             | "}"%char => rmap (String "}") (format_go k None rest')
                             | _ => Raises ValueError
                             end = Raises ValueError).
           { intros k. destruct ch' as [[] [] [] [] [] [] [] []]; try reflexivity.
             contradiction Hne. reflexivity. }
           rewrite !Hstep. done.
      * rewrite !returns_rmap. apply IH. lia.
Qed.

Lemma format_keys template kw kw' :
  map fst kw = map fst kw' ->
  returns (str_format template kw) = true -> returns (str_format template kw') = true.
Proof.
  intros Hkeys. unfold str_format.
  apply (format_go_keys_bounded _ _ Hkeys (String.length template)). lia.
Qed.

End FormatKeys.

(** ** Rendering the system prompt *)

Section Prompt.
Import Context Trace.
Variable get_time_group : Z -> string.
Variable load_conversation_log : Character.t -> list string.

Abbreviation run := (generate_system_message_run get_time_group load_conversation_log).
Abbreviation gsm := (generate_system_message get_time_group load_conversation_log).
Abbreviation render := (Context.render get_time_group load_conversation_log).
Abbreviation locals_of := (compute_locals get_time_group load_conversation_log).
Abbreviation kwargs_of c content := (format_kwargs c (locals_of c) content).
Abbreviation kw_of c content :=
  (match kwargs_of c content with Returns kw => kw | _ => [] end).
Abbreviation attempt := attempt_events.
Abbreviation full := (full_content get_time_group load_conversation_log).
Abbreviation bios_only := (bios_only_content get_time_group load_conversation_log).
Abbreviation too_long c r := (is_prompt_too_long c r TOKEN_LIMIT_PERCENT).

#[local] Arguments Context.render : simpl never.
#[local] Arguments attempt_events : simpl never.

Lemma removal_content_eq c :
  removal_content (locals_of c) = [full c; bios_only c; bare_content].
Proof. reflexivity. Qed.

Lemma format_calls_app ev1 ev2 :
  format_calls (ev1 ++ ev2) = (format_calls ev1 ++ format_calls ev2)%list.
Proof. unfold format_calls. apply omap_app. Qed.

Lemma strip_logs_app ev1 ev2 :
  strip_logs (ev1 ++ ev2) = (strip_logs ev1 ++ strip_logs ev2)%list.
Proof. unfold strip_logs. apply List.filter_app. Qed.

(** The keyword arguments of a call carry the optional content of the
    loop variable under [bio], [bios], [conversation_summary] and
    [conversation_summaries]. *)
Lemma kwargs_optional c content kw :
  kwargs_of c content = Returns kw ->
  optional_content kw
  = [Some content.1; Some content.1; Some content.2; Some content.2].
Proof.
  unfold format_kwargs.
  destruct (lv_name (locals_of c)); [| discriminate].
  destruct (language c !! "language"); [| discriminate].
  cbn [bind]. intros [= <-]. reflexivity.
Qed.

Lemma optional_of_calls c calls contents :
  Forall2 (fun kw content => kwargs_of c content = Returns kw) calls contents ->
  map optional_content calls
  = map (fun content : string * string =>
           [Some content.1; Some content.1; Some content.2; Some content.2]) contents.
Proof.
  induction 1 as [|kw content calls contents Hkw _ IH]; [reflexivity |].
  cbn [map]. by rewrite (kwargs_optional _ _ _ Hkw), IH.
Qed.

(** Under every other keyword two calls hand over the same text. *)
Lemma kwargs_other c content content' kw kw' key :
  kwargs_of c content = Returns kw ->
  kwargs_of c content' = Returns kw' ->
  key ∉ optional_keys ->
  kw_lookup key kw = kw_lookup key kw'.
Proof.
  unfold format_kwargs.
  destruct (lv_name (locals_of c)); [| discriminate].
  destruct (language c !! "language"); [| discriminate].
  cbn [bind]. intros [= <-] [= <-] Hkey. cbn [kw_lookup].
  repeat match goal with
         | |- context [String.eqb ?k key] =>
             destruct (String.eqb_spec k key) as [<- | _];
             [first [reflexivity
                    | exfalso; apply Hkey; unfold optional_keys;
                      repeat first [apply list_elem_of_here | apply list_elem_of_further]]
             |]
         end.
  reflexivity.
Qed.

(** Whether the keyword arguments can be evaluated does not depend on the
    optional content. *)
Lemma kwargs_returns c content :
  is_Some (Characters.last_added_character (npcs_in_conversation c)) ->
  is_Some (language c !! "language") ->
  exists kw, kwargs_of c content = Returns kw.
Proof.
  intros [ch Hch] [lang Hlang]. unfold format_kwargs. cbn [lv_name compute_locals].
  rewrite Hch, Hlang. cbn [bind]. eauto.
Qed.

(** The loop over any list of optional contents, by induction on that
    list: the calls of [prompt.format] take their keyword arguments from
    a prefix of the list, every call but the last yielded a text that was
    too long, a text that passes belongs to the last call and is what the
    loop returns, and the loop runs out only when every text was too
    long. *)
Lemma render_loop_spec c prompt contents :
  forall prior events out,
    render_loop c prompt (locals_of c) contents prior = (events, out) ->
    let calls := format_calls events in
    let n := length calls in
    (n <= length contents)%nat
    /\ Forall2 (fun kw content => kwargs_of c content = Returns kw) calls (take n contents)
    /\ strip_logs events = concat (map (attempt c prompt) calls)
    /\ (forall k kw r,
          calls !! k = Some kw ->
          str_format prompt kw = Returns r -> too_long c r = false ->
          n = S k /\ out = Returns (inl r))
    /\ (forall k kw,
          (k + 1 < n)%nat -> calls !! k = Some kw ->
          exists r, str_format prompt kw = Returns r /\ too_long c r = true)
    /\ (forall r, out = Returns (inl r) ->
          exists kw, last calls = Some kw
            /\ str_format prompt kw = Returns r /\ too_long c r = false)
    /\ (forall l, out = Returns (inr l) ->
          n = length contents
          /\ (contents = [] -> l = prior)
          /\ (contents <> [] -> exists r, l = Some r)
          /\ forall kw, kw ∈ calls ->
               exists r', str_format prompt kw = Returns r' /\ too_long c r' = true).
Proof.
  induction contents as [|content rest IH]; intros prior events out E.
  - simpl in E. injection E as <- <-. cbn.
    split_and!; try done; try (by constructor).
    intros l [= <-]. split_and!; try done.
    intros kw Hin. inversion Hin.
  - cbn [render_loop] in E.
    destruct (format_kwargs c (locals_of c) content) as [kw|e|] eqn:K.
    2,3: injection E as <- <-; cbn; split_and!; try done; try (by constructor);
         intros; lia.
    destruct (str_format prompt kw) as [result|e|] eqn:F.
    2,3: injection E as <- <-; cbn; unfold attempt_events; rewrite F; cbn.
    2,3: split_and!; try done; try lia; try (by repeat constructor).
    2,3: intros [|k] kw' r Hk Hc Ht; cbn in Hk; simplify_eq; congruence.
    destruct (too_long c result) eqn:T; cbn [negb] in E.
    + destruct (render_loop c prompt (locals_of c) rest (Some result))
        as [events' out'] eqn:E'.
      injection E as <- <-.
      destruct (IH _ _ _ E') as (Hn & Hcalls & Hstrip & Hpass & Hprev & Hret & Hout).
      cbn -[take]. unfold attempt_events at 1. rewrite F, T. cbn -[take].
      fold (format_calls events'). fold (strip_logs events').
      split; [lia |].
      split; [cbn; constructor; [exact K | exact Hcalls] |].
      split; [f_equal; f_equal; exact Hstrip |].
      split.
      { intros [|k] kw' r; cbn.
        - intros; simplify_eq; congruence.
        - intros Hk Hc Ht. destruct (Hpass k kw' r Hk Hc Ht) as [-> ->]. done. }
      split.
      { intros [|k] kw'; cbn.
        - intros _ ?; simplify_eq. eauto.
        - intros Hk Hc. apply (Hprev k kw'); [lia | exact Hc]. }
      split.
      { intros r ->. destruct (Hret r eq_refl) as (kw' & Hl & Hc & Ht).
        exists kw'. split; [| done].
        destruct (format_calls events'); [discriminate | exact Hl]. }
      intros l ->. destruct (Hout l eq_refl) as (Hlen & Hnil & Hcons & Hall).
      split; [cbn; lia |].
      split; [done |].
      split.
      { intros _. destruct rest; [rewrite Hnil by done; eauto | apply Hcons; done]. }
      intros kw' Hin. apply elem_of_cons in Hin as [-> | Hin]; eauto.
    + injection E as <- <-. cbn. unfold attempt_events. rewrite F, T. cbn.
      split_and!; try done; try lia; try (by repeat constructor).
      * intros [|k] kw' r Hk Hc Ht; cbn in Hk; simplify_eq.
        split; [done | congruence].
      * intros r [= <-]. exists kw. done.
Qed.

Lemma render_loop_step c prompt content rest prior r :
  render c prompt content = Returns r ->
  render_loop c prompt (locals_of c) (content :: rest) prior =
    if negb (too_long c r)
    then ([EvFormat (kw_of c content);
           EvTooLong r TOKEN_LIMIT_PERCENT (too_long c r);
           EvLog 23 (client c r) r], Returns (inl r))
    else let '(events, out) := render_loop c prompt (locals_of c) rest (Some r) in
         (EvFormat (kw_of c content)
            :: EvTooLong r TOKEN_LIMIT_PERCENT (too_long c r) :: events, out).
Proof.
  unfold Context.render. intros Hr. cbn [render_loop].
  destruct (format_kwargs c (locals_of c) content) as [kw| |]; try discriminate.
  cbn [bind] in Hr. rewrite Hr. reflexivity.
Qed.

(** When every rendering yields a text, the loop ends without raising. *)
Lemma render_loop_returns c prompt contents :
  (forall content, content ∈ contents -> exists r, render c prompt content = Returns r) ->
  forall prior, exists v, (render_loop c prompt (locals_of c) contents prior).2 = Returns v.
Proof.
  induction contents as [|content rest IH]; intros Hall prior.
  - eexists. reflexivity.
  - destruct (Hall content) as [r Hr]; [left |].
    rewrite (render_loop_step _ _ _ _ _ _ Hr).
    destruct (too_long c r); cbn [negb].
    + destruct (IH (fun x Hx => Hall x (list_elem_of_further _ _ _ Hx)) (Some r)) as [v Hv].
      destruct (render_loop c prompt (locals_of c) rest (Some r)) as [events out].
      exists v. exact Hv.
    + eexists. reflexivity.
Qed.

(** A call whose text is too long is followed by the next call: the loop
    reaches the call of index [k] when the keyword arguments can be
    evaluated and every earlier call yielded a text that was too long. *)
Lemma render_loop_progress c prompt contents : forall prior k,
  (k < length contents)%nat ->
  (forall content, exists kw, kwargs_of c content = Returns kw) ->
  let calls := format_calls (render_loop c prompt (locals_of c) contents prior).1 in
  (forall j kw, (j < k)%nat -> calls !! j = Some kw ->
     exists r, str_format prompt kw = Returns r /\ too_long c r = true) ->
  (k < length calls)%nat.
Proof.
  induction contents as [|content rest IH]; intros prior k Hk Hkw; cbn [length] in Hk;
    [lia |].
  cbn [render_loop]. destruct (Hkw content) as [kw ->].
  destruct (str_format prompt kw) as [result|e|] eqn:F.
  2,3: cbn; intros Hearlier; destruct k as [|k]; [lia |];
       destruct (Hearlier 0%nat kw) as (r & Hr & _); [lia | reflexivity | congruence].
  destruct (too_long c result) eqn:T; cbn [negb].
  - specialize (IH (Some result)).
    destruct (render_loop c prompt (locals_of c) rest (Some result)) as [events out].
    cbn in *. intros Hearlier. destruct k as [|k]; [lia |].
    apply -> Nat.succ_lt_mono.
    apply IH; [lia | exact Hkw |].
    intros j kw' Hj Hl. apply (Hearlier (S j)); [lia | exact Hl].
  - cbn. intros Hearlier. destruct k as [|k]; [lia |].
    destruct (Hearlier 0%nat kw) as (r & Hr & Ht); [lia | reflexivity |]. congruence.
Qed.

(** C7: at most three calls of [prompt.format] are made.  Under [bio],
    [bios], [conversation_summary] and [conversation_summaries] they
    carry, in this order, the bios and the summaries, the bios and the
    empty text, the empty text twice; under every other keyword they
    carry the same.  The text of each call is tested with the injected
    predicate at the fixed fraction right after the call; a call whose
    text is too long is followed by the next one; the first text that
    passes is returned and no further call is made. *)
Theorem C7_three_attempts_in_order c prompt :
  let bios := get_bios_text c in
  let summaries := rememberer c (get_characters_excluding_player c) in
  let events := (run c prompt).1 in
  let out := (run c prompt).2 in
  let calls := format_calls events in
  let n := length calls in
  (n <= 3)%nat
  /\ map optional_content calls = take n (reduction_order bios summaries)
  /\ (forall kw kw' key,
        kw ∈ calls -> kw' ∈ calls -> key ∉ optional_keys ->
        kw_lookup key kw = kw_lookup key kw')
  /\ strip_logs events = concat (map (attempt c prompt) calls)
  /\ (forall k kw r,
        calls !! k = Some kw ->
        str_format prompt kw = Returns r -> too_long c r = false ->
        n = S k /\ out = Returns r)
  /\ (forall k kw,
        (k + 1 < n)%nat -> calls !! k = Some kw ->
        exists r, str_format prompt kw = Returns r /\ too_long c r = true)
  /\ (forall k,
        (k < 3)%nat ->
        is_Some (Characters.last_added_character (npcs_in_conversation c)) ->
        is_Some (language c !! "language") ->
        (forall j kw, (j < k)%nat -> calls !! j = Some kw ->
           exists r, str_format prompt kw = Returns r /\ too_long c r = true) ->
        (k < n)%nat)
  /\ (forall r, out = Returns r ->
        (exists kw, last calls = Some kw
           /\ str_format prompt kw = Returns r /\ too_long c r = false)
        \/ (n = 3%nat /\ r = prompt
            /\ forall kw, kw ∈ calls ->
                 exists r', str_format prompt kw = Returns r' /\ too_long c r' = true)).
Proof.
  cbv zeta. unfold generate_system_message_run.
  rewrite removal_content_eq.
  pose proof (render_loop_progress c prompt [full c; bios_only c; bare_content] None)
    as Hprogress.
  destruct (render_loop c prompt (locals_of c) [full c; bios_only c; bare_content] None)
    as [events out] eqn:E.
  cbn [fst] in Hprogress.
  destruct (render_loop_spec _ _ _ _ _ _ E)
    as (Hn & Hcalls & Hstrip & Hpass & Hprev & Hret & Hout).
  cbv zeta in Hn, Hcalls, Hstrip, Hpass, Hprev, Hret, Hout.
  assert (Hoptional : map optional_content (format_calls events)
            = take (length (format_calls events))
                (reduction_order (get_bios_text c)
                   (rememberer c (get_characters_excluding_player c)))).
  { change (reduction_order _ _)
      with (map (fun content : string * string =>
                   [Some content.1; Some content.1; Some content.2; Some content.2])
              [full c; bios_only c; bare_content]).
    rewrite (optional_of_calls _ _ _ Hcalls). exact (fmap_take _ _ _). }
  assert (Hother : forall kw kw' key,
            kw ∈ format_calls events -> kw' ∈ format_calls events ->
            key ∉ optional_keys -> kw_lookup key kw = kw_lookup key kw').
  { intros kw kw' key Hin Hin' Hkey.
    apply list_elem_of_lookup in Hin as [i Hi], Hin' as [i' Hi'].
    destruct (Forall2_lookup_l _ _ _ _ _ Hcalls Hi) as (content & _ & Hkw).
    destruct (Forall2_lookup_l _ _ _ _ _ Hcalls Hi') as (content' & _ & Hkw').
    exact (kwargs_other _ _ _ _ _ _ Hkw Hkw' Hkey). }
  assert (Hnext : forall k,
            (k < 3)%nat ->
            is_Some (Characters.last_added_character (npcs_in_conversation c)) ->
            is_Some (language c !! "language") ->
            (forall j kw, (j < k)%nat -> format_calls events !! j = Some kw ->
               exists r, str_format prompt kw = Returns r /\ too_long c r = true) ->
            (k < length (format_calls events))%nat).
  { intros k Hk Hlast Hlang Hearlier.
    apply Hprogress; [exact Hk | | exact Hearlier].
    intros content. by apply kwargs_returns. }
  assert (Hlog : forall x, format_calls (events ++ [EvLog 23 x prompt]) = format_calls events
                           /\ strip_logs (events ++ [EvLog 23 x prompt]) = strip_logs events).
  { intros x. rewrite format_calls_app, strip_logs_app. cbn. by rewrite !app_nil_r. }
  destruct out as [[r | [r |]] | e |]; cbn [fst snd].
  - split_and!; try done.
    + intros k kw r' Hk Hc Ht. destruct (Hpass k kw r' Hk Hc Ht) as [-> [= ->]]. done.
    + intros r' [= <-]. left. by apply Hret.
  - destruct (Hlog (client c r)) as [-> ->].
    destruct (Hout _ eq_refl) as (Hlen & _ & _ & Hall).
    split_and!; try done.
    + intros k kw r' Hk Hc Ht. destruct (Hpass k kw r' Hk Hc Ht) as [_ [=]].
    + intros r' [= <-]. right. done.
  - destruct (Hout _ eq_refl) as (_ & _ & Hsome & _).
    destruct Hsome as [r [=]]. done.
  - split_and!; try done.
    intros k kw r' Hk Hc Ht. destruct (Hpass k kw r' Hk Hc Ht) as [_ [=]].
  - split_and!; try done.
    intros k kw r' Hk Hc Ht. destruct (Hpass k kw r' Hk Hc Ht) as [_ [=]].
Qed.

(** Every template of the grammar passes the test. *)
Lemma plain_template_ok prompt : plain_template prompt -> template_ok prompt = true.
Proof.
  unfold template_ok, str_format.
  induction 1 as [|ch s Ho Hc _ IH|s _ IH|s _ IH|key s Hkey _ IH].
  - reflexivity.
  - cbn [format_go].
    rewrite (proj2 (Ascii.eqb_neq _ _) Ho), (proj2 (Ascii.eqb_neq _ _) Hc).
    by rewrite returns_rmap.
  - cbn [format_go Ascii.eqb Bool.eqb]. by rewrite returns_rmap.
  - cbn [format_go Ascii.eqb Bool.eqb]. by rewrite returns_rmap.
  - unfold placeholders in Hkey.
    repeat (apply elem_of_cons in Hkey as [-> | Hkey]);
      [.. | by apply elem_of_nil in Hkey];
      (transitivity
         (returns (rmap (String.append "")
                     (format_go (map (fun k => (k, "")) placeholders) None s)));
       [vm_compute; reflexivity | by rewrite returns_rmap]).
Qed.

(** A state with a last-added character and a language entry renders
    every template that passes the test. *)
Lemma render_returns c prompt content :
  is_Some (Characters.last_added_character (npcs_in_conversation c)) ->
  is_Some (language c !! "language") ->
  template_ok prompt = true ->
  exists r, render c prompt content = Returns r.
Proof.
  intros [ch Hch] [lang Hlang] Hok.
  unfold Context.render, format_kwargs. cbn [lv_name compute_locals].
  rewrite Hch, Hlang. cbn [bind].
  match goal with |- context [str_format prompt ?kw] =>
    pose proof (format_keys prompt (map (fun k => (k, "")) placeholders) kw eq_refl Hok)
      as Hret;
    destruct (str_format prompt kw) as [r| |]; try discriminate
  end.
  eauto.
Qed.

(** A context that has just been constructed cannot render any template:
    its roster is empty, so the local [name] is read before it is bound. *)
Lemma fresh_context_cannot_render game cl rem lang is_too_long events prompt :
  gsm (init game cl rem lang is_too_long events) prompt = Raises UnboundLocalError.
Proof. reflexivity. Qed.

(** C1, amended: for a state whose roster has a last-added character and
    whose language table has the entry [language], and a template made of
    literal text, doubled braces and plain fields [{keyword}] over the
    keywords the function supplies, [generate_system_message] returns a
    string; when all three renderings are too long, that string is the
    template itself. *)
Theorem C1_returns_a_string c prompt :
  is_Some (Characters.last_added_character (npcs_in_conversation c)) ->
  is_Some (language c !! "language") ->
  plain_template prompt ->
  (exists text, gsm c prompt = Returns text)
  /\ ((forall content, content ∈ [full c; bios_only c; bare_content] ->
         exists r, render c prompt content = Returns r /\ too_long c r = true) ->
      gsm c prompt = Returns prompt).
Proof.
  intros Hlast Hlang Hplain.
  pose proof (plain_template_ok prompt Hplain) as Hok.
  pose proof (fun content (_ : content ∈ [full c; bios_only c; bare_content]) =>
                render_returns c prompt content Hlast Hlang Hok) as Hall.
  destruct (render_loop_returns c prompt _ Hall None) as [v Hv].
  unfold generate_system_message, generate_system_message_run.
  rewrite removal_content_eq.
  destruct (render_loop c prompt (locals_of c) [full c; bios_only c; bare_content] None)
    as [events out] eqn:E.
  cbn [snd] in Hv. subst out.
  destruct (render_loop_spec _ _ _ _ _ _ E)
    as (Hn & Hcalls & _ & _ & _ & Hret & Hout).
  cbv zeta in Hn, Hcalls, Hret, Hout.
  destruct v as [r | [r |]]; cbn [snd].
  - split; [eauto |]. intros Hlong.
    destruct (Hret r eq_refl) as (kw & Hl & Hc & Ht).
    apply last_Some_elem_of, list_elem_of_lookup in Hl as [i Hi].
    destruct (Forall2_lookup_l _ _ _ _ _ Hcalls Hi) as (content & Hcontent & Hkw).
    assert (Hin : content ∈ [full c; bios_only c; bare_content]).
    { apply lookup_take_Some in Hcontent as [Hcontent _].
      by apply list_elem_of_lookup_2 in Hcontent. }
    destruct (Hlong content Hin) as (r' & Hc' & Ht').
    unfold Context.render in Hc'. rewrite Hkw in Hc'. cbn [bind] in Hc'. congruence.
  - split; eauto.
  - destruct (Hout _ eq_refl) as (_ & _ & [r [=]] & _). done.
Qed.

(** C5, amended: when the full rendering and the rendering without
    summaries are both too long and the rendering without bios and
    summaries fits, [generate_system_message] returns exactly the
    rendering without bios and summaries. *)
Theorem C5_bare_rendering_returned c prompt r1 r2 r3 :
  render c prompt (full c) = Returns r1 -> too_long c r1 = true ->
  render c prompt (bios_only c) = Returns r2 -> too_long c r2 = true ->
  render c prompt bare_content = Returns r3 -> too_long c r3 = false ->
  gsm c prompt = Returns r3.
Proof.
  intros H1 T1 H2 T2 H3 T3.
  unfold generate_system_message, generate_system_message_run.
  rewrite removal_content_eq.
  rewrite (render_loop_step _ _ _ _ _ _ H1), T1. cbn [negb].
  rewrite (render_loop_step _ _ _ _ _ _ H2), T2. cbn [negb].
  rewrite (render_loop_step _ _ _ _ _ _ H3), T3. reflexivity.
Qed.

End Prompt.

(** A state in which the first text is too long and the second one fits:
    two calls are made, the second with the bios and without the
    summaries, and its text is returned. *)
Lemma C7_three_attempts_in_order_witness :
  let run := Context.generate_system_message_run Sample.get_time_group Sample.no_log
               (Sample.lydia_context 20) Sample.template in
  map Trace.optional_content (Trace.format_calls run.1)
  = [[Some "Housecarl."; Some "Housecarl."; Some "SUMMARY"; Some "SUMMARY"];
     [Some "Housecarl."; Some "Housecarl."; Some ""; Some ""]]
  /\ run.2 = Returns "Lydia: Housecarl.|".
Proof.
  destruct (C7_three_attempts_in_order Sample.get_time_group Sample.no_log
              (Sample.lydia_context 20) Sample.template)
    as (_ & Hcontent & _ & _ & Hpass & _).
  split; [exact Hcontent |].
  apply (Hpass 1%nat (Trace.format_calls
                        (Context.generate_system_message_run Sample.get_time_group
                           Sample.no_log (Sample.lydia_context 20) Sample.template).1
                      !!! 1%nat) "Lydia: Housecarl.|"); reflexivity.
Defined.

(** The claim of C1 fails on the code: with an empty roster the local
    [name] is never bound, and a template that is not a well-formed format
    string over the placeholders makes [str.format] raise. *)
Lemma C1_counterexample :
  Context.generate_system_message Sample.get_time_group Sample.no_log
    Sample.empty_context "Hello" = Raises UnboundLocalError
  /\ Context.generate_system_message Sample.get_time_group Sample.no_log
       (Sample.lydia_context 20) "Hello {" = Raises ValueError
  /\ Context.generate_system_message Sample.get_time_group Sample.no_log
       (Sample.lydia_context 20) "{mood}" = Raises KeyError.
Proof. repeat split; reflexivity. Qed.

Lemma C1_returns_a_string_witness :
  (exists text,
     Context.generate_system_message Sample.get_time_group Sample.no_log
       (Sample.lydia_context 5) Sample.template = Returns text)
  /\ Context.generate_system_message Sample.get_time_group Sample.no_log
       (Sample.lydia_context 5) Sample.template = Returns Sample.template.
Proof.
  destruct (C1_returns_a_string Sample.get_time_group Sample.no_log
              (Sample.lydia_context 5) Sample.template) as [Hret Hprompt].
  - vm_compute. eauto.
  - vm_compute. eauto.
  - apply (Trace.plain_field "name");
      [unfold Trace.placeholders; repeat first [apply list_elem_of_here | apply list_elem_of_further] |].
    do 2 (apply Trace.plain_char; [discriminate | discriminate |]).
    apply (Trace.plain_field "bios");
      [unfold Trace.placeholders; repeat first [apply list_elem_of_here | apply list_elem_of_further] |].
    apply Trace.plain_char; [discriminate | discriminate |].
    apply (Trace.plain_field "conversation_summaries");
      [unfold Trace.placeholders; repeat first [apply list_elem_of_here | apply list_elem_of_further] |].
    apply Trace.plain_end.
  - split; [exact Hret |]. apply Hprompt.
    intros content Hin.
    repeat (apply elem_of_cons in Hin as [-> | Hin]); [| | | by apply elem_of_nil in Hin].
    + exists "Lydia: Housecarl.|SUMMARY". split; reflexivity.
    + exists "Lydia: Housecarl.|". split; reflexivity.
    + exists "Lydia: |". split; reflexivity.
Defined.

(** The claim of C5 fails on the code: the full rendering is too long, the
    rendering without bios fits, and yet the rendering that keeps the bios
    and drops the summaries is what is returned, because it fits too. *)
Lemma C5_counterexample :
  let c := Sample.lydia_context 20 in
  let render := Context.render Sample.get_time_group Sample.no_log c Sample.template in
  let full := Trace.full_content Sample.get_time_group Sample.no_log c in
  render full = Returns "Lydia: Housecarl.|SUMMARY"
  /\ Context.is_prompt_too_long c "Lydia: Housecarl.|SUMMARY" Context.TOKEN_LIMIT_PERCENT = true
  /\ render Trace.bare_content = Returns "Lydia: |"
  /\ Context.is_prompt_too_long c "Lydia: |" Context.TOKEN_LIMIT_PERCENT = false
  /\ Context.generate_system_message Sample.get_time_group Sample.no_log c Sample.template
       = Returns "Lydia: Housecarl.|"
  /\ "Lydia: Housecarl.|" <> "Lydia: |".
Proof. repeat split; try reflexivity. discriminate. Qed.

Lemma C5_bare_rendering_returned_witness :
  Context.generate_system_message Sample.get_time_group Sample.no_log
    (Sample.lydia_context 10) Sample.template = Returns "Lydia: |".
Proof.
  apply (C5_bare_rendering_returned Sample.get_time_group Sample.no_log
           (Sample.lydia_context 10) Sample.template
           "Lydia: Housecarl.|SUMMARY" "Lydia: Housecarl.|" "Lydia: |");
    reflexivity.
Defined.

(** ** Updating the context *)

Section UpdateContext.
Import Context Trace.
Variable get_time_group : Z -> string.

Abbreviation update := (update_context get_time_group).
Abbreviation due := (due_events get_time_group).

(** The snapshots of a call, statement by statement. *)
Lemma update_context_trace w new_location t ev cv :
  let q := ingame_events (ctx w) in
  let cur := (str_of_int t, get_time_group t) in
  let w1 := list_extend q ev w in
  let w2 := on_ctx (set_custom_context_values cv) w1 in
  let w3 := on_ctx (set_location new_location) w2 in
  let w4 := list_append ev (location_event new_location) w3 in
  let moved := bool_decide (new_location ≠ location (ctx w)) in
  let w5 := on_ctx (set_ingame_time t) (if moved then w4 else w2) in
  let w6 := on_ctx (set_prev_game_time cur) w5 in
  let w7 := list_append ev (time_event cur) w6 in
  let later := bool_decide (cur ≠ prev_game_time (ctx w)) in
  update new_location t ev cv w =
    (tt, if later then w7 else w5,
     ([w1; w2] ++ (if moved then [w3; w4] else []) ++ [w5]
        ++ (if later then [w6; w7] else []))%list).
Proof.
  cbv zeta. unfold update_context, mbind, M_bind, mret, M_ret, read, write.
  cbn [ctx on_ctx list_extend location set_custom_context_values].
  case_bool_decide; cbn; case_bool_decide; reflexivity.
Qed.

Lemma deref_insert_eq (h : gmap ref (list string)) a l : deref (<[a := l]> h) a = l.
Proof. unfold deref. by rewrite lookup_insert_eq. Qed.

Lemma deref_insert_ne (h : gmap ref (list string)) a b l :
  a ≠ b -> deref (<[a := l]> h) b = deref h b.
Proof. intros Hne. unfold deref. by rewrite lookup_insert_ne. Qed.

(** What a call leaves in the fields of the context. *)
Lemma update_context_fields w new_location t ev cv :
  let c' := ctx (final (update new_location t ev cv w)) in
  location c' = new_location
  /\ prev_game_time c' = (str_of_int t, get_time_group t)
  /\ ingame_time c' = t
  /\ custom_context_values c' = cv
  /\ ingame_events c' = ingame_events (ctx w).
Proof.
  cbv zeta. rewrite update_context_trace. unfold final. cbn [fst snd].
  repeat case_bool_decide; cbn; split_and!; try done.
  all: match goal with H : ¬ _ ≠ _ |- _ => apply dec_stable in H; done end.
Qed.

(** The heap a call leaves: the queue extended by the caller's list, then
    the due events appended to the caller's list. *)
Lemma update_context_heap w new_location t ev cv :
  heap (final (update new_location t ev cv w)) =
  heap (list_appends ev (due (ctx w) new_location t)
          (list_extend (ingame_events (ctx w)) ev w)).
Proof.
  rewrite update_context_trace. unfold final, due_events. cbn [fst snd].
  repeat case_bool_decide; reflexivity.
Qed.

(** C9: a call that repeats the location and the in-game time of the call
    before it owes no event and only copies the caller's list into the
    queue; in general the events appended are the due ones, the time event
    being due exactly when the pair of hour and time group differs from
    the recorded pair, and every call records its pair. *)
Theorem C9_repeated_update_appends_nothing w new_location t ev1 cv1 ev2 cv2 :
  let w1 := final (update new_location t ev1 cv1 w) in
  let r2 := update new_location t ev2 cv2 w1 in
  due (ctx w1) new_location t = []
  /\ heap (final r2) = heap (list_extend (ingame_events (ctx w1)) ev2 w1)
  /\ (forall w' loc' t' ev cv,
        let r := update loc' t' ev cv w' in
        let cur := (str_of_int t', get_time_group t') in
        heap (final r)
          = heap (list_appends ev (due (ctx w') loc' t')
                    (list_extend (ingame_events (ctx w')) ev w'))
        /\ (time_event cur ∈ due (ctx w') loc' t' <-> cur ≠ prev_game_time (ctx w'))
        /\ prev_game_time (ctx (final r)) = cur).
Proof.
  cbv zeta.
  destruct (update_context_fields w new_location t ev1 cv1) as (Hloc & Hprev & _).
  assert (Hdue : due (ctx (final (update new_location t ev1 cv1 w))) new_location t = []).
  { unfold due_events. rewrite Hloc, Hprev.
    rewrite !bool_decide_eq_false_2 by (intros Hne; by apply Hne). reflexivity. }
  split; [exact Hdue |].
  split; [rewrite update_context_heap, Hdue; reflexivity |].
  intros w' loc' t' ev cv.
  split; [apply update_context_heap |].
  split; [| apply update_context_fields].
  unfold due_events. split.
  - intros Hin. apply elem_of_app in Hin as [Hin | Hin].
    + case_bool_decide; [| by apply elem_of_nil in Hin].
      apply elem_of_cons in Hin as [Heq | Hin]; [| by apply elem_of_nil in Hin].
      unfold location_event, time_event in Heq. cbn in Heq. discriminate Heq.
    + case_bool_decide; [done | by apply elem_of_nil in Hin].
  - intros Hne. apply elem_of_app. right.
    rewrite bool_decide_eq_true_2 by exact Hne. left.
Qed.

(** C4, amended: when the location differs from the stored one, the
    stored location is overwritten first and only then the event is
    appended to the caller's list; the event names the new location, and
    the store in which it first shows already holds the new location. *)
Theorem C4_location_overwritten_then_event w new_location t ev cv :
  new_location ≠ location (ctx w) ->
  let w1 := list_extend (ingame_events (ctx w)) ev w in
  let w2 := on_ctx (set_custom_context_values cv) w1 in
  let w3 := on_ctx (set_location new_location) w2 in
  let w4 := list_append ev (location_event new_location) w3 in
  location_event new_location = "The location is now " ++ new_location ++ "."
  /\ (exists rest, trace (update new_location t ev cv w) = w1 :: w2 :: w3 :: w4 :: rest)
  /\ location (ctx w1) = location (ctx w)
  /\ location (ctx w2) = location (ctx w)
  /\ location (ctx w3) = new_location
  /\ deref (heap w3) ev = deref (heap w2) ev
  /\ location (ctx w4) = new_location
  /\ deref (heap w4) ev
       = (deref (heap w2) ev ++ [location_event new_location])%list.
Proof.
  intros Hne. cbv zeta. rewrite update_context_trace. unfold trace. cbn [snd].
  rewrite bool_decide_eq_true_2 by exact Hne.
  split; [reflexivity |].
  split; [eexists; reflexivity |].
  split_and!; try reflexivity.
  cbn [heap list_append on_ctx]. by rewrite deref_insert_eq.
Qed.

(** C10, amended: the caller's list is first copied into the queue and
    the due events are then appended to the caller's list itself; when
    that list is not the queue object, no snapshot of the call shows them
    in the queue. *)
Theorem C10_events_only_in_callers_list w new_location t ev cv :
  ev ≠ ingame_events (ctx w) ->
  let q := ingame_events (ctx w) in
  let r := update new_location t ev cv w in
  head (trace r) = Some (list_extend q ev w)
  /\ deref (heap (final r)) ev
       = (deref (heap w) ev ++ due (ctx w) new_location t)%list
  /\ Forall (fun w' => deref (heap w') q = (deref (heap w) q ++ deref (heap w) ev)%list)
       (trace r)
  /\ deref (heap (final r)) (get_context_ingame_events (ctx (final r)))
       = (deref (heap w) q ++ deref (heap w) ev)%list.
Proof.
  intros Hne. cbv zeta.
  destruct (update_context_fields w new_location t ev cv) as (_ & _ & _ & _ & Hq).
  unfold get_context_ingame_events. rewrite Hq. clear Hq.
  rewrite update_context_trace. unfold trace, final, due_events. cbn [fst snd].
  repeat case_bool_decide; cbn.
  all: split; [reflexivity |].
  all: rewrite ?deref_insert_eq, ?(deref_insert_ne _ _ _ _ (not_eq_sym Hne)),
         ?deref_insert_eq, ?app_nil_r, <- ?app_assoc.
  all: split; [reflexivity |].
  all: split; [repeat constructor |].
  all: cbn [heap ctx on_ctx list_append list_extend].
  all: rewrite ?(deref_insert_ne _ _ _ _ Hne), ?deref_insert_eq; reflexivity.
Qed.

End UpdateContext.

(** The claim of C4 fails on the code: the only snapshots in which the
    caller's list has grown already store the new location, and the event
    names the new location, not the old. *)
Lemma C4_counterexample :
  let r := Context.update_context Sample.get_time_group "Whiterun" 12 2%positive ∅
             Sample.world0 in
  Context.location (Context.ctx Sample.world0) = "Skyrim"
  /\ Context.deref (Context.heap (Context.final r)) 2%positive
       = ["A dragon roars."; "The location is now Whiterun.";
          "The time is 12 in the afternoon."]
  /\ str_contains "Skyrim" "The location is now Whiterun." = false
  /\ Forall (fun w' =>
               Context.deref (Context.heap w') 2%positive
                 ≠ Context.deref (Context.heap Sample.world0) 2%positive ->
               Context.location (Context.ctx w') = "Whiterun")
       (Context.trace r).
Proof.
  cbv zeta. split; [reflexivity |]. split; [reflexivity |]. split; [reflexivity |].
  unfold Context.trace. rewrite update_context_trace. cbn [snd].
  repeat constructor; cbn; intros Hgrown; try reflexivity.
  all: exfalso; apply Hgrown; reflexivity.
Qed.

Lemma C4_location_overwritten_then_event_witness :
  let r := Context.update_context Sample.get_time_group "Whiterun" 12 2%positive ∅
             Sample.world0 in
  (exists w1 w2 w3 w4 rest,
     Context.trace r = w1 :: w2 :: w3 :: w4 :: rest
     /\ Context.location (Context.ctx w2) = "Skyrim"
     /\ Context.deref (Context.heap w2) 2%positive = ["A dragon roars."]
     /\ Context.location (Context.ctx w3) = "Whiterun"
     /\ Context.deref (Context.heap w3) 2%positive = ["A dragon roars."]
     /\ Context.deref (Context.heap w4) 2%positive
          = ["A dragon roars."; "The location is now Whiterun."]).
Proof.
  destruct (C4_location_overwritten_then_event Sample.get_time_group Sample.world0
              "Whiterun" 12 2%positive ∅)
    as (_ & [rest Htrace] & _ & H2 & H3 & H3' & _ & H4).
  - vm_compute. discriminate.
  - cbv zeta. do 5 eexists. split; [exact Htrace |].
    split; [exact H2 |]. split; [reflexivity |]. split; [exact H3 |].
    split; [reflexivity |]. reflexivity.
Defined.

(** The claim of C10 fails on the code: a caller that hands in the list it
    got from [get_context_ingame_events] finds the location and time events
    of that very call in the context's queue. *)
Lemma C10_counterexample :
  let q := Context.get_context_ingame_events (Context.ctx Sample.world0) in
  let r := Context.update_context Sample.get_time_group "Whiterun" 12 q ∅ Sample.world0 in
  Context.deref (Context.heap (Context.final r))
    (Context.get_context_ingame_events (Context.ctx (Context.final r)))
  = ["Lydia is now in combat!"; "Lydia is now in combat!";
     "The location is now Whiterun."; "The time is 12 in the afternoon."].
Proof. reflexivity. Qed.

Lemma C10_events_only_in_callers_list_witness :
  let r := Context.update_context Sample.get_time_group "Whiterun" 12 2%positive ∅
             Sample.world0 in
  Context.deref (Context.heap (Context.final r)) 2%positive
    = ["A dragon roars."; "The location is now Whiterun.";
       "The time is 12 in the afternoon."]
  /\ Context.deref (Context.heap (Context.final r)) 1%positive
       = ["Lydia is now in combat!"; "A dragon roars."].
Proof.
  destruct (C10_events_only_in_callers_list Sample.get_time_group Sample.world0
              "Whiterun" 12 2%positive ∅) as (_ & Hev & _ & Hq).
  - vm_compute. discriminate.
  - split; [exact Hev | exact Hq].
Defined.

Lemma C9_repeated_update_appends_nothing_witness :
  let w1 := Context.final (Context.update_context Sample.get_time_group "Whiterun" 12
                             2%positive ∅ Sample.world0) in
  Context.heap (Context.final (Context.update_context Sample.get_time_group "Whiterun" 12
                                 3%positive ∅ w1))
  = Context.heap (Context.list_extend 1%positive 3%positive w1).
Proof.
  destruct (C9_repeated_update_appends_nothing Sample.get_time_group Sample.world0
              "Whiterun" 12 2%positive ∅ 3%positive ∅) as (_ & Hheap & _).
  exact Hheap.
Defined.

(** ** Resolving a character *)

Section Split.

Lemma split_go_nonempty sep s : forall skip acc, split_go sep skip acc s <> [].
Proof.
  induction s as [|ch s IH]; intros skip acc; cbn [split_go]; [done |].
  destruct skip; [| apply IH].
  destruct (String.prefix sep (String ch s)); [done | apply IH].
Qed.

(** Splitting at a one-character separator yields a second piece exactly
    when the separator occurs. *)
Lemma split_char_second ch s : forall acc,
  str_contains (String ch "") s = negb (bool_decide (length (split_go (String ch "") 0 acc s) = 1%nat)).
Proof.
  induction s as [|d s IH]; intros acc; [reflexivity |].
  cbn [str_contains split_go String.prefix String.length].
  destruct (ascii_dec ch d) as [-> | Hne]; [| apply IH].
  assert (Hp : String.prefix "" s = true) by (destruct s; reflexivity).
  rewrite Hp. cbn [length].
  pose proof (split_go_nonempty (String d "") s (1 - 1) []) as Hnil.
  destruct (split_go (String d "") (1 - 1) [] s); done.
Qed.

Lemma extract_race_outcome race_descriptor :
  if str_contains "<" race_descriptor
  then exists character_race, Gameable.extract_race race_descriptor = Returns character_race
  else Gameable.extract_race race_descriptor = Raises IndexError.
Proof.
  unfold Gameable.extract_race, str_split.
  rewrite (split_char_second "<" race_descriptor []).
  pose proof (split_go_nonempty "<" race_descriptor 0 []) as Hnil.
  destruct (split_go "<" 0 [] race_descriptor) as [|first [|after rest]]; [done | |].
  - reflexivity.
  - cbn. pose proof (split_go_nonempty "Race " after 0 []) as Hnil'.
    destruct (split_go "Race " 0 [] after) as [|character_race ?]; [done |].
    cbn -[bool_decide]. rewrite bool_decide_eq_false_2 by lia. cbn. eauto.
Qed.

End Split.

Section Resolver.
Import Gameable Cascade Table.
Variable load_unnamed_npc : string -> string -> Z -> string -> gmap string cell.

Abbreviation find_info := (find_character_info load_unnamed_npc).

Lemma mask_and_map (p q : row -> bool) df :
  mask_and (map p df) (map q df) = map (both p q) df.
Proof. induction df as [|r df IH]; [reflexivity |]. cbn. by rewrite IH. Qed.

Lemma mask_any_map (p : row -> bool) df : mask_any (map p df) = existsb p df.
Proof. induction df as [|r df IH]; [reflexivity |]. cbn. by rewrite <- IH. Qed.

Lemma first_record_map (p : row -> bool) table :
  first_record table (map p (rows table))
  = match List.find p (rows table) with
    | Some r => Returns (to_dict (columns table) r)
    | None => Raises IndexError
    end.
Proof.
  unfold first_record, to_dict_records, loc. cbn [columns rows].
  induction (rows table) as [|r df IH]; [reflexivity |].
  cbn. destruct (p r); [reflexivity | exact IH].
Qed.

(** What a resolvable table offers: the three columns, and a [base_id]
    column of text when there is no row. *)
Lemma resolvable_columns table :
  resolvable table = true ->
  exists d_id d_name d_race,
    columns table !! "base_id" = Some d_id
    /\ columns table !! "name" = Some d_name
    /\ columns table !! "race" = Some d_race
    /\ (rows table = [] -> d_id = ObjectDtype).
Proof.
  unfold resolvable, has_columns, has_column, id_column_is_text.
  destruct (columns table !! "base_id") as [d_id|]; [| done].
  destruct (columns table !! "name") as [d_name|]; [| done].
  destruct (columns table !! "race") as [d_race|]; [| done].
  intros H. exists d_id, d_name, d_race. split_and!; try reflexivity.
  intros Hnil. rewrite Hnil in H. by destruct d_id.
Qed.

Lemma apply_str_returns f d vs :
  (vs = [] -> d = ObjectDtype) ->
  apply_str f {| series_dtype := d; values := vs |} = Returns (map f vs).
Proof.
  unfold apply_str. cbn. destruct vs as [|v vs], d; try reflexivity.
  intros H. discriminate (H eq_refl).
Qed.

Lemma cells_nil label (df : list row) : map (cell_at label) df = [] -> df = [].
Proof. by destruct df. Qed.

(** The masks of the code are the tests of the cascade, row by row. *)
Lemma id_match_rows df character_id :
  lower_eq (map remove_leading_zeros (map (cell_at "base_id") df))
    (str_lstrip "0" (str_suffix 6 character_id))
  = map (id_ok character_id) df.
Proof. unfold lower_eq. rewrite !map_map. reflexivity. Qed.

Lemma name_match_rows df character_name :
  lower_eq (map cell_str (map (cell_at "name") df)) character_name
  = map (name_ok character_name) df.
Proof. unfold lower_eq. rewrite !map_map. reflexivity. Qed.

Lemma race_match_rows df character_race :
  lower_eq (map cell_str (map (cell_at "race") df)) character_race
  = map (race_ok character_race) df.
Proof. unfold lower_eq. rewrite !map_map. reflexivity. Qed.

Lemma partial_id_mask_rows table d_id character_id length :
  columns table !! "base_id" = Some d_id ->
  (rows table = [] -> d_id = ObjectDtype) ->
  partial_id_mask table character_id length
  = Returns (map (partial_ok length character_id) (rows table)).
Proof.
  intros Hcol Htext. unfold partial_id_mask, getitem. rewrite Hcol. cbn [bind].
  rewrite apply_str_returns by (intros Hnil; apply Htext, (cells_nil _ _ Hnil)).
  cbn [bind]. unfold lower_eq. rewrite !map_map. reflexivity.
Qed.

(** The loop over the lengths 5, 4 and 3 settles on the first length at
    which some row matches. *)
Lemma partial_id_loop_length table d_id character_id :
  columns table !! "base_id" = Some d_id ->
  (rows table = [] -> d_id = ObjectDtype) ->
  partial_id_loop table character_id [5; 4; 3]%nat (map (fun _ => false) (rows table))
  = Returns (map (partial_ok (partial_length (rows table) character_id) character_id)
               (rows table)).
Proof.
  intros Hcol Htext. unfold partial_length. cbn [partial_id_loop].
  assert (Hnone : mask_any (map (fun _ : row => false) (rows table)) = false).
  { rewrite mask_any_map. clear. induction (rows table); [reflexivity | assumption]. }
  rewrite Hnone, (partial_id_mask_rows table d_id character_id 5 Hcol Htext).
  cbn [bind]. rewrite mask_any_map.
  destruct (existsb (partial_ok 5 character_id) (rows table)); [reflexivity |].
  rewrite (partial_id_mask_rows table d_id character_id 4 Hcol Htext). cbn [bind].
  rewrite mask_any_map.
  destruct (existsb (partial_ok 4 character_id) (rows table)); [reflexivity |].
  rewrite (partial_id_mask_rows table d_id character_id 3 Hcol Htext). reflexivity.
Qed.

(** On a resolvable table the nested [try]/[except] of the code is the
    cascade over the seven tiers. *)
Lemma find_character_info_cascade self table character_id character_name
    race_descriptor character_race gender ingame_voice_model :
  character_df self = Some table ->
  resolvable table = true ->
  extract_race race_descriptor = Returns character_race ->
  find_info self character_id character_name race_descriptor gender ingame_voice_model
  = Returns (cascade (columns table)
               (tiers (rows table) character_id character_name character_race)
               (rows table)
               (load_unnamed_npc character_name character_race gender ingame_voice_model)).
Proof.
  intros Hdf Hres Hrace.
  destruct (resolvable_columns table Hres)
    as (d_id & d_name & d_race & Hid & Hname & Hrc & Htext).
  unfold find_character_info, get_df, getitem.
  rewrite Hdf. cbn [bind]. rewrite Hid. cbn [bind].
  rewrite apply_str_returns by (intros Hnil; apply Htext, (cells_nil _ _ Hnil)).
  cbn [bind]. rewrite Hname. cbn [bind]. rewrite Hrace. cbn [bind].
  rewrite Hrc. cbn [bind].
  rewrite (partial_id_loop_length table d_id character_id Hid Htext). cbn [bind].
  unfold astype_str. cbn [values].
  rewrite id_match_rows, name_match_rows, race_match_rows.
  rewrite !mask_and_map, !first_record_map.
  unfold tiers. cbn [cascade].
  repeat match goal with
         | |- context [List.find ?p (rows table)] =>
             destruct (List.find p (rows table)); cbn; try reflexivity
         end.
Qed.

Lemma find_none_existsb (p : row -> bool) df :
  existsb p df = false -> List.find p df = None.
Proof.
  induction df as [|r df IH]; [reflexivity |]. cbn.
  destruct (p r); [discriminate | exact IH].
Qed.

(** The cascade returns the first row of a tier when no earlier tier
    matches a row. *)
Lemma cascade_first labels ts df generic : forall k tier r,
  ts !! k = Some tier ->
  (forall j tier', (j < k)%nat -> ts !! j = Some tier' -> existsb tier' df = false) ->
  List.find tier df = Some r ->
  cascade labels ts df generic = (to_dict labels r, false).
Proof.
  induction ts as [|t ts IH]; intros [|k] tier r Hk Hearlier Hfind; try discriminate.
  - cbn in Hk. injection Hk as ->. cbn. by rewrite Hfind.
  - cbn. rewrite (find_none_existsb t df) by (apply (Hearlier 0%nat); [lia | reflexivity]).
    apply (IH k tier r Hk); [| exact Hfind].
    intros j tier' Hj Hl. apply (Hearlier (S j)); [lia | exact Hl].
Qed.

(** The cascade ends in the generic record exactly when no tier matches
    a row. *)
Lemma cascade_generic labels ts df generic :
  ((cascade labels ts df generic).2 = true
   <-> forall tier, tier ∈ ts -> existsb tier df = false)
  /\ ((cascade labels ts df generic).2 = true -> (cascade labels ts df generic).1 = generic).
Proof.
  induction ts as [|t ts [IH1 IH2]]; cbn.
  - split; [| done]. split; [| done]. intros _ tier Hin. by apply elem_of_nil in Hin.
  - destruct (List.find t df) as [r|] eqn:Hfind; cbn.
    + split; [| done]. split; [done |]. intros Hall.
      rewrite (find_none_existsb t df) in Hfind; [done |]. apply Hall. left.
    + split; [| exact IH2]. rewrite IH1. split.
      * intros Hall tier Hin. apply elem_of_cons in Hin as [-> | Hin]; [| by apply Hall].
        destruct (existsb t df) eqn:Hex; [| reflexivity].
        apply existsb_exists in Hex as (r & Hin & Hp).
        rewrite (find_none _ _ Hfind r Hin) in Hp. discriminate.
      * intros Hall tier Hin. apply Hall. by right.
Qed.

(** C2, amended: on a table that was loaded, has the columns [base_id],
    [name] and [race] and is not an empty table whose [base_id] column is
    of a numeric dtype, and for a race descriptor that contains the
    delimiter [<], [find_character_info] raises nothing; it returns the
    record of [load_unnamed_npc] with the generic flag set when no tier
    matches a row, and the flag is set in that case only. *)
Theorem C2_resolution_falls_back_to_generic self table character_id character_name
    race_descriptor gender ingame_voice_model :
  character_df self = Some table ->
  resolvable table = true ->
  str_contains "<" race_descriptor = true ->
  exists character_race info generic,
    extract_race race_descriptor = Returns character_race
    /\ find_info self character_id character_name race_descriptor gender ingame_voice_model
         = Returns (info, generic)
    /\ (generic = true <->
          forall tier,
            tier ∈ tiers (rows table) character_id character_name character_race ->
            existsb tier (rows table) = false)
    /\ (generic = true ->
          info = load_unnamed_npc character_name character_race gender ingame_voice_model).
Proof.
  intros Hdf Hres Hlt.
  pose proof (extract_race_outcome race_descriptor) as Hrace. rewrite Hlt in Hrace.
  destruct Hrace as [character_race Hrace].
  pose proof (find_character_info_cascade self table character_id character_name
                race_descriptor character_race gender ingame_voice_model Hdf Hres Hrace)
    as Hfind.
  pose proof (cascade_generic (columns table)
                (tiers (rows table) character_id character_name character_race)
                (rows table)
                (load_unnamed_npc character_name character_race gender ingame_voice_model))
    as [Hiff Hinfo].
  destruct (cascade _ _ (rows table) _) as [info generic].
  exists character_race, info, generic. done.
Qed.

(** C6, amended: on a resolvable table the tiers are tried in the order
    name + full id + race, name + full id, name + partial id + race,
    name + partial id, name + race, name only, full id only; the first
    row of the first tier that matches any row is returned, the generic
    record when none does.  The last tier compares the full id only. *)
Theorem C6_first_matching_tier_wins self table character_id character_name
    race_descriptor character_race gender ingame_voice_model :
  character_df self = Some table ->
  resolvable table = true ->
  extract_race race_descriptor = Returns character_race ->
  let df := rows table in
  let by_name := name_ok character_name in
  let by_race := race_ok character_race in
  let by_id := id_ok character_id in
  let by_partial_id := partial_ok (partial_length df character_id) character_id in
  let ts := [both (both by_name by_id) by_race; both by_name by_id;
             both (both by_name by_partial_id) by_race; both by_name by_partial_id;
             both by_name by_race; by_name; by_id] in
  let result :=
    find_info self character_id character_name race_descriptor gender ingame_voice_model in
  (forall k tier r,
      ts !! k = Some tier ->
      (forall j tier', (j < k)%nat -> ts !! j = Some tier' -> existsb tier' df = false) ->
      List.find tier df = Some r ->
      result = Returns (to_dict (columns table) r, false))
  /\ ((forall tier, tier ∈ ts -> existsb tier df = false) ->
      result = Returns
                 (load_unnamed_npc character_name character_race gender ingame_voice_model,
                  true)).
Proof.
  intros Hdf Hres Hrace. cbv zeta.
  rewrite (find_character_info_cascade self table character_id character_name
             race_descriptor character_race gender ingame_voice_model Hdf Hres Hrace).
  split.
  - intros k tier r Hk Hearlier Hfind. f_equal.
    exact (cascade_first _ _ (rows table) _ k tier r Hk Hearlier Hfind).
  - intros Hnone.
    pose proof (cascade_generic (columns table)
                  (tiers (rows table) character_id character_name character_race)
                  (rows table)
                  (load_unnamed_npc character_name character_race gender ingame_voice_model))
      as [Hiff Hinfo].
    apply Hiff in Hnone. specialize (Hinfo Hnone).
    destruct (cascade _ _ (rows table) _) as [info generic]. cbn in *. by subst.
Qed.

End Resolver.

(** The claim of C2 fails on the code: a race descriptor without the
    delimiter [<] makes the extraction of the race raise. *)
Lemma C2_counterexample :
  str_contains "<" "Nord" = false
  /\ Gameable.find_character_info SampleGame.load_unnamed_npc SampleGame.game
       "00012AB" "Lydia" "Nord" 0 "FemaleNord" = Raises IndexError.
Proof. split; reflexivity. Qed.

Lemma C2_resolution_falls_back_to_generic_witness :
  exists character_race info generic,
    Gameable.extract_race "<NordRace (00013746)>" = Returns character_race
    /\ Gameable.find_character_info SampleGame.load_unnamed_npc SampleGame.town
         "FF12AB" "Bandit" "<NordRace (00013746)>" 0 "MaleBrute" = Returns (info, generic)
    /\ (generic = true <->
          forall tier,
            tier ∈ Cascade.tiers
                     [SampleGame.guard_row; SampleGame.lydia_row;
                      SampleGame.imperial_lydia_row]
                     "FF12AB" "Bandit" character_race ->
            existsb tier [SampleGame.guard_row; SampleGame.lydia_row;
                          SampleGame.imperial_lydia_row] = false)
    /\ (generic = true ->
          info = SampleGame.load_unnamed_npc "Bandit" character_race 0 "MaleBrute").
Proof.
  apply (C2_resolution_falls_back_to_generic SampleGame.load_unnamed_npc SampleGame.town
           (SampleGame.table [SampleGame.guard_row; SampleGame.lydia_row;
                              SampleGame.imperial_lydia_row])); reflexivity.
Defined.

(** The claim of C6 fails on the code: a query whose name matches no row
    and whose id matches a row at the partial length 4 only is resolved as a
    generic character, while a last tier that accepted the partial id would
    return that row. *)
Lemma C6_counterexample :
  let df := [SampleGame.lydia_row] in
  let generic := SampleGame.load_unnamed_npc "Bandit" "Nord" 0 "MaleBrute" in
  Gameable.extract_race "<NordRace (00013746)>" = Returns "Nord"
  /\ Cascade.id_ok "FF12AB" SampleGame.lydia_row = false
  /\ Cascade.partial_length df "FF12AB" = 4%nat
  /\ Cascade.partial_ok 4 "FF12AB" SampleGame.lydia_row = true
  /\ Gameable.find_character_info SampleGame.load_unnamed_npc SampleGame.game
       "FF12AB" "Bandit" "<NordRace (00013746)>" 0 "MaleBrute" = Returns (generic, true)
  /\ Cascade.cascade SampleGame.labels (Cascade.claimed_tiers df "FF12AB" "Bandit" "Nord")
       df generic
       = (Gameable.to_dict SampleGame.labels SampleGame.lydia_row, false).
Proof. repeat split; reflexivity. Qed.

(** A query that falls through the first four tiers: no row has its id,
    in full or in part, the first row has neither its name nor its race,
    the second has its name only; the fifth tier, name and race, finds the
    third row. *)
Lemma C6_first_matching_tier_wins_witness :
  Gameable.find_character_info SampleGame.load_unnamed_npc SampleGame.town
    "0xFFFFFF" "LYDIA" "<ImperialRace (00013746)>" 0 "FemaleCommoner"
  = Returns (Gameable.to_dict SampleGame.labels SampleGame.imperial_lydia_row, false).
Proof.
  destruct (C6_first_matching_tier_wins SampleGame.load_unnamed_npc SampleGame.town
              (SampleGame.table [SampleGame.guard_row; SampleGame.lydia_row;
                                 SampleGame.imperial_lydia_row])
              "0xFFFFFF" "LYDIA" "<ImperialRace (00013746)>" "Imperial"
              0 "FemaleCommoner" eq_refl eq_refl eq_refl) as [Hfirst _].
  apply (Hfirst 4%nat _ SampleGame.imperial_lydia_row eq_refl).
  - intros j tier' Hj Hl.
    destruct j as [|[|[|[|j]]]]; [| | | | lia]; injection Hl as <-; reflexivity.
  - reflexivity.
Defined.

(** ** Construction of the game object *)

Section Construction.
Import Gameable.
Variable read_csv : string -> outcome frame.
Variable argv : list string.
Variable integrated_root : string.

Lemma loc_mask_filter (p : row -> bool) df :
  loc_mask df (map p df) = List.filter p df.
Proof.
  induction df as [|r df IH]; [reflexivity |]. cbn. destruct (p r); by rewrite IH.
Qed.

(** Rows without a voice model are dropped from the loaded table, which
    keeps its columns. *)
Lemma get_character_df_drops_rows file_name table d :
  read_csv file_name = Returns table ->
  columns table !! "voice_model" = Some d ->
  exists df, get_character_df read_csv file_name = Returns df
    /\ columns df = columns table
    /\ rows df = List.filter (fun r => notna (voice_model r)) (rows table)
    /\ Forall (fun r => voice_model r <> NaN) (rows df).
Proof.
  intros Hread Hcol. unfold get_character_df, getitem. rewrite Hread. cbn [bind].
  rewrite Hcol. cbn [bind values]. rewrite map_map.
  eexists. split; [reflexivity |]. cbn [loc columns rows].
  rewrite (loc_mask_filter (fun r => notna (voice_model r))).
  split; [reflexivity |]. split; [reflexivity |].
  apply Forall_forall. intros r Hin. apply list_elem_of_In, filter_In in Hin as [_ Hv].
  intros Hnan. rewrite Hnan in Hv. discriminate.
Qed.

(** When the reader raises, the constructor logs, prompts, and goes on:
    it returns an object that has no table. *)
Lemma init_after_failed_load path folder e :
  read_csv path = Raises e ->
  exists message self,
    init read_csv argv integrated_root path folder
      = ([LoggingError message; Input "Press Enter to exit.";
          SetGamePath (conversation_folder_path self)], Returns self)
    /\ character_df self = None.
Proof.
  intros Hread. unfold init, get_character_df. rewrite Hread. cbn [bind].
  match goal with
  | |- context [Returns {| character_df := None; conversation_folder_path := ?p |}] =>
      eexists _, {| character_df := None; conversation_folder_path := p |}
  end.
  split; reflexivity.
Qed.

End Construction.

(** C3: when the table cannot be read, the constructor emits the diagnostic
    and the blocking prompt and then, instead of ending the process, returns
    a game object without a table; the first resolution on that object
    raises. *)
Theorem C3_failed_load_does_not_end_startup :
  SampleGame.read_csv "data/broken.csv" = Raises OSError
  /\ Gameable.init SampleGame.read_csv [] "" "data/broken.csv" "Skyrim"
     = ([Gameable.LoggingError
           "Unable to read / open data/broken.csv. If you have recently edited this file, please try reverting to a previous version. This error is normally due to using special characters, or saving the CSV in an incompatible format.";
         Gameable.Input "Press Enter to exit.";
         Gameable.SetGamePath "data/Skyrim/conversations"],
        Returns {| Gameable.character_df := None;
                   Gameable.conversation_folder_path := "data/Skyrim/conversations" |})
  /\ Gameable.find_character_info SampleGame.load_unnamed_npc
       {| Gameable.character_df := None;
          Gameable.conversation_folder_path := "data/Skyrim/conversations" |}
       "00012AB" "Lydia" "<NordRace (00013746)>" 0 "FemaleEvenToned"
     = Raises AttributeError.
Proof. repeat split; reflexivity. Qed.

(** * Further properties of the code *)

(** ** Listings, names and bios *)

Section Listing.
Import Context.

Lemma prefix_refl s : String.prefix s s = true.
Proof.
  induction s as [|c s IH]; [reflexivity |]. cbn.
  destruct (ascii_dec c c); [exact IH | contradiction].
Qed.

Lemma prefix_app s a b : String.prefix s a = true -> String.prefix s (a ++ b) = true.
Proof.
  revert a. induction s as [|c s IH]; intros a H; [destruct (a ++ b); reflexivity |].
  destruct a as [|d a]; [discriminate |].
  change (String d a ++ b) with (String d (a ++ b)). cbn [String.prefix] in *.
  destruct (ascii_dec c d); [by apply IH | discriminate].
Qed.

Lemma str_contains_refl s : str_contains s s = true.
Proof. destruct s; cbn; [reflexivity |]. destruct (ascii_dec a a); [| contradiction].
  by rewrite prefix_refl. Qed.

Lemma str_contains_app_l needle a b :
  str_contains needle a = true -> str_contains needle (a ++ b) = true.
Proof.
  induction a as [|c a IH]; intros H.
  - cbn in H. destruct needle; [| discriminate]. destruct b; reflexivity.
  - cbn [str_contains] in H.
    destruct (String.prefix needle (String c a)) eqn:P.
    + change (String c a ++ b) with (String c (a ++ b)).
      cbn [str_contains]. change (String c (a ++ b)) with (String c a ++ b).
      by rewrite (prefix_app _ _ b P).
    + change (String c a ++ b) with (String c (a ++ b)). cbn [str_contains].
      destruct (String.prefix needle (String c (a ++ b))); [reflexivity | by apply IH].
Qed.

Lemma str_contains_app_r needle a b :
  str_contains needle b = true -> str_contains needle (a ++ b) = true.
Proof.
  intros H. induction a as [|c a IH]; [exact H |].
  change (String c a ++ b) with (String c (a ++ b)). cbn [str_contains].
  destruct (String.prefix needle (String c (a ++ b))); [reflexivity | exact IH].
Qed.

Lemma str_contains_join sep l x :
  x ∈ l -> str_contains x (str_join sep l) = true.
Proof.
  induction l as [|y l IH]; intros Hin; [by apply elem_of_nil in Hin |].
  apply elem_of_cons in Hin as [-> | Hin].
  - destruct l; cbn [str_join]; [apply str_contains_refl |].
    apply str_contains_app_l, str_contains_refl.
  - destruct l as [|z l]; [by apply elem_of_nil in Hin |].
    change (str_join sep (y :: z :: l)) with (y ++ sep ++ str_join sep (z :: l)).
    apply str_contains_app_r, str_contains_app_r, IH, Hin.
Qed.

Lemma format_listing_many xs y :
  xs <> [] -> format_listing (xs ++ [y]) = str_join ", " xs ++ " and " ++ y.
Proof.
  intros Hne. unfold format_listing.
  rewrite List.removelast_last, List.last_last.
  destruct xs as [|x [|x' xs]]; [done | reflexivity | reflexivity].
Qed.

Lemma format_listing_contains l x :
  x ∈ l -> str_contains x (format_listing l) = true.
Proof.
  intros Hin.
  destruct l as [|y l] using rev_ind; [by apply elem_of_nil in Hin |].
  clear IHl. destruct l as [|z l].
  - apply elem_of_cons in Hin as [-> | Hin]; [| by apply elem_of_nil in Hin].
    apply str_contains_refl.
  - rewrite format_listing_many by discriminate.
    apply elem_of_app in Hin as [Hin | Hin].
    + apply str_contains_app_l, str_contains_join, Hin.
    + apply elem_of_cons in Hin as [-> | Hin]; [| by apply elem_of_nil in Hin].
      apply str_contains_app_r, str_contains_app_r, str_contains_refl.
Qed.

(** The three shapes of a listing: nothing, the item itself, and for two
    items or more everything but the last joined by commas, then [and] and
    the last. *)
Theorem format_listing_shapes :
  format_listing [] = ""
  /\ (forall x, format_listing [x] = x)
  /\ (forall xs y, xs <> [] ->
        format_listing (xs ++ [y]) = str_join ", " xs ++ " and " ++ y).
Proof.
  split; [reflexivity |]. split; [reflexivity |]. apply format_listing_many.
Qed.

Lemma format_listing_shapes_witness :
  format_listing (["Lydia"; "Faendal"] ++ ["Jarl Balgruuf"])
  = "Lydia, Faendal and Jarl Balgruuf".
Proof.
  destruct format_listing_shapes as (_ & _ & Hmany).
  rewrite Hmany; [reflexivity | discriminate].
Defined.

(** Every item of a list can be read in its listing. *)
Theorem format_listing_mentions_every_item l x :
  x ∈ l -> str_contains x (format_listing l) = true.
Proof. apply format_listing_contains. Qed.

Lemma format_listing_mentions_every_item_witness :
  str_contains "Faendal" (format_listing ["Lydia"; "Faendal"; "Jarl Balgruuf"]) = true.
Proof.
  apply (format_listing_mentions_every_item ["Lydia"; "Faendal"; "Jarl Balgruuf"]).
  apply elem_of_cons. right. apply elem_of_cons. left. reflexivity.
Defined.

End Listing.

Section RosterViews.
Import Context ContextOps.

Lemma set_key_entries key ch l entry :
  entry ∈ Characters.set_key key ch l -> entry ∈ l \/ entry.2 = ch.
Proof.
  induction l as [|[k d] l IH]; cbn; intros Hin.
  - apply elem_of_cons in Hin as [-> | Hin]; [by right | by apply elem_of_nil in Hin].
  - destruct (String.eqb k key).
    + apply elem_of_cons in Hin as [-> | Hin]; [by right | left; by right].
    + apply elem_of_cons in Hin as [-> | Hin]; [left; by left |].
      destruct (IH Hin) as [? | ?]; [left; by right | by right].
Qed.

Lemma set_key_keeps_keys key ch l k :
  k ∈ map fst l \/ k = key -> k ∈ map fst (Characters.set_key key ch l).
Proof.
  induction l as [|[k' d] l IH]; cbn; intros [Hin | ->].
  - by apply elem_of_nil in Hin.
  - by left.
  - destruct (String.eqb k' key); cbn.
    + exact Hin.
    + apply elem_of_cons in Hin as [-> | Hin]; [by left | right; apply IH; by left].
  - destruct (String.eqb_spec k' key) as [-> | Hne]; cbn; [by left |].
    right. apply IH. by right.
Qed.

(** The step of the loop in [get_characters_excluding_player]. *)
Lemma excluding_fold actors : forall acc,
  let result :=
    fold_left
      (fun new_characters actor =>
         if negb (Character.is_player_character actor)
         then Characters.add_character new_characters actor
         else new_characters) actors acc in
  (forall x, x ∈ Characters.get_all_characters result ->
     x ∈ Characters.get_all_characters acc
     \/ (x ∈ actors /\ Character.is_player_character x = false))
  /\ (forall k, k ∈ Characters.get_all_names acc -> k ∈ Characters.get_all_names result)
  /\ (forall x, x ∈ actors -> Character.is_player_character x = false ->
        Character.name x ∈ Characters.get_all_names result).
Proof.
  induction actors as [|actor actors IH]; intros acc; cbn.
  - split; [by left |]. split; [done |]. intros x Hin. by apply elem_of_nil in Hin.
  - destruct (Character.is_player_character actor) eqn:Hp; cbn [negb].
    + destruct (IH acc) as (Hall & Hkeep & Hnames). split_and!.
      * intros x Hx. destruct (Hall x Hx) as [? | [? ?]]; [by left | right; split; [by right | done]].
      * exact Hkeep.
      * intros x Hx Hnp. apply elem_of_cons in Hx as [-> | Hx]; [congruence | by apply Hnames].
    + destruct (IH (Characters.add_character acc actor)) as (Hall & Hkeep & Hnames).
      split_and!.
      * intros x Hx. destruct (Hall x Hx) as [Hacc | [? ?]]; [| right; split; [by right | done]].
        unfold Characters.get_all_characters, Characters.add_character in Hacc. cbn in Hacc.
        apply list_elem_of_fmap in Hacc as (entry & -> & Hentry).
        apply set_key_entries in Hentry as [Hold | ->].
        -- left. apply list_elem_of_fmap. eauto.
        -- right. split; [by left | done].
      * intros k Hk. apply Hkeep. apply set_key_keeps_keys. by left.
      * intros x Hx Hnp. apply elem_of_cons in Hx as [-> | Hx]; [| by apply Hnames].
        apply Hkeep. apply set_key_keeps_keys. by right.
Qed.

(** The roster without the player holds no player character, holds only
    characters of the conversation, and keeps the name of every character
    that is not the player. *)
Theorem excluding_player_keeps_exactly_the_npcs c :
  let npcs := get_characters_excluding_player c in
  let everyone := Characters.get_all_characters (npcs_in_conversation c) in
  Characters.get_player_character npcs = None
  /\ (forall x, x ∈ Characters.get_all_characters npcs ->
        Character.is_player_character x = false /\ x ∈ everyone)
  /\ (forall x, x ∈ everyone -> Character.is_player_character x = false ->
        Character.name x ∈ Characters.get_all_names npcs).
Proof.
  cbv zeta. unfold get_characters_excluding_player.
  destruct (excluding_fold (Characters.get_all_characters (npcs_in_conversation c))
              Characters.empty) as (Hall & _ & Hnames).
  cbv zeta in Hall, Hnames.
  assert (Hnp : forall x,
             x ∈ Characters.get_all_characters
                   (fold_left
                      (fun new_characters actor =>
                         if negb (Character.is_player_character actor)
                         then Characters.add_character new_characters actor
                         else new_characters)
                      (Characters.get_all_characters (npcs_in_conversation c))
                      Characters.empty) ->
             Character.is_player_character x = false
             /\ x ∈ Characters.get_all_characters (npcs_in_conversation c)).
  { intros x Hx. destruct (Hall x Hx) as [Hempty | [? ?]]; [| done].
    by apply elem_of_nil in Hempty. }
  split_and!; [| exact Hnp | exact Hnames].
  unfold Characters.get_player_character.
  destruct (List.find _ _) as [p|] eqn:Hfind; [| reflexivity].
  apply find_some in Hfind as [Hin Hp]. apply list_elem_of_In in Hin.
  destruct (Hnp p Hin) as [Hfalse _]. congruence.
Qed.

Lemma excluding_player_keeps_exactly_the_npcs_witness :
  Characters.get_all_names
    (get_characters_excluding_player
       (set_npcs_in_conversation
          (Characters.add_character
             (Characters.add_character Characters.empty Sample2.player) Sample.lydia)
          Sample.empty_context))
  = ["Lydia"]
  /\ "Lydia" ∈ Characters.get_all_names
       (get_characters_excluding_player
          (set_npcs_in_conversation
             (Characters.add_character
                (Characters.add_character Characters.empty Sample2.player) Sample.lydia)
             Sample.empty_context)).
Proof.
  split; [reflexivity |].
  destruct (excluding_player_keeps_exactly_the_npcs
              (set_npcs_in_conversation
                 (Characters.add_character
                    (Characters.add_character Characters.empty Sample2.player) Sample.lydia)
                 Sample.empty_context)) as (_ & _ & Hnames).
  apply (Hnames Sample.lydia); [| reflexivity].
  apply elem_of_cons. right. apply elem_of_cons. by left.
Defined.

(** The bio of a character stands alone only when the roster, the player
    included, has exactly one character.  A roster of one yields the bare
    bio of its character, and the empty text when that character is the
    player.  Every other roster yields one line per character that is not
    the player, each with the name in front of the bio, whether or not a
    player is in the roster. *)
Theorem bios_text_is_bare_only_for_a_roster_of_one c :
  let everyone := Characters.get_all_characters (npcs_in_conversation c) in
  let npcs := Characters.get_all_characters (get_characters_excluding_player c) in
  let labelled ch := Character.name ch ++ ": " ++ Character.bio ch in
  (forall x, everyone = [x] ->
     get_bios_text c = if Character.is_player_character x then "" else Character.bio x)
  /\ (length everyone <> 1%nat ->
      get_bios_text c = str_join (String "010" "") (map labelled npcs)
      /\ forall x, x ∈ npcs -> str_contains (labelled x) (get_bios_text c) = true).
Proof.
  cbv zeta. unfold get_bios_text, get_characters_excluding_player, Characters.len,
    Characters.get_all_characters.
  split.
  - intros x Hone.
    destruct (Characters.active_characters (npcs_in_conversation c)) as [|[k y] [|? ?]];
      try discriminate.
    cbn in Hone. injection Hone as ->. cbn.
    destruct (Character.is_player_character x); reflexivity.
  - rewrite length_map. intros Hlen.
    apply Nat.eqb_neq in Hlen. rewrite Hlen.
    split; [reflexivity |].
    intros x Hx. apply str_contains_join.
    apply (list_elem_of_fmap_2 (fun ch => Character.name ch ++ ": " ++ Character.bio ch)).
    exact Hx.
Qed.

(** Two characters and no player: each bio has its name in front. *)
Lemma bios_text_is_bare_only_for_a_roster_of_one_witness :
  get_bios_text
    (set_npcs_in_conversation
       (Characters.add_character (Characters.add_character Characters.empty Sample.lydia)
          Sample2.farkas) Sample.empty_context)
  = "Lydia: Housecarl." ++ String "010" "Farkas: Companion."
  /\ get_bios_text
       (set_npcs_in_conversation (Characters.add_character Characters.empty Sample.lydia)
          Sample.empty_context)
     = "Housecarl.".
Proof.
  destruct (bios_text_is_bare_only_for_a_roster_of_one
              (set_npcs_in_conversation
                 (Characters.add_character
                    (Characters.add_character Characters.empty Sample.lydia)
                    Sample2.farkas) Sample.empty_context)) as [_ Hmany].
  destruct Hmany as [Htext _]; [cbn; lia |].
  destruct (bios_text_is_bare_only_for_a_roster_of_one
              (set_npcs_in_conversation
                 (Characters.add_character Characters.empty Sample.lydia)
                 Sample.empty_context)) as [Hone _].
  split; [exact Htext | exact (Hone Sample.lydia eq_refl)].
Defined.

(** The text of names that goes into the prompt mentions every character
    of the conversation that is not the player, and with the player
    included it mentions every name of the roster. *)
Theorem names_text_mentions_every_character c :
  (forall x, x ∈ Characters.get_all_characters (npcs_in_conversation c) ->
     Character.is_player_character x = false ->
     str_contains (Character.name x) (get_character_names_as_text c false) = true)
  /\ (forall k, k ∈ Characters.get_all_names (npcs_in_conversation c) ->
        str_contains k (get_character_names_as_text c true) = true).
Proof.
  unfold get_character_names_as_text. split.
  - intros x Hx Hnp. apply format_listing_contains.
    unfold get_characters_excluding_player.
    destruct (excluding_fold (Characters.get_all_characters (npcs_in_conversation c))
                Characters.empty) as (_ & _ & Hnames).
    by apply Hnames.
  - intros k Hk. by apply format_listing_contains.
Qed.

Lemma names_text_mentions_every_character_witness :
  str_contains "Lydia"
    (get_character_names_as_text
       (set_npcs_in_conversation
          (Characters.add_character
             (Characters.add_character Characters.empty Sample2.player) Sample.lydia)
          Sample.empty_context) false) = true.
Proof.
  destruct (names_text_mentions_every_character
              (set_npcs_in_conversation
                 (Characters.add_character
                    (Characters.add_character Characters.empty Sample2.player) Sample.lydia)
                 Sample.empty_context)) as [Hnpc _].
  apply (Hnpc Sample.lydia); [| reflexivity].
  apply elem_of_cons. right. apply elem_of_cons. by left.
Defined.

End RosterViews.

(** ** The event queue and the fields of the context *)

Section Events.
Import Context ContextOps Trace.
Variable get_time_group : Z -> string.

Abbreviation update' := (update_context get_time_group).
Abbreviation due' := (due_events get_time_group).

(** [str] of an integer is never the empty text. *)
Lemma pretty_N_go_nonempty x : forall s, s <> "" -> pretty_N_go x s <> "".
Proof.
  induction (N.lt_wf_0 x) as [x _ IH]; intros s Hs.
  destruct (decide (x = 0)%N) as [-> | Hx]; [by rewrite pretty_N_go_0 |].
  rewrite pretty_N_go_step by lia.
  apply IH; [apply N.div_lt; lia | discriminate].
Qed.

Lemma str_of_int_nonempty n : str_of_int n <> "".
Proof.
  assert (Hpos : forall p : positive, pretty p <> "").
  { intros p. unfold pretty, pretty_positive, pretty, pretty_N.
    destruct (decide (N.pos p = 0)%N); [discriminate |].
    rewrite pretty_N_go_step by lia. apply pretty_N_go_nonempty. discriminate. }
  unfold str_of_int. destruct n as [|p|p]; cbn; [discriminate | apply Hpos | discriminate].
Qed.

(** After [update_context] the location, the time, the custom values and
    the recorded pair are those of the call; the roster, the flag of
    changed actors, the language table and the queue object are the ones
    from before. *)
Theorem update_context_sets_its_fields_only w new_location t ev cv :
  let c := ctx w in
  let c' := ctx (final (update' new_location t ev cv w)) in
  location c' = new_location
  /\ ingame_time c' = t
  /\ custom_context_values c' = cv
  /\ prev_game_time c' = (str_of_int t, get_time_group t)
  /\ npcs_in_conversation c' = npcs_in_conversation c
  /\ have_actors_changed c' = have_actors_changed c
  /\ language c' = language c
  /\ ingame_events c' = ingame_events c.
Proof.
  cbv zeta. rewrite update_context_trace. unfold final. cbn [fst snd].
  repeat case_bool_decide; cbn; split_and!; try done.
  all: match goal with H : ¬ _ ≠ _ |- _ => apply dec_stable in H; done end.
Qed.

(** The custom values are replaced as a whole: after a call a key reads
    what the bag of that call holds for it, [None] when the bag has no such
    key, whatever an earlier bag held. *)
Theorem custom_context_values_are_replaced_wholesale w new_location t ev cv key :
  get_custom_context_value (ctx (final (update' new_location t ev cv w))) key
  = match cv !! key with Some v => v | None => PyNone end.
Proof.
  unfold get_custom_context_value.
  destruct (update_context_fields get_time_group w new_location t ev cv)
    as (_ & _ & _ & -> & _).
  reflexivity.
Qed.

(** What [update_context] leaves in the heap: the queue gets the caller's
    list appended, and on top of that the due events when the caller's list
    is the queue itself; the caller's list gets the due events; every other
    list is untouched. *)
Theorem update_context_heap_effect w new_location t ev cv :
  let q := ingame_events (ctx w) in
  let h := heap w in
  let h' := heap (final (update' new_location t ev cv w)) in
  let events := due' (ctx w) new_location t in
  deref h' q
    = (deref h q ++ deref h ev ++ (if decide (ev = q) then events else []))%list
  /\ (ev <> q -> deref h' ev = (deref h ev ++ events)%list)
  /\ (forall other, other <> q -> other <> ev -> h' !! other = h !! other)
  /\ (length events <= 2)%nat.
Proof.
  cbv zeta. rewrite update_context_heap. unfold due_events, list_appends.
  split_and!.
  - destruct (decide (ev = ingame_events (ctx w))) as [-> | Hne].
    + repeat case_bool_decide; cbn; rewrite ?deref_insert_eq, ?app_nil_r, <- ?app_assoc;
        reflexivity.
    + repeat case_bool_decide; cbn;
        rewrite ?(deref_insert_ne _ _ _ _ Hne), ?deref_insert_eq, ?app_nil_r; reflexivity.
  - intros Hne.
    repeat case_bool_decide; cbn;
      rewrite ?deref_insert_eq, ?(deref_insert_ne _ _ _ _ (not_eq_sym Hne)), ?app_nil_r,
        <- ?app_assoc; reflexivity.
  - intros other Hq Hev.
    repeat case_bool_decide; cbn; rewrite ?lookup_insert_ne by done; reflexivity.
  - repeat case_bool_decide; cbn; lia.
Qed.

End Events.

Lemma update_context_heap_effect_witness :
  Context.deref
    (Context.heap (Context.final (Context.update_context Sample.get_time_group "Whiterun" 12
                                    2%positive ∅ Sample.world0))) 2%positive
  = ["A dragon roars."; "The location is now Whiterun."; "The time is 12 in the afternoon."].
Proof.
  destruct (update_context_heap_effect Sample.get_time_group Sample.world0 "Whiterun" 12 2%positive ∅)
    as (_ & Hev & _).
  rewrite Hev; [reflexivity | discriminate].
Defined.


Section EventsOverTime.
Import Context ContextOps Trace.
Variable get_time_group : Z -> string.

(** Clearing empties the queue object in place: the context keeps all its
    fields, every other list keeps its contents, and a caller's list that
    received the events of an earlier [update_context] still holds them. *)
Theorem clear_empties_the_queue_only w :
  let w' := final (clear_context_ingame_events w) in
  let q := get_context_ingame_events (ctx w) in
  ctx w' = ctx w
  /\ deref (heap w') q = []
  /\ (forall other, other <> q -> heap w' !! other = heap w !! other)
  /\ (forall new_location t ev cv,
        ev <> q ->
        let w1 := final (update_context get_time_group new_location t ev cv w) in
        deref (heap (final (clear_context_ingame_events w1))) ev
        = (deref (heap w) ev ++ due_events get_time_group (ctx w) new_location t)%list
        /\ deref (heap (final (clear_context_ingame_events w1)))
             (get_context_ingame_events (ctx w1)) = []).
Proof.
  assert (Hclear : forall v,
             final (clear_context_ingame_events v) = list_clear (ingame_events (ctx v)) v)
    by reflexivity.
  cbv zeta. unfold get_context_ingame_events. rewrite Hclear.
  unfold list_clear. cbn [ctx heap].
  split; [reflexivity |]. split; [apply deref_insert_eq |].
  split; [intros other Hne; by rewrite lookup_insert_ne |].
  intros new_location t ev cv Hne. rewrite Hclear. unfold list_clear. cbn [ctx heap].
  destruct (update_context_fields get_time_group w new_location t ev cv)
    as (_ & _ & _ & _ & ->).
  split; [| apply deref_insert_eq].
  rewrite (deref_insert_ne _ _ _ _ (not_eq_sym Hne)).
  rewrite update_context_heap. unfold due_events, list_appends.
  repeat case_bool_decide; cbn;
    rewrite ?deref_insert_eq, ?(deref_insert_ne _ _ _ _ (not_eq_sym Hne)), ?app_nil_r,
      <- ?app_assoc; reflexivity.
Qed.

(** Between two calls the time event depends on the hour alone: after a
    call with time [t] the next call owes a time event exactly when its
    time differs from [t].  The first call on a context that has just been
    constructed always owes one. *)
Theorem time_event_is_due_when_the_hour_changes :
  (forall w new_location t ev cv next_location t',
      let w1 := final (update_context get_time_group new_location t ev cv w) in
      time_event (str_of_int t', get_time_group t')
        ∈ due_events get_time_group (ctx w1) next_location t'
      <-> t' <> t)
  /\ (forall game cl rem lang too_long events new_location t,
        time_event (str_of_int t, get_time_group t)
          ∈ due_events get_time_group (init game cl rem lang too_long events) new_location t).
Proof.
  assert (Hdue : forall c new_location t,
             time_event (str_of_int t, get_time_group t)
               ∈ due_events get_time_group c new_location t
             <-> (str_of_int t, get_time_group t) <> prev_game_time c).
  { intros c new_location t. unfold due_events. split.
    - intros Hin. apply elem_of_app in Hin as [Hin | Hin].
      + case_bool_decide; [| by apply elem_of_nil in Hin].
        apply elem_of_cons in Hin as [Heq | Hin]; [| by apply elem_of_nil in Hin].
        unfold location_event, time_event in Heq. cbn in Heq. discriminate Heq.
      + case_bool_decide; [done | by apply elem_of_nil in Hin].
    - intros Hne. apply elem_of_app. right.
      rewrite bool_decide_eq_true_2 by exact Hne. left. }
  split.
  - intros w new_location t ev cv next_location t'. cbv zeta. rewrite Hdue.
    destruct (update_context_fields get_time_group w new_location t ev cv)
      as (_ & -> & _).
    split.
    + intros Hne ->. by apply Hne.
    + intros Hne [= Heq _]. apply Hne. by apply (inj pretty) in Heq.
  - intros game cl rem lang too_long events new_location t. rewrite Hdue. cbn.
    intros [= Heq _]. by apply (str_of_int_nonempty t).
Qed.

End EventsOverTime.

Lemma clear_empties_the_queue_only_witness :
  let w1 := Context.final (Context.update_context Sample.get_time_group "Whiterun" 12
                             2%positive ∅ Sample.world0) in
  Context.deref (Context.heap (Context.final (Context.clear_context_ingame_events w1)))
    2%positive
  = ["A dragon roars."; "The location is now Whiterun."; "The time is 12 in the afternoon."].
Proof.
  destruct (clear_empties_the_queue_only Sample.get_time_group Sample.world0)
    as (_ & _ & _ & Hkeep).
  destruct (Hkeep "Whiterun" 12 2%positive ∅) as [Hev _]; [discriminate |].
  exact Hev.
Defined.

Lemma time_event_is_due_when_the_hour_changes_witness :
  Trace.time_event (str_of_int 13, Sample.get_time_group 13)
    ∈ Trace.due_events Sample.get_time_group
        (Context.ctx (Context.final (Context.update_context Sample.get_time_group
                                       "Whiterun" 12 2%positive ∅ Sample.world0)))
        "Whiterun" 13.
Proof.
  destruct (time_event_is_due_when_the_hour_changes Sample.get_time_group) as [Hnext _].
  apply Hnext. discriminate.
Defined.

(** ** More on rendering the system prompt *)

Section PromptEdges.
Import Context Trace.
Variable get_time_group : Z -> string.
Variable load_conversation_log : Character.t -> list string.

Abbreviation gsm' := (generate_system_message get_time_group load_conversation_log).
Abbreviation render' := (Context.render get_time_group load_conversation_log).
Abbreviation full' := (full_content get_time_group load_conversation_log).
Abbreviation bios_only' := (bios_only_content get_time_group load_conversation_log).

(** Without a last-added character the local [name] is unbound, without a
    language entry the lookup of the language fails: either way the call
    raises before the template is formatted and before the predicate is
    asked, whatever the template is. *)
Theorem rendering_needs_a_name_and_a_language c prompt :
  (Characters.last_added_character (npcs_in_conversation c) = None ->
     generate_system_message_run get_time_group load_conversation_log c prompt
     = ([], Raises UnboundLocalError))
  /\ (is_Some (Characters.last_added_character (npcs_in_conversation c)) ->
      language c !! "language" = None ->
      generate_system_message_run get_time_group load_conversation_log c prompt
      = ([], Raises KeyError)).
Proof.
  unfold generate_system_message_run, removal_content. cbn [render_loop].
  unfold format_kwargs. cbn [lv_name compute_locals].
  split.
  - intros ->. reflexivity.
  - intros [ch ->] ->. reflexivity.
Qed.

Lemma no_brace_head ch c s :
  str_contains (String ch "") (String c s) = false ->
  Ascii.eqb c ch = false /\ str_contains (String ch "") s = false.
Proof.
  cbn [str_contains String.prefix]. intros H.
  destruct (ascii_dec ch c) as [-> | Hne].
  - assert (Hp : String.prefix "" s = true) by (destruct s; reflexivity).
    rewrite Hp in H. discriminate.
  - split; [| exact H]. apply Ascii.eqb_neq. congruence.
Qed.

(** A template without braces is its own rendering. *)
Lemma format_plain kw s :
  str_contains "{" s = false -> str_contains "}" s = false ->
  format_go kw None s = Returns s.
Proof.
  induction s as [|c s IH]; intros Ho Hc; [reflexivity |].
  apply no_brace_head in Ho as [Ho Ho']. apply no_brace_head in Hc as [Hc Hc'].
  cbn [format_go]. rewrite Ho, Hc, (IH Ho' Hc'). reflexivity.
Qed.

(** A template without braces is returned as it is, however the predicate
    answers, by every state that has a last-added character and a language
    entry. *)
Theorem plain_template_is_returned_unchanged c prompt :
  is_Some (Characters.last_added_character (npcs_in_conversation c)) ->
  is_Some (language c !! "language") ->
  str_contains "{" prompt = false ->
  str_contains "}" prompt = false ->
  gsm' c prompt = Returns prompt.
Proof.
  intros [ch Hch] [lang Hlang] Ho Hc.
  assert (Hr : forall content, render' c prompt content = Returns prompt).
  { intros content. unfold Context.render, format_kwargs. cbn [lv_name compute_locals].
    rewrite Hch, Hlang. cbn [bind]. unfold str_format. by apply format_plain. }
  unfold generate_system_message, generate_system_message_run.
  rewrite (removal_content_eq get_time_group load_conversation_log).
  rewrite (render_loop_step _ _ _ _ _ _ _ _ (Hr _)).
  destruct (is_prompt_too_long c prompt TOKEN_LIMIT_PERCENT) eqn:T; [| reflexivity].
  cbn [negb]. rewrite (render_loop_step _ _ _ _ _ _ _ _ (Hr _)), T. cbn [negb].
  rewrite (render_loop_step _ _ _ _ _ _ _ _ (Hr _)), T. reflexivity.
Qed.

(** The first two rungs of the ladder: a full rendering that fits is
    returned; when it is too long and the rendering without summaries fits,
    that one is returned. *)
Theorem richest_fitting_rendering_is_returned c prompt :
  (forall r1, render' c prompt (full' c) = Returns r1 ->
     is_prompt_too_long c r1 TOKEN_LIMIT_PERCENT = false ->
     gsm' c prompt = Returns r1)
  /\ (forall r1 r2,
        render' c prompt (full' c) = Returns r1 ->
        is_prompt_too_long c r1 TOKEN_LIMIT_PERCENT = true ->
        render' c prompt (bios_only' c) = Returns r2 ->
        is_prompt_too_long c r2 TOKEN_LIMIT_PERCENT = false ->
        gsm' c prompt = Returns r2).
Proof.
  unfold generate_system_message, generate_system_message_run.
  rewrite (removal_content_eq get_time_group load_conversation_log).
  split.
  - intros r1 H1 T1. rewrite (render_loop_step _ _ _ _ _ _ _ _ H1), T1. reflexivity.
  - intros r1 r2 H1 T1 H2 T2.
    rewrite (render_loop_step _ _ _ _ _ _ _ _ H1), T1. cbn [negb].
    rewrite (render_loop_step _ _ _ _ _ _ _ _ H2), T2. reflexivity.
Qed.

End PromptEdges.

Lemma rendering_needs_a_name_and_a_language_witness :
  Context.generate_system_message_run Sample.get_time_group Sample.no_log
    Sample.empty_context Sample.template = ([], Raises UnboundLocalError).
Proof.
  destruct (rendering_needs_a_name_and_a_language Sample.get_time_group Sample.no_log
              Sample.empty_context Sample.template) as [Hname _].
  apply Hname. reflexivity.
Defined.

Lemma plain_template_is_returned_unchanged_witness :
  Context.generate_system_message Sample.get_time_group Sample.no_log
    (Sample.lydia_context 5) "You are an innkeeper in Skyrim."
  = Returns "You are an innkeeper in Skyrim.".
Proof.
  apply (plain_template_is_returned_unchanged Sample.get_time_group Sample.no_log
           (Sample.lydia_context 5)).
  - vm_compute. eauto.
  - vm_compute. eauto.
  - reflexivity.
  - reflexivity.
Defined.

Lemma richest_fitting_rendering_is_returned_witness :
  Context.generate_system_message Sample.get_time_group Sample.no_log
    (Sample.lydia_context 20) Sample.template = Returns "Lydia: Housecarl.|".
Proof.
  destruct (richest_fitting_rendering_is_returned Sample.get_time_group Sample.no_log
              (Sample.lydia_context 20) Sample.template) as [_ Hsecond].
  apply (Hsecond "Lydia: Housecarl.|SUMMARY"); reflexivity.
Defined.

(** ** Characters leaving and changing *)

Section RosterEvents.
Import Context ContextOps.
Variable roster_remove : Characters.t -> Character.t -> Characters.t.
Variable load_conversation_log : Character.t -> list string.
Variable personal_pronoun_subject : Character.t -> string.
Variable personal_pronoun_object : Character.t -> string.

Abbreviation remove := (remove_character roster_remove).
Abbreviation npc_change :=
  (update_ingame_events_on_npc_change load_conversation_log personal_pronoun_subject
     personal_pronoun_object).

(** Removing a character that is not in the roster does nothing at all;
    removing one that is there takes it off the roster, appends the one
    event that it has left to the queue and raises the flag of changed
    actors, and touches nothing else. *)
Theorem remove_character_effect w npc :
  let q := ingame_events (ctx w) in
  let w' := final (remove npc w) in
  (Characters.contains_character (npcs_in_conversation (ctx w)) npc = false ->
     remove npc w = (tt, w, []))
  /\ (Characters.contains_character (npcs_in_conversation (ctx w)) npc = true ->
      npcs_in_conversation (ctx w') = roster_remove (npcs_in_conversation (ctx w)) npc
      /\ have_actors_changed (ctx w') = true
      /\ deref (heap w') q
           = (deref (heap w) q
              ++ [(Character.name npc ++ " has left the conversation")%string])%list
      /\ (forall other, other <> q -> heap w' !! other = heap w !! other)
      /\ location (ctx w') = location (ctx w)
      /\ ingame_time (ctx w') = ingame_time (ctx w)
      /\ prev_game_time (ctx w') = prev_game_time (ctx w)
      /\ custom_context_values (ctx w') = custom_context_values (ctx w)
      /\ ingame_events (ctx w') = q).
Proof.
  cbv zeta. unfold remove_character, private_remove_character, mbind, M_bind, read, write,
    mret, M_ret, final.
  split; intros ->; cbn [fst snd ctx heap on_ctx list_append].
  - reflexivity.
  - split_and!; try reflexivity.
    + cbn. apply deref_insert_eq.
    + intros other Hne. cbn. by rewrite lookup_insert_ne.
Qed.

(** Reporting the change of a character leaves the context as it is, the
    stored record of the character included, and appends to the queue one
    event for each transient field that differs from the stored record:
    combat for every character, hostility and relationship rank for
    characters other than the player. *)
Theorem npc_change_appends_one_event_per_changed_field w npc current_stats :
  get_character_by_name (npcs_in_conversation (ctx w)) (Character.name npc)
    = Some current_stats ->
  let q := ingame_events (ctx w) in
  let r := npc_change npc w in
  let differs {A} (same : A -> A -> bool) (field : Character.t -> A) :=
    Nat.b2n (negb (same (field current_stats) (field npc))) in
  r.1.1 = Returns tt
  /\ ctx (final r) = ctx w
  /\ (forall other, other <> q -> heap (final r) !! other = heap w !! other)
  /\ exists events,
       deref (heap (final r)) q = (deref (heap w) q ++ events)%list
       /\ length (trace r) = length events
       /\ length events
          = (differs Bool.eqb Character.is_in_combat
             + (if Character.is_player_character npc then 0
                else differs Bool.eqb Character.is_enemy
                     + differs Z.eqb Character.relationship_rank))%nat.
Proof.
  intros Hlookup. cbv zeta.
  unfold update_ingame_events_on_npc_change, mbind, M_bind, read, write, mret, M_ret,
    final, trace.
  rewrite Hlookup.
  destruct (Bool.eqb (Character.is_in_combat current_stats) (Character.is_in_combat npc));
    destruct (Character.is_in_combat npc);
    destruct (Character.is_player_character npc);
    destruct (Bool.eqb (Character.is_enemy current_stats) (Character.is_enemy npc));
    destruct (Character.is_enemy npc);
    destruct (Character.relationship_rank current_stats
                =? Character.relationship_rank npc);
    cbn [negb fst snd ctx heap list_append Nat.b2n app length Nat.add].
  all: split; [reflexivity |]; split; [reflexivity |].
  all: split; [intros other Hne; rewrite ?lookup_insert_ne by done; reflexivity |].
  all: rewrite ?deref_insert_eq.
  all: first
    [ exists []; rewrite app_nil_r; split_and!; reflexivity
    | eexists [_]; split_and!; reflexivity
    | eexists [_; _]; rewrite <- ?app_assoc; split_and!; reflexivity
    | eexists [_; _; _]; rewrite <- ?app_assoc; split_and!; reflexivity ].
Qed.

End RosterEvents.

Lemma remove_character_effect_witness :
  Context.deref
    (Context.heap (Context.final
       (ContextOps.remove_character Sample2.roster_remove Sample.lydia Sample.world0)))
    1%positive
  = ["Lydia is now in combat!"; "Lydia has left the conversation"].
Proof.
  destruct (remove_character_effect Sample2.roster_remove Sample.world0 Sample.lydia)
    as [_ Hpresent].
  destruct (Hpresent eq_refl) as (_ & _ & Hqueue & _).
  exact Hqueue.
Defined.

Lemma npc_change_appends_one_event_per_changed_field_witness :
  exists events,
    Context.deref
      (Context.heap (Context.final
         (ContextOps.update_ingame_events_on_npc_change Sample.no_log Sample2.she
            Sample2.her (Sample.with_rank 2) Sample.world0)))
      1%positive
    = (["Lydia is now in combat!"] ++ events)%list
    /\ length events = 1%nat.
Proof.
  destruct (npc_change_appends_one_event_per_changed_field Sample.no_log Sample2.she
              Sample2.her Sample.world0 (Sample.with_rank 2) Sample.lydia eq_refl)
    as (_ & _ & _ & events & Hqueue & _ & Hcount).
  exists events. split; [exact Hqueue | exact Hcount].
Defined.

(** ** More on resolving a character *)

Section ResolverEdges.
Import Gameable Cascade Table.
Variable load_unnamed_npc : string -> string -> Z -> string -> gmap string cell.

Abbreviation find' := (find_character_info load_unnamed_npc).

(** A result of the cascade that is not the generic record is the first
    match of one of the tiers. *)
Lemma cascade_found labels ts df generic :
  (cascade labels ts df generic).2 = false ->
  exists tier r, tier ∈ ts /\ r ∈ df /\ tier r = true
                 /\ (cascade labels ts df generic).1 = to_dict labels r.
Proof.
  induction ts as [|t ts IH]; cbn; [discriminate |].
  destruct (List.find t df) as [r|] eqn:Hfind; cbn.
  - intros _. apply find_some in Hfind as [Hin Ht].
    exists t, r. split; [by left |]. split; [by apply list_elem_of_In |]. done.
  - intros Hnot. destruct (IH Hnot) as (tier & r & Hin & Hr & Ht & Hinfo).
    exists tier, r. split; [by right | done].
Qed.

(** Every tier asks for the name or for the full id. *)
Lemma tier_needs_name_or_id df character_id character_name character_race tier r :
  tier ∈ tiers df character_id character_name character_race ->
  tier r = true ->
  name_ok character_name r = true \/ id_ok character_id r = true.
Proof.
  unfold tiers, both. intros Hin Ht.
  repeat (apply elem_of_cons in Hin as [-> | Hin]);
    [.. | by apply elem_of_nil in Hin];
    repeat match goal with
      | H : (_ && _)%bool = true |- _ => apply andb_prop in H as [? ?]
      end; auto.
Qed.

(** A table with the three columns and a row is resolvable. *)
Lemma nonempty_resolvable table :
  has_columns table = true -> rows table <> [] -> resolvable table = true.
Proof.
  unfold resolvable, id_column_is_text. intros -> Hrows.
  by destruct (rows table).
Qed.

(** The outcome of [find_character_info] on a loaded table, in the order
    in which the code can fail. *)
Lemma find_character_info_outcome self table character_id character_name
    race_descriptor gender ingame_voice_model :
  character_df self = Some table ->
  find' self character_id character_name race_descriptor gender ingame_voice_model
  = if negb (has_column table "base_id") then Raises KeyError
    else if negb (id_column_is_text table) then Raises AttributeError
    else if negb (has_column table "name") then Raises KeyError
    else match extract_race race_descriptor with
         | Returns character_race =>
             if negb (has_column table "race") then Raises KeyError
             else Returns
                    (cascade (columns table)
                       (tiers (rows table) character_id character_name character_race)
                       (rows table)
                       (load_unnamed_npc character_name character_race gender
                          ingame_voice_model))
         | Raises e => Raises e
         | Unmodelled => Unmodelled
         end.
Proof.
  intros Hdf. unfold has_column.
  destruct (columns table !! "base_id") as [d_id|] eqn:Hid; cbn [negb].
  2: { unfold find_character_info, get_df, getitem. rewrite Hdf. cbn [bind].
       rewrite Hid. reflexivity. }
  destruct (id_column_is_text table) eqn:Htext; cbn [negb].
  2: { unfold id_column_is_text in Htext. rewrite Hid in Htext.
       destruct (rows table) eqn:Hrows; [| discriminate]. destruct d_id; [discriminate |].
       unfold find_character_info, get_df, getitem. rewrite Hdf. cbn [bind].
       rewrite Hid. cbn [bind]. rewrite Hrows. reflexivity. }
  assert (Happly : apply_str remove_leading_zeros
                     {| series_dtype := d_id;
                        values := map (cell_at "base_id") (rows table) |}
                   = Returns (map remove_leading_zeros
                                (map (cell_at "base_id") (rows table)))).
  { apply apply_str_returns. intros Hnil. apply cells_nil in Hnil.
    unfold id_column_is_text in Htext. rewrite Hid, Hnil in Htext. by destruct d_id. }
  destruct (columns table !! "name") as [d_name|] eqn:Hname; cbn [negb].
  2: { unfold find_character_info, get_df, getitem. rewrite Hdf. cbn [bind].
       rewrite Hid. cbn [bind]. rewrite Happly. cbn [bind]. rewrite Hname. reflexivity. }
  destruct (extract_race race_descriptor) as [character_race|e|] eqn:Hrace.
  2,3: unfold find_character_info, get_df, getitem; rewrite Hdf; cbn [bind];
       rewrite Hid; cbn [bind]; rewrite Happly; cbn [bind]; rewrite Hname; cbn [bind];
       rewrite Hrace; reflexivity.
  destruct (columns table !! "race") as [d_race|] eqn:Hrc; cbn [negb].
  2: { unfold find_character_info, get_df, getitem. rewrite Hdf. cbn [bind].
       rewrite Hid. cbn [bind]. rewrite Happly. cbn [bind]. rewrite Hname. cbn [bind].
       rewrite Hrace. cbn [bind]. rewrite Hrc. reflexivity. }
  assert (Hres : resolvable table = true).
  { unfold resolvable, has_columns, has_column. by rewrite Hid, Hname, Hrc, Htext. }
  exact (find_character_info_cascade load_unnamed_npc self table character_id
           character_name race_descriptor character_race gender ingame_voice_model
           Hdf Hres Hrace).
Qed.

(** How [find_character_info] ends, in the order in which the code can
    fail.  On an object whose table was never assigned it raises
    [AttributeError] whatever the query is.  On a loaded table the first
    of these decides: no column [base_id], [KeyError]; an empty table with
    a [base_id] column of a numeric dtype, [AttributeError]; no column
    [name], [KeyError]; a race descriptor without the delimiter [<],
    [IndexError]; no column [race], [KeyError].  When none applies a
    result is returned. *)
Theorem find_character_info_errors self character_id character_name race_descriptor
    gender ingame_voice_model :
  let result :=
    find' self character_id character_name race_descriptor gender ingame_voice_model in
  (character_df self = None -> result = Raises AttributeError)
  /\ (forall table, character_df self = Some table ->
      let failure :=
        if negb (has_column table "base_id") then Some KeyError
        else if negb (id_column_is_text table) then Some AttributeError
        else if negb (has_column table "name") then Some KeyError
        else if negb (str_contains "<" race_descriptor) then Some IndexError
        else if negb (has_column table "race") then Some KeyError
        else None in
      match failure with
      | Some e => result = Raises e
      | None => exists found, result = Returns found
      end).
Proof.
  cbv zeta. split.
  - intros Hnone. unfold find_character_info, get_df. rewrite Hnone. reflexivity.
  - intros table Hdf.
    rewrite (find_character_info_outcome self table _ _ _ _ _ Hdf).
    pose proof (extract_race_outcome race_descriptor) as Hrace.
    destruct (has_column table "base_id"); cbn [negb]; [| reflexivity].
    destruct (id_column_is_text table); cbn [negb]; [| reflexivity].
    destruct (has_column table "name"); cbn [negb]; [| reflexivity].
    destruct (str_contains "<" race_descriptor); cbn [negb].
    + destruct Hrace as [character_race ->].
      destruct (has_column table "race"); cbn [negb]; [eauto | reflexivity].
    + rewrite Hrace. reflexivity.
Qed.

(** On a resolvable table the generic record is returned exactly when no
    row has the name or the full id of the query: race and partial id
    never rescue a query on their own.  A record that is not generic comes
    from a row of the table that has the name or the full id. *)
Theorem fallback_exactly_without_name_and_full_id self table character_id character_name
    race_descriptor character_race gender ingame_voice_model :
  character_df self = Some table ->
  resolvable table = true ->
  extract_race race_descriptor = Returns character_race ->
  exists info generic,
    find' self character_id character_name race_descriptor gender ingame_voice_model
      = Returns (info, generic)
    /\ (generic = true <->
          forall r, r ∈ rows table ->
            name_ok character_name r = false /\ id_ok character_id r = false)
    /\ (generic = false ->
          exists r, r ∈ rows table /\ info = to_dict (columns table) r
            /\ (name_ok character_name r = true \/ id_ok character_id r = true)).
Proof.
  intros Hdf Hres Hrace.
  rewrite (find_character_info_cascade load_unnamed_npc self table character_id
             character_name race_descriptor character_race gender ingame_voice_model
             Hdf Hres Hrace).
  set (df := rows table).
  set (ts := tiers df character_id character_name character_race).
  set (g := load_unnamed_npc character_name character_race gender ingame_voice_model).
  pose proof (cascade_generic (columns table) ts df g) as [Hiff _].
  pose proof (cascade_found (columns table) ts df g) as Hfound.
  destruct (cascade (columns table) ts df g) as [info generic]. cbn [fst snd] in *.
  exists info, generic. split; [reflexivity |]. split.
  - rewrite Hiff. split.
    + intros Hnone r Hr. split.
      * assert (Hex : existsb (name_ok character_name) df = false).
        { apply Hnone. unfold ts, tiers. do 5 (apply elem_of_cons; right).
          apply elem_of_cons. by left. }
        destruct (name_ok character_name r) eqn:Hn; [| reflexivity].
        rewrite <- Hex. symmetry. apply existsb_exists. exists r.
        split; [by apply list_elem_of_In | done].
      * assert (Hex : existsb (id_ok character_id) df = false).
        { apply Hnone. unfold ts, tiers. do 6 (apply elem_of_cons; right).
          apply elem_of_cons. by left. }
        destruct (id_ok character_id r) eqn:Hn; [| reflexivity].
        rewrite <- Hex. symmetry. apply existsb_exists. exists r.
        split; [by apply list_elem_of_In | done].
    + intros Hnone tier Htier.
      destruct (existsb tier df) eqn:Hex; [| reflexivity].
      apply existsb_exists in Hex as (r & Hin & Ht). apply list_elem_of_In in Hin.
      destruct (Hnone r Hin) as [Hn Hi].
      destruct (tier_needs_name_or_id _ _ _ _ _ _ Htier Ht); congruence.
  - intros Hg. destruct (Hfound Hg) as (tier & r & Htier & Hr & Ht & ->).
    exists r. split; [done |]. split; [done |].
    exact (tier_needs_name_or_id _ _ _ _ _ _ Htier Ht).
Qed.

(** On a table with the columns [base_id], [name] and [race], a name that
    some row has is always resolved to a row with that name, never to the
    generic record and never to a row found by its id alone. *)
Theorem known_name_resolves_to_a_row_of_that_name self table character_id character_name
    race_descriptor character_race gender ingame_voice_model :
  character_df self = Some table ->
  has_columns table = true ->
  extract_race race_descriptor = Returns character_race ->
  existsb (name_ok character_name) (rows table) = true ->
  exists r, r ∈ rows table /\ name_ok character_name r = true
    /\ find' self character_id character_name race_descriptor gender ingame_voice_model
       = Returns (to_dict (columns table) r, false).
Proof.
  intros Hdf Hcols Hrace Hname.
  assert (Hres : resolvable table = true).
  { apply nonempty_resolvable; [exact Hcols |]. intros Hnil. by rewrite Hnil in Hname. }
  rewrite (find_character_info_cascade load_unnamed_npc self table character_id
             character_name race_descriptor character_race gender ingame_voice_model
             Hdf Hres Hrace).
  unfold tiers. cbn [cascade].
  repeat match goal with
    | |- context [List.find ?p (rows table)] =>
        let F := fresh "F" in
        destruct (List.find p (rows table)) as [r|] eqn:F;
        [ apply find_some in F as [Hin Hp]; apply list_elem_of_In in Hin;
          exists r; split; [exact Hin |]; split; [| reflexivity];
          unfold both in Hp;
          repeat match goal with
            | H : (_ && _)%bool = true |- _ => apply andb_prop in H as [? ?]
            end; done
        | ]
    end.
  all: match goal with
       | F : List.find (name_ok _) _ = None |- _ =>
           apply existsb_exists in Hname as (r & Hin & Hr);
           rewrite (find_none _ _ F r Hin) in Hr; discriminate
       end.
Qed.

End ResolverEdges.

(** A table file in which every id is a number and nobody has a voice
    model loads as an empty table whose [base_id] column is numeric: every
    resolution on it raises. *)
Lemma find_character_info_errors_witness :
  exists self,
    (Gameable.init SampleGame.read_csv [] "" "data/numbered.csv" "Skyrim").2 = Returns self
    /\ Gameable.find_character_info SampleGame.load_unnamed_npc self
         "12345" "Draugr" "<DraugrRace (000A1B2C)>" 0 "MaleDraugr" = Raises AttributeError.
Proof.
  eexists. split; [reflexivity |].
  destruct (find_character_info_errors SampleGame.load_unnamed_npc
              {| Gameable.character_df :=
                   Some {| Gameable.columns := Gameable.columns SampleGame.numbered_table;
                           Gameable.rows := [] |};
                 Gameable.conversation_folder_path := "data/Skyrim/conversations" |}
              "12345" "Draugr" "<DraugrRace (000A1B2C)>" 0 "MaleDraugr") as [_ Hloaded].
  exact (Hloaded _ eq_refl).
Defined.

Lemma fallback_exactly_without_name_and_full_id_witness :
  exists info generic,
    Gameable.find_character_info SampleGame.load_unnamed_npc SampleGame.town
      "FF12AB" "Bandit" "<NordRace (00013746)>" 0 "MaleBrute" = Returns (info, generic)
    /\ (generic = true <->
          forall r, r ∈ [SampleGame.guard_row; SampleGame.lydia_row;
                         SampleGame.imperial_lydia_row] ->
            Cascade.name_ok "Bandit" r = false /\ Cascade.id_ok "FF12AB" r = false)
    /\ (generic = false ->
          exists r, r ∈ [SampleGame.guard_row; SampleGame.lydia_row;
                         SampleGame.imperial_lydia_row]
            /\ info = Gameable.to_dict SampleGame.labels r
            /\ (Cascade.name_ok "Bandit" r = true \/ Cascade.id_ok "FF12AB" r = true)).
Proof.
  apply (fallback_exactly_without_name_and_full_id SampleGame.load_unnamed_npc
           SampleGame.town
           (SampleGame.table [SampleGame.guard_row; SampleGame.lydia_row;
                              SampleGame.imperial_lydia_row])
           "FF12AB" "Bandit" "<NordRace (00013746)>" "Nord"); reflexivity.
Defined.

Lemma known_name_resolves_to_a_row_of_that_name_witness :
  exists r, r ∈ [SampleGame.lydia_row] /\ Cascade.name_ok "LYDIA" r = true
    /\ Gameable.find_character_info SampleGame.load_unnamed_npc SampleGame.game
         "FFFFFF" "LYDIA" "<ImperialRace (00013746)>" 0 "FemaleNord"
       = Returns (Gameable.to_dict SampleGame.labels r, false).
Proof.
  apply (known_name_resolves_to_a_row_of_that_name SampleGame.load_unnamed_npc
           SampleGame.game (SampleGame.table [SampleGame.lydia_row]) "FFFFFF" "LYDIA"
           "<ImperialRace (00013746)>" "Imperial"); reflexivity.
Defined.

(** ** What of a query the resolver looks at *)

Section TextLemmas.

Lemma str_drop_length m s : String.length (str_drop m s) = (String.length s - m)%nat.
Proof.
  revert s. induction m as [|m IH]; intros [|c s]; cbn; try done.
Qed.

Lemma str_drop_drop a b s : str_drop a (str_drop b s) = str_drop (b + a) s.
Proof.
  revert s. induction b as [|b IH]; intros s; [reflexivity |].
  destruct s as [|c s]; cbn; [by destruct a | apply IH].
Qed.

(** The last [k] characters of the last [n] characters are the last [k]
    characters. *)
Lemma str_suffix_suffix k n s : (k <= n)%nat -> str_suffix k (str_suffix n s) = str_suffix k s.
Proof.
  intros Hkn. unfold str_suffix. rewrite str_drop_length, str_drop_drop.
  f_equal. lia.
Qed.

Lemma ascii_lower_idemp c : ascii_lower (ascii_lower c) = ascii_lower c.
Proof. destruct c as [[] [] [] [] [] [] [] []]; reflexivity. Qed.

Lemma ascii_lower_zero c : Ascii.eqb (ascii_lower c) "0" = Ascii.eqb c "0".
Proof. destruct c as [[] [] [] [] [] [] [] []]; reflexivity. Qed.

Lemma str_lower_idemp s : str_lower (str_lower s) = str_lower s.
Proof. induction s as [|c s IH]; cbn; [done |]. by rewrite ascii_lower_idemp, IH. Qed.

Lemma str_lower_length s : String.length (str_lower s) = String.length s.
Proof. induction s as [|c s IH]; cbn; [done |]. by rewrite IH. Qed.

Lemma str_lower_drop m s : str_lower (str_drop m s) = str_drop m (str_lower s).
Proof. revert s. induction m as [|m IH]; intros [|c s]; cbn; try done. Qed.

Lemma str_lower_suffix k s : str_lower (str_suffix k s) = str_suffix k (str_lower s).
Proof. unfold str_suffix. by rewrite str_lower_drop, str_lower_length. Qed.

Lemma str_lower_lstrip_zero s :
  str_lower (str_lstrip "0" s) = str_lstrip "0" (str_lower s).
Proof.
  induction s as [|c s IH]; cbn; [done |].
  rewrite ascii_lower_zero. destruct (Ascii.eqb c "0"); [exact IH | reflexivity].
Qed.

End TextLemmas.

Section Queries.
Import Gameable Cascade Table Resolved.
Variable load_unnamed_npc : string -> string -> Z -> string -> gmap string cell.

Abbreviation find'' := (find_character_info load_unnamed_npc).

Lemma find_pointwise (p q : row -> bool) df :
  (forall r, p r = q r) -> List.find p df = List.find q df.
Proof.
  intros Hpq. induction df as [|r df IH]; [reflexivity |]. cbn.
  rewrite Hpq, IH. reflexivity.
Qed.

Lemma existsb_pointwise (p q : row -> bool) df :
  (forall r, p r = q r) -> existsb p df = existsb q df.
Proof.
  intros Hpq. induction df as [|r df IH]; [reflexivity |]. cbn.
  rewrite Hpq, IH. reflexivity.
Qed.

Lemma cascade_pointwise labels ts ts' df generic :
  Forall2 (fun p q => forall r, p r = q r) ts ts' ->
  cascade labels ts df generic = cascade labels ts' df generic.
Proof.
  induction 1 as [|p q ts ts' Hpq _ IH]; [reflexivity |]. cbn.
  rewrite (find_pointwise p q df Hpq), IH. reflexivity.
Qed.

Lemma cascade_row_of labels ts df generic generic' :
  row_of (cascade labels ts df generic) = row_of (cascade labels ts df generic').
Proof.
  induction ts as [|t ts IH]; [reflexivity |]. cbn.
  destruct (List.find t df); [reflexivity | exact IH].
Qed.

(** Tiers built from queries that agree on every row are the same tiers. *)
Lemma tiers_pointwise df id id' nm nm' race :
  (forall r, name_ok nm r = name_ok nm' r) ->
  (forall r, id_ok id r = id_ok id' r) ->
  (forall len r, (len <= 5)%nat -> partial_ok len id r = partial_ok len id' r) ->
  Forall2 (fun p q => forall r, p r = q r) (tiers df id nm race) (tiers df id' nm' race).
Proof.
  intros Hn Hi Hp.
  assert (Hlen : partial_length df id = partial_length df id').
  { unfold partial_length.
    rewrite (existsb_pointwise _ _ df (fun r => Hp 5%nat r (le_n _))).
    rewrite (existsb_pointwise _ _ df (fun r => Hp 4%nat r (le_S _ _ (le_n _)))).
    reflexivity. }
  assert (Hbound : (partial_length df id' <= 5)%nat).
  { unfold partial_length. repeat case_match; lia. }
  unfold tiers, both. rewrite Hlen.
  repeat constructor; intros r; rewrite ?Hn, ?Hi, ?(Hp _ _ Hbound); reflexivity.
Qed.

(** Two queries that agree on every row, and differ in nothing else that
    the function reads, have the same outcome. *)
Lemma find_same_tiers self id id' nm race gender voice :
  (forall r, id_ok id r = id_ok id' r) ->
  (forall len r, (len <= 5)%nat -> partial_ok len id r = partial_ok len id' r) ->
  find'' self id nm race gender voice = find'' self id' nm race gender voice.
Proof.
  intros Hi Hp.
  destruct (character_df self) as [table|] eqn:Hdf.
  - rewrite !(find_character_info_outcome load_unnamed_npc self table _ nm race gender
                voice Hdf).
    destruct (negb (has_column table "base_id")); [reflexivity |].
    destruct (negb (id_column_is_text table)); [reflexivity |].
    destruct (negb (has_column table "name")); [reflexivity |].
    destruct (extract_race race) as [character_race| |]; try reflexivity.
    destruct (negb (has_column table "race")); [reflexivity |].
    f_equal. apply cascade_pointwise, tiers_pointwise; done.
  - unfold find_character_info, get_df. rewrite Hdf. reflexivity.
Qed.

(** Of the id only the last six characters are read: an id and its last
    six characters always resolve alike. *)
Theorem only_the_last_six_characters_of_the_id_count self character_id character_name
    race_descriptor gender ingame_voice_model :
  find'' self (str_suffix 6 character_id) character_name race_descriptor gender
    ingame_voice_model
  = find'' self character_id character_name race_descriptor gender ingame_voice_model.
Proof.
  apply find_same_tiers.
  - intros r. unfold id_ok. by rewrite str_suffix_suffix.
  - intros len r Hlen. unfold partial_ok. rewrite str_suffix_suffix by lia. reflexivity.
Qed.

(** Name and id are compared without regard to case: the query in lower
    case finds the same row, or like the original finds none. *)
Theorem lower_case_query_finds_the_same_row self character_id character_name
    race_descriptor gender ingame_voice_model :
  rmap row_of
    (find'' self (str_lower character_id) (str_lower character_name) race_descriptor
       gender ingame_voice_model)
  = rmap row_of
      (find'' self character_id character_name race_descriptor gender ingame_voice_model).
Proof.
  destruct (character_df self) as [table|] eqn:Hdf.
  - rewrite !(find_character_info_outcome load_unnamed_npc self table _ _ race_descriptor
                gender ingame_voice_model Hdf).
    destruct (negb (has_column table "base_id")); [reflexivity |].
    destruct (negb (id_column_is_text table)); [reflexivity |].
    destruct (negb (has_column table "name")); [reflexivity |].
    destruct (extract_race race_descriptor) as [character_race| |]; try reflexivity.
    destruct (negb (has_column table "race")); [reflexivity |].
    cbn [rmap bind]. f_equal.
    rewrite (cascade_row_of _ _ (rows table) _
               (load_unnamed_npc character_name character_race gender
                  ingame_voice_model)).
    f_equal. apply cascade_pointwise, tiers_pointwise.
    + intros r. unfold name_ok. by rewrite str_lower_idemp.
    + intros r. unfold id_ok.
      by rewrite <- str_lower_suffix, <- str_lower_lstrip_zero, str_lower_idemp.
    + intros len r _. unfold partial_ok.
      by rewrite <- str_lower_suffix, <- str_lower_lstrip_zero, str_lower_idemp.
  - unfold find_character_info, get_df. rewrite Hdf. reflexivity.
Qed.

(** Missing cells still take part in the comparison.  On a table with
    the columns [base_id], [name] and [race], a row without a name reads
    as [nan] and is found by a query for that name; a row without an id
    reads as the empty id and is found by a query whose id is empty or made
    of zeros.  Neither query falls back to the generic record. *)
Theorem rows_with_missing_cells_are_matched self table character_id character_name
    race_descriptor character_race gender ingame_voice_model r :
  character_df self = Some table ->
  has_columns table = true ->
  extract_race race_descriptor = Returns character_race ->
  r ∈ rows table ->
  (name r = NaN /\ str_lower character_name = "nan")
  \/ (base_id r = NaN /\ str_lstrip "0" (str_suffix 6 character_id) = "") ->
  exists r',
    r' ∈ rows table
    /\ find'' self character_id character_name race_descriptor gender ingame_voice_model
       = Returns (to_dict (columns table) r', false).
Proof.
  intros Hdf Hcols Hrace Hr Hmissing.
  assert (Hres : resolvable table = true).
  { apply nonempty_resolvable; [exact Hcols |]. intros Hnil. rewrite Hnil in Hr.
    by apply elem_of_nil in Hr. }
  rewrite (find_character_info_cascade load_unnamed_npc self table character_id
             character_name race_descriptor character_race gender ingame_voice_model
             Hdf Hres Hrace).
  set (df := rows table) in *.
  set (ts := tiers df character_id character_name character_race).
  set (g := load_unnamed_npc character_name character_race gender ingame_voice_model).
  assert (Hmatch : exists tier, tier ∈ ts /\ tier r = true).
  { destruct Hmissing as [[Hname Hnan] | [Hid Hzero]].
    - exists (name_ok character_name). split.
      + unfold ts, tiers. do 5 (apply elem_of_cons; right). apply elem_of_cons. by left.
      + unfold name_ok. rewrite Hname, Hnan. reflexivity.
    - exists (id_ok character_id). split.
      + unfold ts, tiers. do 6 (apply elem_of_cons; right). apply elem_of_cons. by left.
      + unfold id_ok, remove_leading_zeros. rewrite Hid, Hzero. reflexivity. }
  destruct Hmatch as (tier & Htier & Ht).
  pose proof (cascade_generic (columns table) ts df g) as [Hiff _].
  pose proof (cascade_found (columns table) ts df g) as Hfound.
  destruct (cascade (columns table) ts df g) as [info generic]. cbn [fst snd] in *.
  destruct generic.
  - destruct Hiff as [Hnone _]. specialize (Hnone eq_refl tier Htier).
    assert (Hex : existsb tier df = true).
    { apply existsb_exists. exists r. split; [by apply list_elem_of_In | done]. }
    congruence.
  - destruct (Hfound eq_refl) as (_ & r' & _ & Hr' & _ & ->). eauto.
Qed.

End Queries.

Lemma rows_with_missing_cells_are_matched_witness :
  exists r',
    r' ∈ [Sample2.blank_row]
    /\ Gameable.find_character_info SampleGame.load_unnamed_npc Sample2.blank_game
         "000000" "Bandit" "<NordRace (00013746)>" 0 "MaleBrute"
       = Returns (Gameable.to_dict SampleGame.labels r', false).
Proof.
  apply (rows_with_missing_cells_are_matched SampleGame.load_unnamed_npc Sample2.blank_game
           (SampleGame.table [Sample2.blank_row]) "000000" "Bandit"
           "<NordRace (00013746)>" "Nord" 0 "MaleBrute" Sample2.blank_row
           eq_refl eq_refl eq_refl).
  - apply elem_of_cons. by left.
  - right. split; reflexivity.
Defined.

(** ** Loading the table *)

Section Loading.
Import Gameable.
Variable read_csv : string -> outcome frame.

(** The loaded table has the columns of the file and those of its rows
    that have a voice model, in the order of the file; a file without the
    column [voice_model] raises [KeyError], and an exception of the reader
    is passed on unchanged. *)
Theorem loaded_table_keeps_the_rows_with_a_voice_model file_name :
  (forall table, read_csv file_name = Returns table ->
     is_Some (columns table !! "voice_model") ->
     exists df,
       get_character_df read_csv file_name = Returns df
       /\ columns df = columns table
       /\ sublist (rows df) (rows table)
       /\ (forall r, r ∈ rows df <-> r ∈ rows table /\ voice_model r <> NaN))
  /\ (forall table, read_csv file_name = Returns table ->
        columns table !! "voice_model" = None ->
        get_character_df read_csv file_name = Raises KeyError)
  /\ (forall e, read_csv file_name = Raises e ->
        get_character_df read_csv file_name = Raises e).
Proof.
  unfold get_character_df, getitem. split_and!.
  - intros table -> [d Hcol]. cbn [bind]. rewrite Hcol. cbn [bind values].
    rewrite map_map. eexists. split; [reflexivity |]. cbn [loc columns rows].
    rewrite (loc_mask_filter (fun r => notna (voice_model r))).
    split; [reflexivity |]. split.
    + induction (rows table) as [|r df IH]; cbn; [constructor |].
      destruct (notna (voice_model r)); [by apply sublist_skip | by apply sublist_cons].
    + intros r. rewrite list_elem_of_In, filter_In, <- list_elem_of_In.
      unfold notna, isna. destruct (voice_model r); split; intros [? ?]; split; done.
  - intros table -> Hcol. cbn [bind]. rewrite Hcol. reflexivity.
  - intros e ->. reflexivity.
Qed.

End Loading.

Lemma loaded_table_keeps_the_rows_with_a_voice_model_witness :
  Gameable.get_character_df SampleGame.read_csv "data/skyrim_characters.csv"
  = Returns (SampleGame.table [SampleGame.lydia_row])
  /\ Gameable.get_character_df SampleGame.read_csv "data/broken.csv" = Raises OSError.
Proof.
  destruct (loaded_table_keeps_the_rows_with_a_voice_model SampleGame.read_csv
              "data/skyrim_characters.csv") as [Hload _].
  destruct (Hload (SampleGame.table [SampleGame.lydia_row; SampleGame.mute_row]) eq_refl)
    as (df & Hdf & _ & _); [vm_compute; eauto |].
  destruct (loaded_table_keeps_the_rows_with_a_voice_model SampleGame.read_csv
              "data/broken.csv") as (_ & _ & Hraise).
  split; [reflexivity | apply Hraise; reflexivity].
Defined.

(** ** [src/stt.py]: the activation word and the secret key *)

Section ActivationWord.
Import PyText Stt.

Lemma truthy_spec s : truthy s = true <-> s <> "".
Proof.
  unfold truthy. destruct (String.eqb_spec s ""); split; intros; done.
Qed.

(** The test on the set of words is membership in the list of words. *)
Lemma activation_name_exists_spec transcript name :
  activation_name_exists transcript name = true
  <-> transcript <> "" /\ (name ∈ str_split_ws transcript \/ transcript = name).
Proof.
  unfold activation_name_exists.
  destruct (truthy transcript) eqn:T.
  - apply truthy_spec in T.
    case_bool_decide as Hempty; cbn [negb].
    + destruct (String.eqb_spec transcript name) as [-> | Hne].
      * split; [intros _; split; [done | by right] | done].
      * split; [discriminate |]. intros [_ [Hin | ?]]; [| done].
        exfalso. apply (not_elem_of_empty (C:=gset string) name). rewrite <- Hempty.
        apply elem_of_intersection. split; apply elem_of_list_to_set; [done |].
        apply elem_of_cons. by left.
    + split; [| done]. intros _. split; [done |]. left.
      destruct (decide (name ∈ str_split_ws transcript)) as [? | Hnotin]; [done |].
      exfalso. apply Hempty. apply set_eq. intros x. split; [| by intros ?%not_elem_of_empty].
      intros [Hx Hn]%elem_of_intersection.
      apply elem_of_list_to_set in Hx, Hn.
      apply elem_of_cons in Hn as [-> | Hn]; [done | by apply elem_of_nil in Hn].
  - split; [discriminate |]. intros [Hne _].
    apply truthy_spec in Hne. congruence.
Qed.

Lemma str_rev_append_has_space acc s :
  has_space (str_rev_append acc s) = (existsb is_space acc || has_space s)%bool.
Proof.
  revert s. induction acc as [|c acc IH]; intros s; [reflexivity |].
  cbn. rewrite IH. cbn. destruct (is_space c), (existsb is_space acc), (has_space s); done.
Qed.

Lemma str_rev_append_nonempty acc s : acc <> [] -> str_rev_append acc s <> "".
Proof.
  revert s. induction acc as [|c [|d acc] IH]; intros s Hne; [done | discriminate |].
  cbn. apply (IH (String c s)). discriminate.
Qed.

(** A word of [split()] is never empty and holds no whitespace. *)
Lemma split_ws_words s : forall acc w,
  existsb is_space acc = false ->
  w ∈ split_ws_go acc s -> w <> "" /\ has_space w = false.
Proof.
  induction s as [|c s IH]; intros acc w Hacc Hin; cbn in Hin.
  - destruct acc as [|d acc]; [by apply elem_of_nil in Hin |].
    apply elem_of_cons in Hin as [-> | Hin]; [| by apply elem_of_nil in Hin].
    split; [apply (str_rev_append_nonempty (d :: acc)); discriminate |].
    change (has_space (str_rev_append (d :: acc) "") = false).
    by rewrite str_rev_append_has_space, Hacc.
  - destruct (is_space c) eqn:Hc.
    + destruct acc as [|d acc]; [by apply (IH [] w) |].
      apply elem_of_cons in Hin as [-> | Hin]; [| by apply (IH [] w)].
      split; [apply (str_rev_append_nonempty (d :: acc)); discriminate |].
      change (has_space (str_rev_append (d :: acc) "") = false).
      by rewrite str_rev_append_has_space, Hacc.
    + apply (IH (c :: acc) w); [| done]. cbn. by rewrite Hc.
Qed.

(** An activation name that is empty or holds whitespace is only found
    when the whole transcript is that name; on an empty transcript nothing
    is found. *)
Theorem activation_phrase_needs_the_exact_transcript transcript name :
  activation_name_exists "" name = false
  /\ (name = "" \/ has_space name = true ->
      (activation_name_exists transcript name = true
       <-> transcript = name /\ transcript <> "")).
Proof.
  split; [reflexivity |].
  intros Hname. rewrite activation_name_exists_spec. split.
  - intros [Hne [Hin | ->]]; [| done].
    apply (split_ws_words transcript [] name eq_refl) in Hin as [Hnonempty Hspace].
    destruct Hname as [-> | Hs]; [done | congruence].
  - intros [-> Hne]. split; [done | by right].
Qed.

Lemma split_ws_go_word w : forall acc rest,
  has_space w = false ->
  split_ws_go acc (w ++ rest) = split_ws_go (rev (list_ascii_of_string w) ++ acc) rest.
Proof.
  induction w as [|c w IH]; intros acc rest Hw; [reflexivity |].
  cbn in Hw. apply orb_false_elim in Hw as [Hc Hw].
  change (String c w ++ rest) with (String c (w ++ rest)).
  cbn [split_ws_go]. rewrite Hc, (IH _ _ Hw). cbn [list_ascii_of_string rev].
  by rewrite <- app_assoc.
Qed.

Lemma str_rev_append_rev w : forall acc s,
  str_rev_append (rev (list_ascii_of_string w) ++ acc) s = str_rev_append acc (w ++ s).
Proof.
  induction w as [|c w IH]; intros acc s; [reflexivity |].
  cbn [list_ascii_of_string rev]. rewrite <- app_assoc. cbn [app].
  rewrite IH. reflexivity.
Qed.

Lemma str_app_nil (s : string) : s ++ "" = s.
Proof.
  induction s as [|c s IH]; [reflexivity |].
  change (String c s ++ "") with (String c (s ++ "")). by rewrite IH.
Qed.

(** Splitting undoes joining with single spaces. *)
Lemma split_join_words ws :
  Forall (fun w => w <> "" /\ has_space w = false) ws ->
  str_split_ws (str_join " " ws) = ws.
Proof.
  unfold str_split_ws. induction 1 as [|w ws [Hne Hw] Hws IH]; [reflexivity |].
  assert (Hacc : rev (list_ascii_of_string w) <> []).
  { destruct w as [|c w]; [done |]. cbn. by destruct (rev (list_ascii_of_string w)). }
  assert (Hword : str_rev_append (rev (list_ascii_of_string w)) "" = w).
  { pose proof (str_rev_append_rev w [] "") as Hrev. rewrite app_nil_r in Hrev.
    rewrite Hrev. cbn [str_rev_append]. apply str_app_nil. }
  destruct ws as [|w' ws].
  - cbn [str_join].
    pose proof (split_ws_go_word w [] "" Hw) as Hgo.
    rewrite str_app_nil, app_nil_r in Hgo. rewrite Hgo. cbn [split_ws_go].
    destruct (rev (list_ascii_of_string w)); [done |]. by rewrite Hword.
  - change (str_join " " (w :: w' :: ws)) with (w ++ " " ++ str_join " " (w' :: ws)).
    rewrite (split_ws_go_word w [] _ Hw), app_nil_r.
    change (" " ++ str_join " " (w' :: ws)) with (String " " (str_join " " (w' :: ws))).
    cbn [split_ws_go]. change (is_space " ") with true. cbn iota.
    destruct (rev (list_ascii_of_string w)) eqn:Hrev; [done |].
    rewrite Hword, IH. reflexivity.
Qed.

(** In a transcript of words separated by single spaces the activation
    name is found exactly when it is one of the words, or the whole
    transcript. *)
Theorem activation_name_is_found_as_a_whole_word ws name :
  ws <> [] ->
  Forall (fun w => w <> "" /\ has_space w = false) ws ->
  (activation_name_exists (str_join " " ws) name = true
   <-> name ∈ ws \/ name = str_join " " ws).
Proof.
  intros Hne Hws. rewrite activation_name_exists_spec, (split_join_words ws Hws).
  assert (Hjoin : str_join " " ws <> "").
  { destruct Hws as [|w ws [Hw _] _]; [done |].
    destruct w as [|c w]; [done |]. destruct ws; discriminate. }
  split; [intros [_ [? | ?]]; auto | intros [? | ?]; auto].
Qed.

End ActivationWord.

Lemma activation_phrase_needs_the_exact_transcript_witness :
  Stt.activation_name_exists "hey lydia dear come here" "lydia dear" = false.
Proof.
  destruct (activation_phrase_needs_the_exact_transcript "hey lydia dear come here"
              "lydia dear") as [_ Hphrase].
  specialize (Hphrase (or_intror eq_refl)).
  destruct (Stt.activation_name_exists "hey lydia dear come here" "lydia dear");
    [| reflexivity].
  destruct Hphrase as [Hexact _]. destruct (Hexact eq_refl) as [Heq _]. discriminate Heq.
Defined.

Lemma activation_name_is_found_as_a_whole_word_witness :
  Stt.activation_name_exists "hey lydia come here" "lydia" = true.
Proof.
  apply (activation_name_is_found_as_a_whole_word ["hey"; "lydia"; "come"; "here"] "lydia").
  - discriminate.
  - repeat constructor; discriminate.
  - left. apply elem_of_cons. right. apply elem_of_cons. by left.
Defined.

Section RemovingTheWord.
Import PyText Stt.

Lemma intersperse_nothing s : intersperse "" s = s.
Proof. induction s as [|c s IH]; [reflexivity |]. cbn. by rewrite IH. Qed.

Lemma replace_go_absent old s :
  str_contains old s = false -> replace_go old "" 0 s = s.
Proof.
  induction s as [|c s IH]; intros H; [reflexivity |].
  cbn [str_contains] in H. cbn [replace_go].
  destruct (String.prefix old (String c s)); [discriminate |].
  by rewrite (IH H).
Qed.

Lemma replace_go_shrinks old s : forall skip,
  (String.length (replace_go old "" skip s) <= String.length s)%nat.
Proof.
  induction s as [|c s IH]; intros skip; [reflexivity |].
  cbn [replace_go]. destruct skip as [|k].
  - destruct (String.prefix old (String c s)).
    + change ("" ++ replace_go old "" (String.length old - 1) s)
        with (replace_go old "" (String.length old - 1) s).
      specialize (IH (String.length old - 1)%nat). cbn [String.length]. lia.
    + specialize (IH 0%nat). cbn [String.length]. lia.
  - specialize (IH k). cbn [String.length]. lia.
Qed.

(** Removing the activation word never lengthens the transcript, and
    leaves it as it is when the word is empty or does not occur. *)
Theorem remove_activation_word_effect transcript activation_name :
  (String.length (remove_activation_word transcript activation_name)
   <= String.length transcript)%nat
  /\ (activation_name = "" -> remove_activation_word transcript activation_name = transcript)
  /\ (str_contains activation_name transcript = false ->
      remove_activation_word transcript activation_name = transcript).
Proof.
  unfold remove_activation_word, str_replace.
  destruct (String.eqb_spec activation_name "") as [-> | Hne].
  - rewrite intersperse_nothing. split; [lia |]. split; [done |].
    intros H. destruct transcript; discriminate H.
  - split; [apply replace_go_shrinks |]. split; [done | apply replace_go_absent].
Qed.

End RemovingTheWord.

Lemma remove_activation_word_effect_witness :
  Stt.remove_activation_word "come here" "lydia" = "come here".
Proof.
  destruct (remove_activation_word_effect "come here" "lydia") as (_ & _ & Habsent).
  apply Habsent. reflexivity.
Defined.

Section SecretKey.
Import PyText Stt.
Variable read_text : string -> string + exn.

Lemma lstrip_no_leading_space s : starts_with_space (str_lstrip_ws s) = false.
Proof.
  induction s as [|c s IH]; [reflexivity |]. cbn [str_lstrip_ws].
  destruct (is_space c) eqn:Hc; [exact IH | cbn; exact Hc].
Qed.

Lemma rstrip_keeps_the_start s :
  starts_with_space s = false -> starts_with_space (str_rstrip_ws s) = false.
Proof.
  destruct s as [|c s]; [done |]. cbn. intros Hc.
  destruct (str_rstrip_ws s); [rewrite Hc |]; done.
Qed.

Lemma rstrip_no_trailing_space s : ends_with_space (str_rstrip_ws s) = false.
Proof.
  induction s as [|c s IH]; [reflexivity |]. cbn [str_rstrip_ws].
  destruct (str_rstrip_ws s) as [|d t] eqn:E.
  - destruct (is_space c) eqn:Hc; [reflexivity | cbn; exact Hc].
  - exact IH.
Qed.

Lemma line_break_is_space c : is_line_break c = true -> is_space c = true.
Proof.
  unfold is_line_break. intros H. apply orb_prop in H as [H | H];
    apply Ascii.eqb_eq in H; subst; reflexivity.
Qed.

Lemma readline_breaks text : breaks_only_at_the_end (readline text) = true.
Proof.
  induction text as [|c rest IH]; [reflexivity |]. cbn [readline].
  destruct (is_line_break c) eqn:Hc; [reflexivity |].
  cbn [breaks_only_at_the_end]. rewrite Hc, IH. by destruct (readline rest).
Qed.

Lemma breaks_tail c s :
  breaks_only_at_the_end (String c s) = true -> breaks_only_at_the_end s = true.
Proof.
  cbn [breaks_only_at_the_end]. destruct s; [done |].
  intros H. by apply andb_prop in H as [_ H].
Qed.

Lemma lstrip_breaks s :
  breaks_only_at_the_end s = true -> breaks_only_at_the_end (str_lstrip_ws s) = true.
Proof.
  induction s as [|c s IH]; [done |]. intros H. cbn [str_lstrip_ws].
  destruct (is_space c); [apply IH, (breaks_tail c s H) | exact H].
Qed.

Lemma rstrip_no_line_break s :
  breaks_only_at_the_end s = true -> has_line_break (str_rstrip_ws s) = false.
Proof.
  induction s as [|c s IH]; [done |]. intros H.
  pose proof (breaks_tail c s H) as Htail. specialize (IH Htail).
  cbn [str_rstrip_ws].
  assert (Hc : s <> "" -> is_line_break c = false).
  { intros Hs. cbn [breaks_only_at_the_end] in H. destruct s; [done |].
    apply andb_prop in H as [H _]. by apply negb_true_iff in H. }
  destruct (str_rstrip_ws s) as [|d t] eqn:E.
  - destruct (is_space c) eqn:Hsp; [reflexivity |]. cbn [has_line_break].
    destruct (is_line_break c) eqn:Hb; [| reflexivity].
    apply line_break_is_space in Hb. congruence.
  - cbn [has_line_break] in *. rewrite IH, Hc; [reflexivity |].
    intros ->. discriminate.
Qed.

(** How [__get_api_key] ends.  A key that is held is returned without
    looking at the file.  Without one, an exception raised on opening or
    reading is passed on and the object is unchanged; otherwise the first
    line without the whitespace around it becomes the key the object
    holds: it has no whitespace at either end and no line break in it; when
    it is empty the diagnostic is logged, the prompt is shown and the
    process ends with code 0; when it is not, it is returned, and so it is
    by every later call, whatever the files then hold.  The key that is
    returned is never empty. *)
Theorem get_api_key_outcomes self :
  (forall k, api_key self = Some k -> k <> "" ->
     get_api_key read_text self = ([], self, Returned k))
  /\ (no_key self = true ->
      (forall e, read_text (secret_key_file self) = inr e ->
         get_api_key read_text self = ([], self, Raised e))
      /\ (forall text, read_text (secret_key_file self) = inl text ->
            let key := str_strip (readline text) in
            let held := {| secret_key_file := secret_key_file self;
                           api_key := Some key |} in
            starts_with_space key = false
            /\ ends_with_space key = false
            /\ has_line_break key = false
            /\ (key = "" ->
                get_api_key read_text self
                = ([LoggingError no_key_message; Input "Press Enter to exit."],
                   held, Exited 0))
            /\ (key <> "" ->
                get_api_key read_text self = ([], held, Returned key)
                /\ forall other_files,
                     get_api_key other_files held = ([], held, Returned key))))
  /\ (forall events self' k,
        get_api_key read_text self = (events, self', Returned k) -> k <> "").
Proof.
  split_and!.
  - intros k Hk Hne. unfold get_api_key, no_key. rewrite Hk.
    apply truthy_spec in Hne. rewrite Hne. reflexivity.
  - intros Hno. unfold get_api_key. rewrite Hno. split.
    + intros e ->. reflexivity.
    + intros text ->. cbv zeta.
      split; [apply rstrip_keeps_the_start, lstrip_no_leading_space |].
      split; [apply rstrip_no_trailing_space |].
      split; [apply rstrip_no_line_break, lstrip_breaks, readline_breaks |].
      split.
      * intros Hempty. unfold str_strip in *. rewrite Hempty. reflexivity.
      * intros Hkey. apply truthy_spec in Hkey. rewrite Hkey. cbn [negb].
        split; [reflexivity |]. intros other_files.
        unfold get_api_key, no_key. cbn [api_key]. rewrite Hkey. reflexivity.
  - intros events self' k. unfold get_api_key.
    destruct (no_key self) eqn:Hno.
    + destruct (read_text (secret_key_file self)) as [text|e]; [| intros [=]].
      destruct (truthy (str_strip (readline text))) eqn:Hkey; cbn [negb]; intros [= _ _ <-].
      by apply truthy_spec.
    + intros [= _ _ <-]. unfold no_key in Hno.
      destruct (api_key self) as [k|]; [| discriminate].
      apply negb_false_iff in Hno. by apply truthy_spec.
Qed.

End SecretKey.

(** A key file whose first line ends in a carriage return, and a file
    whose first line is blank. *)
Lemma get_api_key_outcomes_witness :
  Stt.get_api_key Sample2.read_text Sample2.fresh_transcriber
  = ([], {| Stt.secret_key_file := "GPT_SECRET_KEY.txt"; Stt.api_key := Some "sk-123" |},
     Stt.Returned "sk-123")
  /\ Stt.get_api_key Sample2.read_text
       {| Stt.secret_key_file := "blank.txt"; Stt.api_key := None |}
     = ([Stt.LoggingError Stt.no_key_message; Stt.Input "Press Enter to exit."],
        {| Stt.secret_key_file := "blank.txt"; Stt.api_key := Some "" |}, Stt.Exited 0).
Proof.
  destruct (get_api_key_outcomes Sample2.read_text Sample2.fresh_transcriber)
    as (_ & Hfresh & _).
  destruct (Hfresh eq_refl) as [_ Hfile].
  destruct (Hfile _ eq_refl) as (_ & _ & _ & _ & Hkey).
  destruct (get_api_key_outcomes Sample2.read_text
              {| Stt.secret_key_file := "blank.txt"; Stt.api_key := None |})
    as (_ & Hblank & _).
  destruct (Hblank eq_refl) as [_ Hfile'].
  destruct (Hfile' _ eq_refl) as (_ & _ & _ & Hexit & _).
  split; [apply Hkey; discriminate | apply Hexit; reflexivity].
Defined.

(** ** The race inside the engine's descriptor *)

Section RaceDescriptor.
Import Gameable.

Lemma str_app_assoc (a b c : string) : (a ++ b) ++ c = a ++ b ++ c.
Proof.
  induction a as [|x a IH]; [reflexivity |].
  change ((String x a ++ b) ++ c) with (String x ((a ++ b) ++ c)).
  change (String x a ++ b ++ c) with (String x (a ++ b ++ c)). by rewrite IH.
Qed.

Lemma str_app_length (a b : string) :
  String.length (a ++ b) = (String.length a + String.length b)%nat.
Proof.
  induction a as [|x a IH]; [reflexivity |].
  change (String x a ++ b) with (String x (a ++ b)). cbn [String.length]. by rewrite IH.
Qed.

(** Whether a text begins with [p] is decided by its first characters. *)
Lemma prefix_truncate p : forall u v,
  (String.length p <= String.length u)%nat ->
  String.prefix p (u ++ v) = String.prefix p u.
Proof.
  induction p as [|c p IH]; intros u v Hlen; [by destruct (u ++ v), u |].
  destruct u as [|d u]; [cbn in Hlen; lia |].
  change (String d u ++ v) with (String d (u ++ v)). cbn [String.prefix].
  destruct (ascii_dec c d); [| reflexivity]. apply IH. cbn in Hlen. lia.
Qed.

(** Splitting a text in which the separator does not occur yields the
    text. *)
Lemma split_go_absent sep s : forall acc,
  str_contains sep s = false ->
  split_go sep 0 acc s = [str_rev_append acc s].
Proof.
  induction s as [|c s IH]; intros acc H; [reflexivity |].
  cbn [str_contains] in H. cbn [split_go].
  destruct (String.prefix sep (String c s)); [discriminate |].
  rewrite (IH (c :: acc) H). reflexivity.
Qed.

(** Splitting at [<] cuts off a head that has no [<]. *)
Lemma split_at_bracket head : forall acc tail,
  str_contains "<" head = false ->
  split_go "<" 0 acc (head ++ "<" ++ tail)
  = str_rev_append acc head :: split_go "<" 0 [] tail.
Proof.
  induction head as [|c head IH]; intros acc tail H.
  - change ("" ++ "<" ++ tail) with (String "<" tail). cbn [split_go String.prefix].
    destruct (ascii_dec "<" "<"); [| done].
    assert (Hp : String.prefix "" tail = true) by (destruct tail; reflexivity).
    rewrite Hp. reflexivity.
  - change (String c head ++ "<" ++ tail) with (String c (head ++ "<" ++ tail)).
    apply no_brace_head in H as [Hc H]. cbn [split_go String.prefix].
    destruct (ascii_dec "<" c) as [<- | _]; [discriminate Hc |].
    rewrite (IH (c :: acc) tail H). reflexivity.
Qed.

(** Splitting at the marker cuts off a head in which the marker does not
    begin. *)
Lemma split_at_marker head : forall acc tail,
  str_contains "Race " (head ++ "Race") = false ->
  exists pieces,
    split_go "Race " 0 acc (head ++ "Race " ++ tail) = str_rev_append acc head :: pieces.
Proof.
  induction head as [|c head IH]; intros acc tail H.
  - change ("" ++ "Race " ++ tail)
      with (String "R" (String "a" (String "c" (String "e" (String " " tail))))).
    cbn [split_go String.prefix].
    assert (Hp : String.prefix "" tail = true) by (destruct tail; reflexivity).
    cbn. rewrite Hp. eauto.
  - change (String c head ++ "Race") with (String c (head ++ "Race")) in H.
    cbn [str_contains] in H.
    destruct (String.prefix "Race " (String c (head ++ "Race"))) eqn:P; [discriminate |].
    change (String c head ++ "Race " ++ tail) with (String c (head ++ "Race " ++ tail)).
    cbn [split_go].
    assert (P' : String.prefix "Race " (String c (head ++ "Race " ++ tail)) = false).
    { assert (Hcut : String.prefix "Race " ((String c head ++ "Race") ++ " " ++ tail)
                     = String.prefix "Race " (String c head ++ "Race")).
      { apply prefix_truncate. rewrite str_app_length. cbn. lia. }
      rewrite str_app_assoc in Hcut. etransitivity; [exact Hcut | exact P]. }
    rewrite P'. destruct (IH (c :: acc) tail H) as [pieces Hp].
    exists pieces. rewrite Hp. reflexivity.
Qed.

(** The race is recovered from a descriptor of the engine's form: what
    stands between the first [<] and the marker [Race ] is returned,
    provided no [<] stands before or after it and the marker does not
    begin earlier. *)
Theorem extract_race_recovers_the_race before character_race after :
  str_contains "<" before = false ->
  str_contains "<" (character_race ++ "Race " ++ after) = false ->
  str_contains "Race " (character_race ++ "Race") = false ->
  extract_race (before ++ "<" ++ character_race ++ "Race " ++ after)
  = Returns character_race.
Proof.
  intros Hbefore Htail Hmarker. unfold extract_race, str_split.
  rewrite (split_at_bracket before [] _ Hbefore), (split_go_absent "<" _ [] Htail).
  cbn [list_index lookup list_lookup bind str_rev_append].
  destruct (split_at_marker character_race [] after Hmarker) as [pieces ->].
  reflexivity.
Qed.

End RaceDescriptor.

Lemma extract_race_recovers_the_race_witness :
  Gameable.extract_race "<NordRace (00013746)>" = Returns "Nord".
Proof.
  apply (extract_race_recovers_the_race "" "Nord" "(00013746)>"); reflexivity.
Defined.
